(** * Vivarium: process modules checked against their specification

    A shallow embedding of the process code of the repository
    (dictionary utilities, the timeline, tumor, concentration-deriver and
    transcription processes, and the lattice / transport-kinetics run
    loops) together with theorems about it.

    Conventions of the embedding.
    - A Python [dict] that is only looked up and written is a [gmap]; a
      dict or list that the code iterates in order is a [list] of items.
    - Python numbers that the code only adds, divides and compares are
      exact rationals [Q] (or integers [Z] for counts); rounding of the
      machine floats is not part of the model, but for the clocks of the
      run loops, whose addition is a parameter of the loops
      ([Num.binary64_add] for floats).
    - A raised exception is an explicit error result. *)

From Stdlib Require Import ZArith QArith Qround Qabs Lia Lqa Ascii SpecFloat.
From stdpp Require Import base option list gmap strings fin_maps.
From Equations Require Import Equations.

Local Open Scope Z_scope.

(* ===================================================================== *)
(** * Numbers and results shared by the models *)
(* ===================================================================== *)

Module Num.

(** [x < y] on numbers, as a test. *)
Definition Qlt_bool (x y : Q) : bool := negb (Qle_bool y x).

Lemma Qlt_bool_iff x y : Qlt_bool x y = true ↔ (x < y)%Q.
Proof.
  unfold Qlt_bool. rewrite negb_true_iff. split.
  - intros H. apply Qnot_le_lt. intros Hle. apply Qle_bool_iff in Hle. congruence.
  - intros H. destruct (Qle_bool y x) eqn:E; [|done].
    apply Qle_bool_iff in E. lra.
Qed.

Lemma Qlt_bool_false x y : Qlt_bool x y = false ↔ (y <= x)%Q.
Proof.
  unfold Qlt_bool. rewrite negb_false_iff. apply Qle_bool_iff.
Qed.

Lemma inject_nat_succ (k : nat) :
  (inject_Z (Z.of_nat (S k)) == inject_Z (Z.of_nat k) + 1)%Q.
Proof. rewrite Nat2Z.inj_succ. unfold Z.succ. rewrite inject_Z_plus. reflexivity. Qed.

Lemma inject_nat_nonneg (k : nat) : (0 <= inject_Z (Z.of_nat k))%Q.
Proof. change 0%Q with (inject_Z 0). rewrite <- Zle_Qle. lia. Qed.

(** ** The floats of the clocks

    The numbers of the models are exact.  The clocks of the run loops are
    Python floats, and there the rounding of [+] decides how often a loop
    runs.  [binary64 x] is the IEEE 754 double nearest to [x], the one
    with the even mantissa of two that are equally near (overflow and
    subnormal numbers are left out), and the sum of two floats is the
    rounded exact sum. *)
Definition pow2 (e : Z) : Q :=
  if 0 <=? e then inject_Z (2 ^ e) else (1 / inject_Z (2 ^ (- e)))%Q.

(** [floor(log2(abs(x)))], for [x] other than 0. *)
Definition exponent (x : Q) : Z :=
  let e := Z.log2 (Z.abs (Qnum x)) - Z.log2 (Zpos (Qden x)) in
  if Qle_bool (pow2 e) (Qabs x) then e else e - 1.

(** The integer nearest to [x], the even one of two that are equally near. *)
Definition round_half_even (x : Q) : Z :=
  let n := Qfloor x in
  let rest := (x - inject_Z n)%Q in
  if Qlt_bool rest (1 # 2) then n
  else if Qlt_bool (1 # 2) rest then n + 1
  else if Z.even n then n else n + 1.

Definition binary64 (x : Q) : Q :=
  let x := Qred x in
  if Qeq_bool x 0 then 0%Q
  else
    let ulp := pow2 (exponent x - 52) in
    Qred (inject_Z (round_half_even (x / ulp)) * ulp).

(** [x + y] on floats. *)
Definition binary64_add (x y : Q) : Q := binary64 (x + y).

Lemma binary64_proper x y : (x == y)%Q → binary64 x = binary64 y.
Proof. intros Heq. unfold binary64. by rewrite (Qred_complete _ _ Heq). Qed.

(** A sum that is a float is the float sum. *)
Lemma binary64_add_exact x y z :
  (x + y == z)%Q → binary64 z = Qred z → (binary64_add x y == x + y)%Q.
Proof.
  intros Hsum Hfloat. unfold binary64_add.
  rewrite (binary64_proper _ _ Hsum), Hfloat, Hsum. apply Qred_correct.
Qed.

(** The number that a float of the Standard Library's specification of
    IEEE 754 stands for. *)
Definition SF2Q (x : spec_float) : Q :=
  match x with
  | S754_finite s m e => ((if s then -1 else 1) * inject_Z (Zpos m) * pow2 e)%Q
  | _ => 0%Q
  end.

End Num.

Module Results.

(** A call either raises ([inl]) or returns ([inr]). *)
#[export] Instance result_ret {E : Type} : MRet (sum E) := λ A x, inr x.
#[export] Instance result_bind {E : Type} : MBind (sum E) :=
  λ A B f x, match x with inl e => inl e | inr a => f a end.

(** [dict[key]] on the way to a result. *)
Definition or_raise {E A : Type} (e : E) (x : option A) : E + A :=
  match x with Some a => inr a | None => inl e end.

End Results.

(* ===================================================================== *)
(** * The run loop [while self.time() < run_until: ...] *)
(* ===================================================================== *)

Module Loop.
Import Num.

(** How a run of the loop ends: normally, by an exception of the step, or
    (in the model only) because the fuel given to it ran out. *)
Inductive outcome (St E : Type) :=
| Done (s : St)
| Raised (e : E)
| OutOfFuel.
Arguments Done {St E} s.
Arguments Raised {St E} e.
Arguments OutOfFuel {St E}.

Section While.
Context {St E : Type}.
Variable time : St → Q.
Variable advance : St → St.
Variable step : St → E + St.

Fixpoint run (fuel : nat) (run_until : Q) (s : St) : list Q * outcome St E :=
  match fuel with
  | O => ([], OutOfFuel)
  | S fuel =>
    if Qlt_bool (time s) run_until then
      let s := advance s in
      match step s with
      | inl e => ([time s], Raised e)
      | inr s' =>
        let '(trace, out) := run fuel run_until s' in
        (time s :: trace, out)
      end
    else ([], Done s)
  end.
End While.


(** ** The schedule of the loop *)

Section Schedule.
Context {St E : Type}.
Variable time : St → Q.
Variable timestep : St → Q.
(** [+] as the clock has it. *)
Variable add : Q → Q → Q.
Variable advance : St → St.
Variable step : St → E + St.
Hypothesis advance_time : ∀ s, time (advance s) = add (time s) (timestep s).
Hypothesis advance_timestep : ∀ s, timestep (advance s) = timestep s.
Hypothesis step_frame :
  ∀ s s', step s = inr s' → time s' = time s ∧ timestep s' = timestep s.

(** [m] steps of size [d] from [t] are needed to reach [r]: [m] is the
    least number with [r <= t + m * d]. *)
Definition steps_to (r t d : Q) (m : nat) : Prop :=
  (r <= t + inject_Z (Z.of_nat m) * d)%Q
  ∧ (m = 0%nat ∨ (t + (inject_Z (Z.of_nat m) - 1) * d < r)%Q).

(** The first [m] additions of [d] to a clock started at [t] are exact. *)
Definition exact_sums (t d : Q) (m : nat) : Prop :=
  ∀ (k : nat) (x : Q), (k < m)%nat →
    (x == t + inject_Z (Z.of_nat k) * d)%Q → (add x d == x + d)%Q.

(** What a run of the loop has done, when [m] steps were needed. *)
Definition scheduled (run_until t d : Q) (m : nat) (result : list Q * outcome St E) : Prop :=
  (∀ k tk, result.1 !! k = Some tk →
     (tk == t + inject_Z (Z.of_nat (S k)) * d)%Q)
  ∧ match result.2 with
    | Done s' => length result.1 = m
                 ∧ (run_until <= time s')%Q
                 ∧ (time s' == t + inject_Z (Z.of_nat m) * d)%Q
    | Raised _ => (0 < length result.1 ≤ m)%nat
    | OutOfFuel => False
    end.

Lemma run_scheduled run_until m : ∀ fuel s,
  (0 < timestep s)%Q →
  steps_to run_until (time s) (timestep s) m →
  exact_sums (time s) (timestep s) m →
  (m < fuel)%nat →
  scheduled run_until (time s) (timestep s) m (run time advance step fuel run_until s).
Proof.
  induction m as [|m IH]; intros fuel s Hd [Hle Hgt] Hexact Hfuel;
    (destruct fuel as [|fuel]; [lia|]); simpl.
  - change (inject_Z (Z.of_nat 0)) with 0%Q in *.
    assert (Hnot : Qlt_bool (time s) run_until = false).
    { apply not_true_iff_false. rewrite Qlt_bool_iff. lra. }
    rewrite Hnot. split; cbn [fst snd length].
    + intros k tk. by rewrite lookup_nil.
    + change (inject_Z (Z.of_nat 0)) with 0%Q. split; [done|]. split; lra.
  - destruct Hgt as [?|Hgt]; [done|].
    pose proof (inject_nat_succ m) as Hm.
    pose proof (inject_nat_nonneg m) as H0m.
    assert (H0md : (0 <= inject_Z (Z.of_nat m) * timestep s)%Q).
    { apply Qmult_le_0_compat; lra. }
    assert (Hlt : Qlt_bool (time s) run_until = true).
    { apply Qlt_bool_iff. rewrite Hm in Hgt. lra. }
    rewrite Hlt.
    assert (Hsum : (time (advance s) == time s + timestep s)%Q).
    { rewrite advance_time. apply (Hexact 0%nat); [lia|].
      change (inject_Z (Z.of_nat 0)) with 0%Q. lra. }
    destruct (step (advance s)) as [e|s'] eqn:Hstep.
    + split; simpl.
      * intros [|k] tk Hk; simpl in Hk; [|by rewrite lookup_nil in Hk].
        injection Hk as <-. rewrite inject_nat_succ.
        change (inject_Z (Z.of_nat 0)) with 0%Q. lra.
      * lia.
    + destruct (step_frame _ _ Hstep) as [Ht' Hd'].
      rewrite advance_timestep in Hd'.
      assert (Hs' : (time s' == time s + timestep s)%Q) by by rewrite Ht'.
      specialize (IH fuel s').
      rewrite Hd' in IH.
      destruct IH as [IHtrace IHout]; [done| | |lia|].
      { split; [rewrite Hm in Hle; lra|].
        destruct m as [|m]; [by left|right].
        rewrite Hm in Hgt. lra. }
      { intros k x Hk Hx. apply (Hexact (S k)); [lia|].
        rewrite Hx, Hs', (inject_nat_succ k). ring. }
      destruct (run time advance step fuel run_until s') as [trace out].
      cbn [fst snd length] in *. split.
      * intros [|k] tk Hk; simpl in Hk.
        -- injection Hk as <-. rewrite inject_nat_succ.
           change (inject_Z (Z.of_nat 0)) with 0%Q. lra.
        -- rewrite (IHtrace k tk Hk).
           rewrite (inject_nat_succ (S k)). lra.
      * destruct out as [s''|e|]; cbn [fst snd length] in *; [|lia|done].
        destruct IHout as (Hlen & Hfin & Htime).
        split; [lia|]. split; [done|]. rewrite Htime, Hm. lra.
Qed.

(** The number of steps is the ceiling of the distance over the step. *)
Lemma steps_to_ceiling (r t d : Q) :
  (0 < d)%Q → (t <= r)%Q →
  steps_to r t d (Z.to_nat (Qceiling ((r - t) / d))).
Proof.
  intros Hd Hle.
  set (x := ((r - t) / d)%Q).
  assert (Hx : (x * d == r - t)%Q).
  { unfold x. field. lra. }
  assert (Hx0 : (0 <= x)%Q).
  { unfold x. apply Qle_shift_div_l; lra. }
  assert (Hc0 : 0 ≤ Qceiling x).
  { change 0 with (Qceiling 0). by apply Qceiling_resp_le. }
  unfold steps_to. rewrite Z2Nat.id by done.
  pose proof (Qle_ceiling x) as Hup. pose proof (Qceiling_lt x) as Hlo.
  split.
  - apply (Qmult_le_compat_r _ _ d) in Hup; lra.
  - destruct (decide (Qceiling x = 0)) as [->|Hne]; [by left|right].
    assert (Hc : (inject_Z (Qceiling x - 1) == inject_Z (Qceiling x) - 1)%Q).
    { unfold Z.sub. rewrite inject_Z_plus. reflexivity. }
    rewrite Hc in Hlo.
    apply (Qmult_lt_compat_r _ _ d) in Hlo; lra.
Qed.

(** The additions of the time step to the clock are exact on the way
    from [t0] to [run_until]: the sum that the clock stores for
    [t0 + k * d] and [d] is their sum, for every [k] below
    [ceil((run_until - t0) / d)]. *)
Definition exact_clock (run_until t0 d : Q) : Prop :=
  ∀ (k : nat) (x : Q), Z.of_nat k < Qceiling ((run_until - t0) / d) →
    (x == t0 + inject_Z (Z.of_nat k) * d)%Q → (add x d == x + d)%Q.

(** The schedule of the loop: every invocation of the step happens at a
    time [t0 + k * d] with [k = 1, 2, ...]; a run that ends normally has
    invoked the step exactly [ceil((run_until - t0) / d)] times and has
    reached [run_until]; a run that a step aborts by an exception has
    invoked it at most that often; and the run does end. *)
Definition on_schedule (run_until t0 d : Q) (result : list Q * outcome St E) : Prop :=
  (∀ k tk, result.1 !! k = Some tk →
     (tk == t0 + inject_Z (Z.of_nat (S k)) * d)%Q)
  ∧ match result.2 with
    | Done s' => Z.of_nat (length result.1) = Qceiling ((run_until - t0) / d)
                 ∧ (run_until <= time s')%Q
    | Raised _ => 0 < Z.of_nat (length result.1) ≤ Qceiling ((run_until - t0) / d)
    | OutOfFuel => False
    end.

Lemma run_on_schedule run_until fuel s :
  (time s <= run_until)%Q →
  (0 < timestep s)%Q →
  exact_clock run_until (time s) (timestep s) →
  (Z.to_nat (Qceiling ((run_until - time s) / timestep s)) < fuel)%nat →
  on_schedule run_until (time s) (timestep s) (run time advance step fuel run_until s).
Proof.
  intros Hle Hd Hexact Hfuel.
  pose proof (steps_to_ceiling run_until (time s) (timestep s) Hd Hle) as Hsteps.
  assert (Hsums : exact_sums (time s) (timestep s)
                    (Z.to_nat (Qceiling ((run_until - time s) / timestep s)))).
  { intros k x Hk. apply Hexact. lia. }
  destruct (run_scheduled run_until _ fuel s Hd Hsteps Hsums Hfuel) as [Htrace Hout].
  assert (Hc0 : 0 ≤ Qceiling ((run_until - time s) / timestep s)).
  { change 0 with (Qceiling 0). apply Qceiling_resp_le, Qle_shift_div_l; lra. }
  split; [done|].
  destruct (run time advance step fuel run_until s).2 as [s'|e|]; [|lia|done].
  destruct Hout as (Hlen & Hfin & _). split; [lia|done].
Qed.
End Schedule.

Section Returns.
Context {St E : Type}.
Variable time : St → Q.
Variable advance : St → St.
Variable step : St → E + St.
(** A condition under which the step returns, kept by the loop. *)
Variable returns : St → Prop.
Hypothesis advance_returns : ∀ s, returns s → returns (advance s).
Hypothesis step_returns : ∀ s, returns s → ∃ s', step s = inr s' ∧ returns s'.

Lemma run_not_raised fuel run_until s e :
  returns s → (run time advance step fuel run_until s).2 ≠ Raised e.
Proof.
  revert s. induction fuel as [|fuel IH]; intros s Hs; simpl; [done|].
  destruct (Qlt_bool (time s) run_until); [|done].
  destruct (step_returns _ (advance_returns _ Hs)) as (s' & -> & Hs').
  specialize (IH s' Hs').
  by destruct (run time advance step fuel run_until s') as [trace out].
Qed.
End Returns.

Section Stuck.
Context {St E : Type}.
Variable time : St → Q.
Variable advance : St → St.
Variable step : St → E + St.
Variable run_until : Q.
(** A state in which the loop goes on and from which it comes back to
    such a state. *)
Variable stuck : St → Prop.
Hypothesis stuck_early : ∀ s, stuck s → (time s < run_until)%Q.
Hypothesis stuck_step : ∀ s, stuck s → ∃ s', step (advance s) = inr s' ∧ stuck s'.

Lemma run_stuck fuel s :
  stuck s →
  (run time advance step fuel run_until s).2 = OutOfFuel
  ∧ length (run time advance step fuel run_until s).1 = fuel.
Proof.
  revert s. induction fuel as [|fuel IH]; intros s Hs; simpl; [done|].
  assert (Hlt : Qlt_bool (time s) run_until = true) by by apply Qlt_bool_iff, stuck_early.
  rewrite Hlt. destruct (stuck_step _ Hs) as (s' & -> & Hs').
  destruct (IH s' Hs') as [Hout Hlen].
  destruct (run time advance step fuel run_until s') as [trace out].
  simpl in *. by rewrite Hlen.
Qed.
End Stuck.
End Loop.

(* ===================================================================== *)
(** * vivarium/utils/dict_utils.py and the accumulate loop of
      test_convenience_kinetics *)
(* ===================================================================== *)

Module DictUtils.

(** [merge.update(d)]: every key of [d] is written into [merge],
    overwriting the value that was there. *)
Definition dict_update {V : Type} (merge d : gmap string V) : gmap string V :=
  d ∪ merge.

(** [merge_dicts(dicts)]:
    [merge = {}; for d in dicts: merge.update(d); return merge]. *)
Definition merge_dicts {V : Type} (dicts : list (gmap string V)) : gmap string V :=
  foldl dict_update ∅ dicts.

(** Two dicts agree when no key is bound to different values in them. *)
Definition agree {V : Type} (d1 d2 : gmap string V) : Prop :=
  ∀ k v1 v2, d1 !! k = Some v1 → d2 !! k = Some v2 → v1 = v2.

Definition pairwise_agree {V : Type} (dicts : list (gmap string V)) : Prop :=
  ∀ d1 d2, d1 ∈ dicts → d2 ∈ dicts → agree d1 d2.

Section Accumulate.
(** The values held by the state and the [+] of [+=]. *)
Context {V : Type} (add : V → V → V).

(** [state[role_id][state_id] += change]; a missing role or state is a
    [KeyError], modelled by [None].  The function acts on the outcome so
    far, so that an earlier [KeyError] is propagated. *)
Definition add_at (role_id state_id : string) (change : V)
    (state : option (gmap string (gmap string V)))
    : option (gmap string (gmap string V)) :=
  st ← state;
  states ← st !! role_id;
  current ← states !! state_id;
  Some (<[role_id := <[state_id := add current change]> states]> st).

(** [for state_id, change in states_update.items(): ... += change] *)
Definition apply_role (role_id : string) (states_update : gmap string V)
    (state : option (gmap string (gmap string V)))
    : option (gmap string (gmap string V)) :=
  map_fold (λ state_id change acc, add_at role_id state_id change acc)
           state states_update.

(** The "apply update" loop of [test_convenience_kinetics]:
    [for role_id, states_update in update.items():
       if role_id not in skip_roles: (inner loop)]. *)
Definition apply_update (skip_roles : list string)
    (update : gmap string (gmap string V))
    (state : option (gmap string (gmap string V)))
    : option (gmap string (gmap string V)) :=
  map_fold (λ role_id states_update acc,
              if decide (role_id ∈ skip_roles) then acc
              else apply_role role_id states_update acc)
           state update.

(** Applying a sequence of updates, one after the other. *)
Definition apply_updates (skip_roles : list string)
    (updates : list (gmap string (gmap string V)))
    (state : gmap string (gmap string V))
    : option (gmap string (gmap string V)) :=
  foldl (λ acc update, apply_update skip_roles update acc) (Some state) updates.
End Accumulate.

(** ** Facts about [merge_dicts] *)

Lemma merge_dicts_snoc {V} (dicts : list (gmap string V)) d :
  merge_dicts (dicts ++ [d]) = d ∪ merge_dicts dicts.
Proof. unfold merge_dicts. by rewrite foldl_app. Qed.

(** A binding of the merged dict comes from one of the dicts. *)
Lemma merge_dicts_lookup_Some {V} (dicts : list (gmap string V)) k v :
  merge_dicts dicts !! k = Some v → ∃ d, d ∈ dicts ∧ d !! k = Some v.
Proof.
  induction dicts as [|d dicts IH] using rev_ind.
  - unfold merge_dicts; simpl. by rewrite lookup_empty.
  - rewrite merge_dicts_snoc, lookup_union_Some_raw.
    intros [Hd | [_ Hm]].
    + exists d. split; [|done]. apply elem_of_app. right. apply list_elem_of_singleton. done.
    + destruct (IH Hm) as (d' & Hin & Hk). exists d'. split; [|done]. apply elem_of_app. by left.
Qed.

(** Every key of every dict is bound in the merged dict. *)
Lemma merge_dicts_lookup_is_Some {V} (dicts : list (gmap string V)) d k :
  d ∈ dicts → is_Some (d !! k) → is_Some (merge_dicts dicts !! k).
Proof.
  induction dicts as [|d' dicts IH] using rev_ind; [by intros ?%elem_of_nil|].
  intros Hin Hk. rewrite merge_dicts_snoc, lookup_union.
  apply elem_of_app in Hin as [Hin | Hin].
  - destruct (IH Hin Hk) as [v ->]. destruct (d' !! k); simpl; eauto.
  - apply list_elem_of_singleton in Hin as ->.
    destruct Hk as [v ->]. destruct (merge_dicts dicts !! k); simpl; eauto.
Qed.

(** When the dicts agree pairwise, the merged dict is their union as a
    relation: it binds [k] to [v] exactly when one of the dicts does. *)
Lemma merge_dicts_lookup_agree {V} (dicts : list (gmap string V)) k v :
  pairwise_agree dicts →
  merge_dicts dicts !! k = Some v ↔ ∃ d, d ∈ dicts ∧ d !! k = Some v.
Proof.
  intros Hagree. split; [apply merge_dicts_lookup_Some|].
  intros (d & Hin & Hk).
  destruct (merge_dicts_lookup_is_Some dicts d k Hin) as [v' Hv']; [eauto|].
  destruct (merge_dicts_lookup_Some _ _ _ Hv') as (d' & Hin' & Hk').
  by rewrite Hv', (Hagree d d' Hin Hin' k v v' Hk Hk').
Qed.

(** ** Facts about the accumulate loop *)

Section AccumulateFacts.
Context {V : Type} (add : V → V → V).
Hypothesis add_right_comm : ∀ a b c, add (add a b) c = add (add a c) b.

(** Two [+=] statements commute, whatever they address. *)
Lemma add_at_comm r1 s1 c1 r2 s2 c2 state :
  add_at add r1 s1 c1 (add_at add r2 s2 c2 state)
  = add_at add r2 s2 c2 (add_at add r1 s1 c1 state).
Proof.
  destruct state as [st|]; [|done]. unfold add_at; simpl.
  destruct (decide (r1 = r2)) as [->|Hr].
  - destruct (st !! r2) as [states|] eqn:Hst; simpl; [|done].
    destruct (decide (s1 = s2)) as [->|Hs].
    + destruct (states !! s2) as [cur|] eqn:Hcur; simpl; [|done].
      rewrite !lookup_insert_eq; simpl. rewrite !lookup_insert_eq; simpl.
      by rewrite !insert_insert_eq, add_right_comm.
    + destruct (states !! s2) as [cur2|] eqn:Hc2; simpl;
        destruct (states !! s1) as [cur1|] eqn:Hc1; simpl;
        rewrite ?lookup_insert_eq; simpl;
        rewrite ?lookup_insert_ne by done; rewrite ?Hc1, ?Hc2; simpl; try done.
      rewrite !insert_insert_eq. do 2 f_equal. by apply insert_insert_ne.
  - destruct (st !! r2) as [states2|] eqn:Hst2; simpl;
      destruct (st !! r1) as [states1|] eqn:Hst1; simpl; try done.
    + destruct (states2 !! s2) as [cur2|] eqn:Hc2; simpl;
        destruct (states1 !! s1) as [cur1|] eqn:Hc1; simpl;
        rewrite ?lookup_insert_ne by done; rewrite ?Hst1, ?Hst2; simpl;
        rewrite ?Hc1, ?Hc2; simpl; try done.
      f_equal. by apply insert_insert_ne.
    + destruct (states2 !! s2) as [cur2|] eqn:Hc2; simpl; [|done].
      by rewrite lookup_insert_ne, Hst1 by done.
    + destruct (states1 !! s1) as [cur1|] eqn:Hc1; simpl; [|done].
      by rewrite lookup_insert_ne, Hst2 by done.
Qed.

(** Whatever commutes with every [+=] commutes with a role's loop ... *)
Lemma apply_role_comm_acc (g : option (gmap string (gmap string V)) → _) r su state :
  (∀ r s c st, add_at add r s c (g st) = g (add_at add r s c st)) →
  apply_role add r su (g state) = g (apply_role add r su state).
Proof. intros Hg. unfold apply_role. apply map_fold_comm_acc. intros; apply Hg. Qed.

(** ... and with the loop over a whole update. *)
Lemma apply_update_comm_acc (g : option (gmap string (gmap string V)) → _) skip u state :
  (∀ r s c st, add_at add r s c (g st) = g (add_at add r s c st)) →
  apply_update add skip u (g state) = g (apply_update add skip u state).
Proof.
  intros Hg. unfold apply_update. apply map_fold_comm_acc.
  intros r su st. case_decide; [done|]. by apply apply_role_comm_acc.
Qed.

Lemma apply_update_comm skip u1 u2 state :
  apply_update add skip u1 (apply_update add skip u2 state)
  = apply_update add skip u2 (apply_update add skip u1 state).
Proof.
  apply apply_update_comm_acc. intros r s c st.
  symmetry. apply apply_update_comm_acc. intros. apply add_at_comm.
Qed.

Lemma foldl_apply_update_permutation skip (us us' : list (gmap string (gmap string V))) acc :
  us ≡ₚ us' →
  foldl (λ acc u, apply_update add skip u acc) acc us
  = foldl (λ acc u, apply_update add skip u acc) acc us'.
Proof.
  intros Hp. revert acc.
  induction Hp as [|u us us' _ IH|u1 u2 us|us1 us2 us3 _ IH1 _ IH2]; intros acc; simpl.
  - done.
  - apply IH.
  - by rewrite apply_update_comm.
  - by rewrite IH1.
Qed.
End AccumulateFacts.

(** ** Order of merging *)

(** Two dicts that bind the same key to different values: the dict merged
    last wins, so the result depends on the order. *)
Lemma merge_dicts_order_dependent :
  let d1 : gmap string Z := {[ "a"%string := 1 ]} in
  let d2 : gmap string Z := {[ "a"%string := 2 ]} in
  [d1; d2] ≡ₚ [d2; d1]
  ∧ merge_dicts [d1; d2] !! "a"%string = Some 2
  ∧ merge_dicts [d2; d1] !! "a"%string = Some 1
  ∧ merge_dicts [d1; d2] ≠ merge_dicts [d2; d1].
Proof.
  cbv zeta. split; [apply perm_swap|].
  assert (H12 : merge_dicts [({[ "a"%string := 1 ]} : gmap string Z); {[ "a"%string := 2 ]}]
                !! "a"%string = Some 2) by (by vm_compute).
  assert (H21 : merge_dicts [({[ "a"%string := 2 ]} : gmap string Z); {[ "a"%string := 1 ]}]
                !! "a"%string = Some 1) by (by vm_compute).
  repeat split; [done..|]. intros Heq. rewrite Heq, H21 in H12. discriminate.
Qed.

(** C1 (as amended).  Merging is independent of the order in which the
    pieces arrive in the two places where the code merges:
    - [merge_dicts] returns the same dictionary for every permutation of a
      list of dicts that agree pairwise on the keys they share (in
      particular for dicts with disjoint keys);
    - the accumulate loop ([+=] on every addressed state, skipped roles
      being ignored) reaches the same outcome -- the same final state, or
      a [KeyError] -- for every permutation of a list of updates, as soon
      as the addition is exact, that is [(a + b) + c = (a + c) + b]. *)
Theorem merge_order_independence {V : Type} (add : V → V → V) :
  (∀ a b c, add (add a b) c = add (add a c) b) →
  (∀ dicts dicts' : list (gmap string V),
      pairwise_agree dicts → dicts ≡ₚ dicts' →
      merge_dicts dicts = merge_dicts dicts')
  ∧ (∀ skip_roles (updates updates' : list (gmap string (gmap string V))) state,
      updates ≡ₚ updates' →
      apply_updates add skip_roles updates state
      = apply_updates add skip_roles updates' state).
Proof.
  intros Hadd. split.
  - intros dicts dicts' Hagree Hperm. apply map_eq. intros k.
    assert (Hagree' : pairwise_agree dicts').
    { intros d1 d2 H1 H2. apply Hagree; by rewrite Hperm. }
    apply option_eq. intros v.
    rewrite !merge_dicts_lookup_agree by done.
    by setoid_rewrite Hperm.
  - intros skip us us' st Hperm. unfold apply_updates.
    by apply foldl_apply_update_permutation.
Qed.

Lemma merge_order_independence_witness :
  let d1 : gmap string Z := {[ "a"%string := 1 ]} in
  let d2 : gmap string Z := {[ "b"%string := 2 ]} in
  let u1 : gmap string (gmap string Z) := {[ "internal"%string := {[ "A"%string := 1 ]} ]} in
  let u2 : gmap string (gmap string Z) := {[ "internal"%string := {[ "A"%string := 5 ]} ]} in
  merge_dicts [d1; d2] = merge_dicts [d2; d1]
  ∧ apply_updates Z.add ["exchange"%string] [u1; u2] {[ "internal"%string := {[ "A"%string := 10 ]} ]}
    = apply_updates Z.add ["exchange"%string] [u2; u1] {[ "internal"%string := {[ "A"%string := 10 ]} ]}.
Proof.
  cbv zeta.
  destruct (merge_order_independence Z.add) as [Hmerge Hacc].
  { intros a b c. lia. }
  split.
  - apply Hmerge; [|apply perm_swap].
    intros d1 d2 H1 H2 k v1 v2 Hk1 Hk2.
    apply list_elem_of_In in H1, H2. simpl in H1, H2.
    destruct H1 as [<-|[<-|[]]], H2 as [<-|[<-|[]]];
      apply lookup_singleton_Some in Hk1 as [<- <-];
      apply lookup_singleton_Some in Hk2 as [? <-]; done.
  - apply Hacc, perm_swap.
Defined.
(** ** Role dictionaries *)

(** [flatten_role_dicts(dicts)]: [dicts] and the dicts it holds are
    traversed with [.items()] and are lists of items; [merge] is only
    written. *)
Definition flatten_role_dicts {V : Type} (dicts : list (string * list (string * V)))
    : gmap string V :=
  foldl (λ merge '(role, states_dict),
           foldl (λ merge '(state, value),
                    dict_update merge {[ (state +:+ "_") +:+ role := value ]})
                 merge states_dict)
        ∅ dicts.

(** [tuplify_role_dicts(dicts)] *)
Definition tuplify_role_dicts {V : Type} (dicts : list (string * list (string * V)))
    : gmap (string * string) V :=
  foldl (λ merge '(role, states_dict),
           foldl (λ merge '(state, value), {[ (role, state) := value ]} ∪ merge)
                 merge states_dict)
        ∅ dicts.

(** The keys of a dict are distinct, at both levels of a role dict. *)
Definition role_dicts {V : Type} (dicts : list (string * list (string * V))) : Prop :=
  NoDup dicts.*1 ∧ ∀ role states_dict, (role, states_dict) ∈ dicts → NoDup states_dict.*1.

(** [c not in s] *)
Fixpoint lacks (c : Ascii.ascii) (s : string) : bool :=
  match s with
  | EmptyString => true
  | String c' s => if decide (c = c') then false else lacks c s
  end.

(** ** A loop of [merge.update({key: value})] *)

Section Writes.
Context {K : Type} `{Countable K} {V : Type}.

(** The dict after the writes [items], the last write of a key being the
    one that stays. *)
Definition writes (items : list (K * V)) (merge : gmap K V) : gmap K V :=
  foldl (λ merge item, {[ item.1 := item.2 ]} ∪ merge) merge items.

Lemma writes_snoc items item merge :
  writes (items ++ [item]) merge = {[ item.1 := item.2 ]} ∪ writes items merge.
Proof. unfold writes. by rewrite foldl_app. Qed.

Lemma writes_app items1 items2 merge :
  writes (items1 ++ items2) merge = writes items2 (writes items1 merge).
Proof. unfold writes. by rewrite foldl_app. Qed.

Lemma writes_lookup_Some items merge k v :
  writes items merge !! k = Some v → (k, v) ∈ items ∨ merge !! k = Some v.
Proof.
  induction items as [|[k' v'] items IH] using rev_ind; [by right|].
  rewrite writes_snoc, lookup_union_Some_raw. simpl.
  intros [[<- <-]%lookup_singleton_Some | [_ Hw]].
  - left. apply elem_of_app. right. by left.
  - destruct (IH Hw) as [Hin|Hm]; [left|by right]. apply elem_of_app. by left.
Qed.

(** A key written with one value only holds that value. *)
Lemma writes_lookup_functional items merge k v :
  (k, v) ∈ items → (∀ v', (k, v') ∈ items → v' = v) →
  writes items merge !! k = Some v.
Proof.
  induction items as [|[k' v'] items IH] using rev_ind; [by intros ?%elem_of_nil|].
  intros Hin Hfun. rewrite writes_snoc. simpl.
  destruct (decide (k' = k)) as [->|Hne].
  - rewrite (Hfun v'); [apply lookup_union_Some_l, lookup_singleton_eq|].
    apply elem_of_app. right. by left.
  - rewrite lookup_union_r by (by apply lookup_singleton_ne).
    apply IH.
    + apply elem_of_app in Hin as [Hin|[= -> ->]%list_elem_of_singleton]; done.
    + intros v'' Hin'. apply Hfun, elem_of_app. by left.
Qed.
End Writes.

(** The writes of the two loops of [flatten_role_dicts] and
    [tuplify_role_dicts], in order, under the key made by [key]. *)
Definition role_items {K V : Type} (key : string → string → K)
    (dicts : list (string * list (string * V))) : list (K * V) :=
  dicts ≫= λ '(role, states_dict),
    (λ '(state, value), (key role state, value)) <$> states_dict.

Lemma role_items_elem_of {K V} (key : string → string → K) (dicts : list (string * list (string * V))) k v :
  (k, v) ∈ role_items key dicts
  ↔ ∃ role states_dict state,
      (role, states_dict) ∈ dicts ∧ (state, v) ∈ states_dict ∧ k = key role state.
Proof.
  unfold role_items. rewrite list_elem_of_bind. split.
  - intros ([role sd] & Hin & Hd). apply list_elem_of_fmap in Hin as ([state v'] & [= -> ->] & Hin).
    by exists role, sd, state.
  - intros (role & sd & state & Hd & Hin & ->). exists (role, sd). split; [|done].
    apply list_elem_of_fmap. by exists (state, v).
Qed.

Lemma role_loops_writes {K V} `{Countable K} (key : string → string → K)
    (dicts : list (string * list (string * V))) (merge : gmap K V) :
  foldl (λ merge '(role, states_dict),
           foldl (λ merge '(state, value), {[ key role state := value ]} ∪ merge)
                 merge states_dict)
        merge dicts
  = writes (role_items key dicts) merge.
Proof.
  revert merge. induction dicts as [|[role sd] dicts IH]; intros merge; [done|].
  simpl. rewrite IH. unfold role_items at 2. simpl.
  change (mbind ?f dicts) with (role_items key dicts).
  rewrite writes_app. f_equal.
  clear. revert merge. induction sd as [|[state v] sd IH]; intros merge; [done|].
  simpl. by rewrite IH.
Qed.

Lemma flatten_role_dicts_writes {V} (dicts : list (string * list (string * V))) :
  flatten_role_dicts dicts
  = writes (role_items (λ role state, (state +:+ "_") +:+ role) dicts) ∅.
Proof. unfold flatten_role_dicts, dict_update. apply role_loops_writes. Qed.

Lemma tuplify_role_dicts_writes {V} (dicts : list (string * list (string * V))) :
  tuplify_role_dicts dicts = writes (role_items pair dicts) ∅.
Proof. unfold tuplify_role_dicts. apply (role_loops_writes pair). Qed.

(** A dict binds a key once. *)
Lemma items_unique {K V} (items : list (K * V)) k v v' :
  NoDup items.*1 → (k, v) ∈ items → (k, v') ∈ items → v = v'.
Proof.
  intros Hnodup [i Hi]%list_elem_of_lookup_1 [j Hj]%list_elem_of_lookup_1.
  assert (i = j) as ->.
  { apply (NoDup_lookup _ _ _ k Hnodup); rewrite list_lookup_fmap.
    - by rewrite Hi.
    - by rewrite Hj. }
  congruence.
Qed.

(** When [key] tells the (role, state) pairs apart, every entry of a role
    dict is found under its key. *)
Lemma role_writes_lookup {K V} `{Countable K} (key : string → string → K)
    (dicts : list (string * list (string * V))) role states_dict state v :
  role_dicts dicts →
  (∀ role' states_dict' state' v',
     (role', states_dict') ∈ dicts → (state', v') ∈ states_dict' →
     key role' state' = key role state → role' = role ∧ state' = state) →
  (role, states_dict) ∈ dicts → (state, v) ∈ states_dict →
  writes (role_items key dicts) ∅ !! key role state = Some v.
Proof.
  intros [Hroles Hstates] Hkey Hd Hs. apply writes_lookup_functional.
  - apply role_items_elem_of. by exists role, states_dict, state.
  - intros v' (role' & sd' & state' & Hd' & Hs' & Heq)%role_items_elem_of.
    destruct (Hkey role' sd' state' v' Hd' Hs') as [-> ->]; [done|].
    assert (sd' = states_dict) as -> by (by eapply items_unique).
    eapply items_unique; [|done..]. by eapply Hstates.
Qed.

(** ** The separator of [flatten_role_dicts] *)

Lemma lacks_app c s1 s2 : lacks c (s1 +:+ String c s2) = false.
Proof.
  induction s1 as [|c' s1 IH]; simpl.
  - by rewrite decide_True.
  - rewrite IH. by case_decide.
Qed.

Lemma flat_key state role :
  (state +:+ "_") +:+ role = state +:+ String "_"%char role.
Proof.
  induction state as [|c state IH]; [done|].
  change (String c ((state +:+ "_") +:+ role) = String c (state +:+ String "_"%char role)).
  by rewrite IH.
Qed.

(** A key [state + '_' + role] is read back in one way only when the role
    holds no ['_']. *)
Lemma flat_key_inj role state role' state' :
  lacks "_"%char role = true → lacks "_"%char role' = true →
  (state +:+ "_") +:+ role = (state' +:+ "_") +:+ role' →
  role = role' ∧ state = state'.
Proof.
  intros Hrole Hrole'. rewrite !flat_key. revert state'.
  induction state as [|c state IH]; intros [|c' state']; cbn.
  - by intros [= ->].
  - intros [= <- ->]. by rewrite lacks_app in Hrole.
  - intros [= -> <-]. by rewrite lacks_app in Hrole'.
  - intros [= -> Heq]. by destruct (IH _ Heq) as [-> ->].
Qed.

(** [tuplify_role_dicts] keeps every entry of a role dict apart: the
    result binds [(role, state)] to [value] exactly when [dicts[role]]
    binds [state] to [value]. *)
Theorem tuplify_role_dicts_lookup {V} (dicts : list (string * list (string * V)))
    role state value :
  role_dicts dicts →
  tuplify_role_dicts dicts !! (role, state) = Some value
  ↔ ∃ states_dict, (role, states_dict) ∈ dicts ∧ (state, value) ∈ states_dict.
Proof.
  intros Hdicts. rewrite tuplify_role_dicts_writes. split.
  - intros [Hin|Hempty]%writes_lookup_Some; [|by rewrite lookup_empty in Hempty].
    apply role_items_elem_of in Hin as (role' & sd & state' & Hd & Hs & [= -> ->]).
    by exists sd.
  - intros (sd & Hd & Hs). apply (role_writes_lookup pair _ _ sd); try done.
    by intros role' sd' state' v' _ _ [= -> ->].
Qed.

Lemma tuplify_role_dicts_lookup_witness :
  let dicts := [("internal", [("A", 1); ("B", 2)]); ("external", [("A", 3)])]%string in
  tuplify_role_dicts dicts !! ("external", "A")%string = Some 3
  ↔ ∃ states_dict, ("external"%string, states_dict) ∈ dicts
                   ∧ ("A"%string, 3) ∈ states_dict.
Proof.
  cbv zeta. apply tuplify_role_dicts_lookup. split.
  - by apply (bool_decide_unpack _).
  - intros role sd Hin. apply list_elem_of_In in Hin. simpl in Hin.
    destruct Hin as [[= <- <-]|[[= <- <-]|[]]]; by apply (bool_decide_unpack _).
Defined.

(** [flatten_role_dicts]: every binding of the result stems from an entry
    of [dicts] under the key [state + '_' + role]; when no role id holds
    the separator ['_'] every entry of [dicts] is found under its key.
    Two entries whose keys read the same are merged, the one written last
    staying: [{'b_c': {'a': 1}, 'c': {'a_b': 2}}] flattens to
    [{'a_b_c': 2}]. *)
Theorem flatten_role_dicts_lookup {V} (dicts : list (string * list (string * V))) :
  role_dicts dicts →
  (∀ key value, flatten_role_dicts dicts !! key = Some value →
     ∃ role states_dict state,
       (role, states_dict) ∈ dicts ∧ (state, value) ∈ states_dict
       ∧ key = (state +:+ "_") +:+ role)
  ∧ ((∀ role, role ∈ dicts.*1 → lacks "_"%char role = true) →
     ∀ role states_dict state value,
       (role, states_dict) ∈ dicts → (state, value) ∈ states_dict →
       flatten_role_dicts dicts !! ((state +:+ "_") +:+ role) = Some value)
  ∧ flatten_role_dicts [("b_c", [("a", 1)]); ("c", [("a_b", 2)])]%string
    = {[ "a_b_c"%string := 2 ]}.
Proof.
  intros Hdicts. rewrite flatten_role_dicts_writes. split; [|split].
  - intros key value [Hin|Hempty]%writes_lookup_Some; [|by rewrite lookup_empty in Hempty].
    by apply role_items_elem_of in Hin.
  - intros Hlacks role sd state value Hd Hs.
    apply (role_writes_lookup (λ role state, (state +:+ "_") +:+ role) _ _ sd); try done.
    intros role' sd' state' v' Hd' _. apply flat_key_inj; apply Hlacks.
    + apply list_elem_of_fmap. by exists (role', sd').
    + apply list_elem_of_fmap. by exists (role, sd).
  - by vm_compute.
Qed.

Lemma flatten_role_dicts_lookup_witness :
  let dicts := [("internal", [("A", 1); ("B", 2)]); ("external", [("A", 3)])]%string in
  flatten_role_dicts dicts !! "A_external"%string = Some 3.
Proof.
  cbv zeta.
  assert (Hdicts : role_dicts
            [("internal", [("A", 1); ("B", 2)]); ("external", [("A", 3)])]%string).
  { split.
    - by apply (bool_decide_unpack _).
    - intros role sd Hin. apply list_elem_of_In in Hin. simpl in Hin.
      destruct Hin as [[= <- <-]|[[= <- <-]|[]]]; by apply (bool_decide_unpack _). }
  destruct (flatten_role_dicts_lookup _ Hdicts) as (_ & Hlookup & _).
  apply (Hlookup (λ role Hin, ltac:(
           apply list_elem_of_In in Hin; simpl in Hin;
           destruct Hin as [<-|[<-|[]]]; reflexivity))
           "external"%string [("A"%string, 3)] "A"%string 3).
  - right. left.
  - left.
Defined.

(** [merge_dicts] lets the last writer win: a key bound by a dict of the
    list, and by none of the dicts after it, has in the merged dict the
    value of that dict, whatever the earlier dicts hold. *)
Theorem merge_dicts_last_wins {V} (before : list (gmap string V)) d after k v :
  d !! k = Some v → (∀ d', d' ∈ after → d' !! k = None) →
  merge_dicts (before ++ d :: after) !! k = Some v.
Proof.
  intros Hd. induction after as [|d' after IH] using rev_ind; intros Hafter.
  - rewrite merge_dicts_snoc. by apply lookup_union_Some_l.
  - rewrite app_comm_cons, app_assoc, merge_dicts_snoc.
    rewrite lookup_union_r.
    + apply IH. intros d'' Hin. apply Hafter, elem_of_app. by left.
    + apply Hafter, elem_of_app. right. by left.
Qed.

Lemma merge_dicts_last_wins_witness :
  merge_dicts ([{[ "a"%string := 1 ]}] ++ {[ "a"%string := 2 ]} :: [{[ "b"%string := 3 ]}])
    !! "a"%string = Some 2.
Proof.
  apply merge_dicts_last_wins.
  - done.
  - intros d' ->%list_elem_of_singleton. done.
Defined.

End DictUtils.

(* ===================================================================== *)
(** * vivarium/processes/timeline.py *)
(* ===================================================================== *)

Module Timeline.

(** Values held by state variables and set by timeline events. *)
Inductive value := VNum (q : Q) | VStr (s : string) | VBool (b : bool).

(** One entry of an update: a plain number (the [timestep] written under
    [global/time], which the schema accumulates) or the dict
    [{'_value': value, '_updater': 'set'}]. *)
Inductive entry := Delta (q : Q) | SetValue (v : value).

(** An event [(t, change_dict)] of the timeline; [change_dict] maps
    [(port, variable)] tuples to values and is traversed with [.items()]. *)
Definition event : Type := Q * list ((string * string) * value).

(** [if port not in update: update[port] = {}]
    [update[port][variable] = {'_value': value, '_updater': 'set'}] *)
Definition set_entry (port variable : string) (v : value)
    (update : gmap string (gmap string entry)) : gmap string (gmap string entry) :=
  <[port := <[variable := SetValue v]> (default ∅ (update !! port))]> update.

(** [for state, value in change_dict.items(): ...] *)
Definition apply_changes (change_dict : list ((string * string) * value))
    (update : gmap string (gmap string entry)) : gmap string (gmap string entry) :=
  foldl (λ u '((port, variable), v), set_entry port variable v u) update change_dict.

Definition inspect {A : Type} (a : A) : {b | a = b} := exist _ a eq_refl.

(** The loop [for (t, change_dict) in self.timeline: ...] of [next_update].
    A Python list iterator is an index [i] into the list object: it
    yields [timeline[i]] and advances while [i < len(timeline)], seeing
    every mutation of the list.  The body pops the head of that same list
    ([self.timeline.pop(0)]) when the event is due ([time >= t]).
    Returns the update and the timeline left in the instance. *)
Equations? timeline_loop (time : Q) (i : nat) (timeline : list event)
    (update : gmap string (gmap string entry))
    : gmap string (gmap string entry) * list event
    by wf (length timeline - i)%nat lt :=
timeline_loop time i timeline update with inspect (timeline !! i) => {
  | exist _ None _ := (update, timeline);
  | exist _ (Some (t, change_dict)) Hi with Qle_bool t time => {
    | true := timeline_loop time (S i) (tail timeline) (apply_changes change_dict update);
    | false := timeline_loop time (S i) timeline update } }.
Proof.
  all: apply lookup_lt_Some in Hi.
  - destruct timeline; simpl in *; lia.
  - lia.
Qed.

(** [states['global']['time']]; the schema declares it as a number. *)
Definition global_time (states : gmap string (gmap string value)) : option Q :=
  match states !! "global"%string ≫= (.!! "time"%string) with
  | Some (VNum time) => Some time
  | _ => None
  end.

(** [TimelineProcess.next_update(timestep, states)], as a function of the
    instance field [self.timeline] as well; it returns the update and the
    new value of [self.timeline].  [None]: reading the time failed. *)
Definition next_update (timeline : list event) (timestep : Q)
    (states : gmap string (gmap string value))
    : option (gmap string (gmap string entry) * list event) :=
  time ← global_time states;
  Some (timeline_loop time 0 timeline
          {[ "global"%string := {[ "time"%string := Delta timestep ]} ]}).

(** An event is due at [time]. *)
Definition due (time : Q) (e : event) : Prop := (fst e <= time)%Q.

(** ** The loop when nothing is due *)

Lemma timeline_loop_none_due time i timeline update :
  (∀ e, e ∈ timeline → ¬ due time e) →
  timeline_loop time i timeline update = (update, timeline).
Proof.
  funelim (timeline_loop time i timeline update); intros Hdue.
  - done.
  - exfalso. apply (Hdue (t, change_dict)).
    + by eapply list_elem_of_lookup_2.
    + unfold due; simpl. by apply Qle_bool_iff.
  - auto.
Qed.

(** ** The loop when only the first event is due *)

Lemma timeline_loop_head_due time t change_dict timeline update :
  (t <= time)%Q →
  (∀ e, e ∈ timeline → ¬ due time e) →
  timeline_loop time 0 ((t, change_dict) :: timeline) update
  = (apply_changes change_dict update, timeline).
Proof.
  intros Ht Hdue. apply Qle_bool_iff in Ht.
  rewrite timeline_loop_equation_1. simpl.
  rewrite Ht. simpl. by apply timeline_loop_none_due.
Qed.

(** [update[port][variable]] *)
Definition entry_of (update : gmap string (gmap string entry)) (port variable : string)
    : option entry :=
  update !! port ≫= (.!! variable).

Lemma set_entry_lookup port variable v update port' variable' :
  entry_of (set_entry port variable v update) port' variable'
  = if decide ((port, variable) = (port', variable')) then Some (SetValue v)
    else entry_of update port' variable'.
Proof.
  unfold entry_of, set_entry. case_decide as Heq.
  - injection Heq as <- <-. rewrite lookup_insert_eq. simpl. by rewrite lookup_insert_eq.
  - destruct (decide (port = port')) as [<-|Hp].
    + rewrite lookup_insert_eq. simpl.
      rewrite lookup_insert_ne by congruence.
      by destruct (update !! port).
    + by rewrite lookup_insert_ne.
Qed.

Lemma apply_changes_snoc change_dict port variable v update :
  apply_changes (change_dict ++ [((port, variable), v)]) update
  = set_entry port variable v (apply_changes change_dict update).
Proof. unfold apply_changes. by rewrite foldl_app. Qed.

(** Every pair of a change dict (whose keys are distinct, as those of a
    dict are) is set to its value, and the other entries are kept. *)
Lemma apply_changes_lookup change_dict update port variable :
  NoDup change_dict.*1 →
  entry_of (apply_changes change_dict update) port variable
  = match list_find (λ item, item.1 = (port, variable)) change_dict with
    | Some (_, (_, v)) => Some (SetValue v)
    | None => entry_of update port variable
    end.
Proof.
  induction change_dict as [|[[p x] v] change_dict IH] using rev_ind; [by intros _|].
  rewrite fmap_app, NoDup_app. intros (Hnodup & Hnotin & _).
  rewrite apply_changes_snoc, set_entry_lookup, IH by done.
  destruct (list_find _ change_dict) as [[i [[p' x'] v']]|] eqn:Hfind.
  - apply list_find_Some in Hfind as Hspec. destruct Hspec as (Hi & Hkey & _).
    simpl in Hkey. injection Hkey as -> ->.
    rewrite decide_False.
    + by erewrite list_find_app_l by exact Hfind.
    + intros [= -> ->]. apply (Hnotin (port, variable)).
      * apply list_elem_of_fmap. exists (port, variable, v').
        split; [done|]. by eapply list_elem_of_lookup_2.
      * simpl. by left.
  - rewrite list_find_app_r by done. simpl.
    by repeat (case_decide; simpl).
Qed.

Lemma change_dict_unique (change_dict : list ((string * string) * value)) key v v' :
  NoDup change_dict.*1 → (key, v) ∈ change_dict → (key, v') ∈ change_dict → v = v'.
Proof.
  intros Hnodup [i Hi]%list_elem_of_lookup_1 [j Hj]%list_elem_of_lookup_1.
  assert (i = j) as ->.
  { apply (NoDup_lookup _ _ _ key Hnodup); rewrite list_lookup_fmap.
    - by rewrite Hi.
    - by rewrite Hj. }
  congruence.
Qed.

(** The regular case of the timeline: the first remaining event is due and
    no later one is.  The update then adds [timestep] to [global/time]
    (unless the event itself writes that variable) and assigns every
    [(port, variable)] of the event its value with the [set] updater, and
    the event is removed from the instance. *)
Theorem next_update_emits_due_event timeline timestep states time t change_dict :
  global_time states = Some time →
  (t <= time)%Q →
  (∀ e, e ∈ timeline → ¬ due time e) →
  NoDup change_dict.*1 →
  ∃ update,
    next_update ((t, change_dict) :: timeline) timestep states = Some (update, timeline)
    ∧ (∀ port variable v, ((port, variable), v) ∈ change_dict →
         entry_of update port variable = Some (SetValue v))
    ∧ (("global"%string, "time"%string) ∉ change_dict.*1 →
         entry_of update "global" "time" = Some (Delta timestep)).
Proof.
  intros Htime Ht Hdue Hnodup. eexists. split.
  { unfold next_update. rewrite Htime. simpl.
    by rewrite timeline_loop_head_due. }
  split.
  - intros port variable v Hin. rewrite apply_changes_lookup by done.
    destruct (list_find_elem_of (λ item, item.1 = (port, variable)) change_dict
                (port, variable, v) Hin eq_refl) as [[i [key v']] Hfind].
    rewrite Hfind.
    apply list_find_Some in Hfind as (Hi & Hkey & _). simpl in Hkey. subst key.
    do 2 f_equal. eapply change_dict_unique; [done| |done].
    by eapply list_elem_of_lookup_2.
  - intros Hnot. rewrite apply_changes_lookup by done.
    destruct (list_find _ change_dict) as [[i [key v']]|] eqn:Hfind; [|done].
    exfalso. apply list_find_Some in Hfind as (Hi & Hkey & _). simpl in Hkey. subst key.
    apply Hnot, list_elem_of_fmap. exists ("global"%string, "time"%string, v').
    split; [done|]. by eapply list_elem_of_lookup_2.
Qed.

Lemma next_update_emits_due_event_witness :
  ∃ update,
    next_update [(0%Q, [(("neighbors", "PD1")%string, VNum 0)]);
                 (10%Q, [(("neighbors", "PD1")%string, VNum 1)])] 1
      {[ "global"%string := {[ "time"%string := VNum 0 ]} ]}
    = Some (update, [(10%Q, [(("neighbors", "PD1")%string, VNum 1)])])
    ∧ (∀ port variable v,
         ((port, variable), v) ∈ [(("neighbors", "PD1")%string, VNum 0)] →
         entry_of update port variable = Some (SetValue v))
    ∧ (("global"%string, "time"%string) ∉ [(("neighbors", "PD1")%string, VNum 0)].*1 →
         entry_of update "global" "time" = Some (Delta 1)).
Proof.
  apply (next_update_emits_due_event _ 1%Q _ 0%Q).
  - done.
  - done.
  - intros e He. apply list_elem_of_singleton in He as ->.
    unfold due; simpl. intros Hle. by vm_compute in Hle.
  - apply NoDup_singleton.
Defined.

(** ** Events that are due together *)

(** C4, evaluated on a timeline of three events that are all due at time
    0.  The first invocation emits the first and the third event and
    drops the first and the second from the instance; the second event is
    due but is not in the update, and it is never emitted.  The next
    invocation emits the third event once more. *)
Lemma timeline_due_events_skipped :
  let A : event := (0%Q, [(("a", "x")%string, VNum 1)]) in
  let B : event := (0%Q, [(("b", "y")%string, VNum 2)]) in
  let C : event := (0%Q, [(("c", "z")%string, VNum 3)]) in
  next_update [A; B; C] 1 {[ "global"%string := {[ "time"%string := VNum 0 ]} ]}
  = Some ({[ "global"%string := {[ "time"%string := Delta 1 ]};
             "a"%string := {[ "x"%string := SetValue (VNum 1) ]};
             "c"%string := {[ "z"%string := SetValue (VNum 3) ]} ]}, [C])
  ∧ next_update [C] 1 {[ "global"%string := {[ "time"%string := VNum 1 ]} ]}
  = Some ({[ "global"%string := {[ "time"%string := Delta 1 ]};
             "c"%string := {[ "z"%string := SetValue (VNum 3) ]} ]}, []).
Proof. cbv zeta. split; by vm_compute. Qed.

(** ** What an invocation can emit *)

(** An entry of the update after [apply_changes] was there before or is
    set by the change dict. *)
Lemma apply_changes_entry change_dict update port variable e :
  entry_of (apply_changes change_dict update) port variable = Some e →
  entry_of update port variable = Some e
  ∨ ∃ v, e = SetValue v ∧ ((port, variable), v) ∈ change_dict.
Proof.
  induction change_dict as [|[[p x] v] change_dict IH] using rev_ind; [by left|].
  rewrite apply_changes_snoc, set_entry_lookup. case_decide as Heq.
  - injection Heq as -> ->. intros [= <-]. right. exists v. split; [done|].
    apply elem_of_app. right. by left.
  - intros [Hu|(v' & -> & Hin)]%IH; [by left|right].
    exists v'. split; [done|]. apply elem_of_app. by left.
Qed.

(** No entry of the update is removed by [apply_changes]. *)
Lemma apply_changes_keeps change_dict update port variable :
  is_Some (entry_of update port variable) →
  is_Some (entry_of (apply_changes change_dict update) port variable).
Proof.
  induction change_dict as [|[[p x] v] change_dict IH] using rev_ind; [done|].
  intros Hu. rewrite apply_changes_snoc, set_entry_lookup.
  case_decide; [eauto|by apply IH].
Qed.

(** The loop only pops the head of the list and only writes what events
    that are due declare. *)
Lemma timeline_loop_emits time i timeline update :
  (∃ k, (timeline_loop time i timeline update).2 = drop k timeline)
  ∧ (∀ port variable,
       is_Some (entry_of update port variable) →
       is_Some (entry_of (timeline_loop time i timeline update).1 port variable))
  ∧ (∀ port variable e,
       entry_of (timeline_loop time i timeline update).1 port variable = Some e →
       entry_of update port variable = Some e
       ∨ ∃ v event, e = SetValue v ∧ event ∈ timeline ∧ due time event
                    ∧ ((port, variable), v) ∈ event.2).
Proof.
  funelim (timeline_loop time i timeline update).
  - split; [by exists 0%nat|]. split; [done|]. intros port variable ent. by left.
  - destruct H as ([k Hk] & Hkeeps & Hentries). split; [|split].
    + exists (S k). rewrite Hk. by destruct timeline.
    + intros port variable Hu. by apply Hkeeps, apply_changes_keeps.
    + intros port variable ent He.
      destruct (Hentries port variable ent He) as [Hu|(v & event & -> & Hin & Hdue & Hv)].
      * apply apply_changes_entry in Hu as [Hu|(v & -> & Hv)]; [by left|right].
        exists v, (t, change_dict). split; [done|]. split; [by eapply list_elem_of_lookup_2|].
        split; [|done]. unfold due; simpl. by apply Qle_bool_iff.
      * right. exists v, event. split; [done|]. split; [|done].
        destruct timeline; [done|]. by right.
  - done.
Qed.

(** Whatever the timeline holds, an invocation of [next_update] that reads
    the time only sets variables that an event of the timeline which is
    due declares, with the value that event declares; it always reports
    [global/time]; and the timeline it leaves in the instance is the old
    one without some of its first events. *)
Theorem next_update_emits_only_due_events timeline timestep states time update timeline' :
  global_time states = Some time →
  next_update timeline timestep states = Some (update, timeline') →
  (∃ k, timeline' = drop k timeline)
  ∧ is_Some (entry_of update "global" "time")
  ∧ ∀ port variable v,
      entry_of update port variable = Some (SetValue v) →
      ∃ event, event ∈ timeline ∧ due time event ∧ ((port, variable), v) ∈ event.2.
Proof.
  unfold next_update. intros ->. simpl. intros [= Hloop].
  destruct (timeline_loop_emits time 0 timeline
              {[ "global"%string := {[ "time"%string := Delta timestep ]} ]})
    as (Hdrop & Hkeeps & Hentries).
  rewrite Hloop in Hdrop, Hkeeps, Hentries. simpl in *.
  split; [done|]. split; [by apply Hkeeps|].
  intros port variable v He.
  destruct (Hentries port variable _ He) as [Hu|(v' & event & [= <-] & Hin & Hdue & Hv)].
  - exfalso. revert Hu. unfold entry_of.
    destruct (decide (port = "global"%string)) as [->|Hp].
    + rewrite lookup_singleton_eq. simpl.
      destruct (decide (variable = "time"%string)) as [->|Hx].
      * by rewrite lookup_singleton_eq.
      * by rewrite lookup_singleton_ne.
    + by rewrite lookup_singleton_ne.
  - by exists event.
Qed.

(** Three events due together: what the first invocation sets stems from
    the first and the third. *)
Lemma next_update_emits_only_due_events_witness :
  let timeline := [(0%Q, [(("a", "x")%string, VNum 1)]);
                   (0%Q, [(("b", "y")%string, VNum 2)]);
                   (0%Q, [(("c", "z")%string, VNum 3)])] in
  let update : gmap string (gmap string entry) :=
    {[ "global"%string := {[ "time"%string := Delta 1 ]};
       "a"%string := {[ "x"%string := SetValue (VNum 1) ]};
       "c"%string := {[ "z"%string := SetValue (VNum 3) ]} ]} in
  (∃ k, [(0%Q, [(("c", "z")%string, VNum 3)])] = drop k timeline)
  ∧ is_Some (entry_of update "global" "time")
  ∧ ∀ port variable v,
      entry_of update port variable = Some (SetValue v) →
      ∃ event, event ∈ timeline ∧ due 0 event ∧ ((port, variable), v) ∈ event.2.
Proof.
  cbv zeta.
  apply (next_update_emits_only_due_events _ 1%Q
           {[ "global"%string := {[ "time"%string := VNum 0 ]} ]}).
  - done.
  - by vm_compute.
Defined.

End Timeline.

(* ===================================================================== *)
(** * vivarium/processes/tumors.py *)
(* ===================================================================== *)

Module Tumor.
Import Num.

(** Python values that occur in the updates of the process. *)
#[warnings="-register-all"]
Inductive pyval :=
| PBool (b : bool)
| PNum (q : Q)
| PStr (s : string)
| PTuple (path : list string)
| PDict (d : gmap string pyval).

(** The source of [random.uniform(0, 1)]: the draws still to come. *)
Definition rng : Type := nat → Q.

Definition uniform (g : rng) : Q * rng := (g 0%nat, λ n, g (S n)).

(** [self.parameters], one field per key of [defaults]. *)
Record parameters := {
  diameter : Q;
  initial_PDL1n : Q;
  death_PDL1p : Q;
  death_PDL1n : Q;
  PDL1n_growth : Q;
  PDL1n_migration : Q;
  PDL1p_migration : Q;
  param_self_path : list string
}.

Definition defaults : parameters := {|
  diameter := 20;
  initial_PDL1n := 1;
  death_PDL1p := 2 # 100000;
  death_PDL1n := 2 # 100000;
  PDL1n_growth := 3 # 10;
  PDL1n_migration := 25 # 100;
  PDL1p_migration := 25 # 100;
  param_self_path := []
|}.

(** [initial_parameters]: a dict in which every key may be absent. *)
Record config := {
  cfg_diameter : option Q;
  cfg_initial_PDL1n : option Q;
  cfg_death_PDL1p : option Q;
  cfg_death_PDL1n : option Q;
  cfg_PDL1n_growth : option Q;
  cfg_PDL1n_migration : option Q;
  cfg_PDL1p_migration : option Q;
  cfg_self_path : option (list string)
}.

(** [parameters = copy.deepcopy(self.defaults);
     deep_merge(parameters, initial_parameters)] *)
Definition merge_parameters (c : config) : parameters := {|
  diameter := default (diameter defaults) (cfg_diameter c);
  initial_PDL1n := default (initial_PDL1n defaults) (cfg_initial_PDL1n c);
  death_PDL1p := default (death_PDL1p defaults) (cfg_death_PDL1p c);
  death_PDL1n := default (death_PDL1n defaults) (cfg_death_PDL1n c);
  PDL1n_growth := default (PDL1n_growth defaults) (cfg_PDL1n_growth c);
  PDL1n_migration := default (PDL1n_migration defaults) (cfg_PDL1n_migration c);
  PDL1p_migration := default (PDL1p_migration defaults) (cfg_PDL1p_migration c);
  param_self_path := default (param_self_path defaults) (cfg_self_path c)
|}.

(** The fields of a [TumorProcess] instance. *)
Record TumorProcess := {
  self_parameters : parameters;
  initial_state : string;
  self_path : list string
}.

Section Init.
(** [Process.or_default(initial_parameters, 'self_path')]: the method is
    inherited from [vivarium.core.process.Process], which is not part of
    the sources; it is a parameter of the constructor. *)
Variable or_default_self_path : config → list string.

(** [TumorProcess.__init__(initial_parameters)]; [None] stands for the
    empty dict. *)
Definition init (initial_parameters : option config) (g : rng) : TumorProcess * rng :=
  let initial_parameters :=
    default {| cfg_diameter := None; cfg_initial_PDL1n := None;
               cfg_death_PDL1p := None; cfg_death_PDL1n := None;
               cfg_PDL1n_growth := None; cfg_PDL1n_migration := None;
               cfg_PDL1p_migration := None; cfg_self_path := None |}
            initial_parameters in
  let parameters := merge_parameters initial_parameters in
  let '(u, g) := uniform g in
  ({| self_parameters := parameters;
      initial_state := if Qlt_bool u (initial_PDL1n defaults)
                       then "PDL1n"%string else "PDL1p"%string;
      self_path := or_default_self_path initial_parameters |}, g).
End Init.

(** The path of an instance is the configured one, as [or_default] reads it. *)
Lemma init_self_path or_default_self_path (initial_parameters : config) (g : rng) :
  self_path (init or_default_self_path (Some initial_parameters) g).1
  = or_default_self_path initial_parameters.
Proof. done. Qed.

(** [{'_delete': {'path': self.self_path}}] *)
Definition delete_update (self : TumorProcess) : gmap string pyval :=
  {[ "_delete"%string := PDict {[ "path"%string := PTuple (self_path self) ]} ]}.

(** The [# death] block: [Some update] when the block returns. *)
Definition death (self : TumorProcess) (timestep : Q) (cell_state : string) (g : rng)
    : option (gmap string pyval) * rng :=
  if String.eqb cell_state "PDL1n" then
    let '(u, g) := uniform g in
    if Qlt_bool u (death_PDL1n (self_parameters self) * timestep)
    then (Some (delete_update self), g) else (None, g)
  else if String.eqb cell_state "PDL1p" then
    let '(u, g) := uniform g in
    if Qlt_bool u (death_PDL1p (self_parameters self) * timestep)
    then (Some (delete_update self), g) else (None, g)
  else (None, g).

(** The [# division] block. *)
Definition division (self : TumorProcess) (timestep : Q) (cell_state : string) (g : rng)
    : option (gmap string pyval) * rng :=
  if String.eqb cell_state "PDL1n" then
    let '(u, g) := uniform g in
    if Qlt_bool u (PDL1n_growth (self_parameters self) * timestep)
    then (Some {[ "globals"%string := PDict {[ "divide"%string := PBool true ]} ]}, g)
    else (None, g)
  else (None, g).

(** [TumorProcess.next_update(timestep, states)] where [cell_state] is
    [states['internal']['cell_state']]; the random source is threaded. *)
Definition next_update (self : TumorProcess) (timestep : Q) (cell_state : string)
    (g : rng) : gmap string pyval * rng :=
  match death self timestep cell_state g with
  | (Some update, g) => (update, g)
  | (None, g) =>
    match division self timestep cell_state g with
    | (Some update, g) => (update, g)
    | (None, g) =>
      (* state transition: nothing implemented *)
      let new_cell_state := cell_state in
      (* behavior *)
      let MHCI := 0%Q in
      let PDL1 := 0%Q in
      ({[ "internal"%string := PDict {[ "cell_state"%string := PStr new_cell_state ]};
          "boundary"%string := PDict {[ "MHCI"%string := PNum MHCI;
                                        "PDL1"%string := PNum PDL1 ]} ]}, g)
    end
  end.

(** ** The delete directive *)

Lemma death_returns self timestep cell_state g update g' :
  death self timestep cell_state g = (Some update, g') → update = delete_update self.
Proof.
  unfold death. repeat case_match; intros [= <- <-]; done.
Qed.

Lemma division_no_delete self timestep cell_state g update g' :
  division self timestep cell_state g = (Some update, g') →
  update !! "_delete"%string = None.
Proof.
  unfold division. repeat case_match; intros [= <- <-]; done.
Qed.

(** C10.  Whenever [next_update] returns a delete directive, the update is
    exactly [{'_delete': {'path': self.self_path}}]: its only key is
    ['_delete'], so it writes to no port, and the path is the one the
    instance was constructed with. *)
Theorem delete_is_whole_update self timestep cell_state g :
  is_Some ((next_update self timestep cell_state g).1 !! "_delete"%string) →
  (next_update self timestep cell_state g).1
    = {[ "_delete"%string := PDict {[ "path"%string := PTuple (self_path self) ]} ]}
  ∧ ∀ port, port ≠ "_delete"%string →
      (next_update self timestep cell_state g).1 !! port = None.
Proof.
  unfold next_update.
  destruct (death self timestep cell_state g) as [[update|] g1] eqn:Hdeath; simpl.
  - apply death_returns in Hdeath as ->. intros _. split; [done|].
    intros port Hport. unfold delete_update. by rewrite lookup_singleton_ne.
  - destruct (division self timestep cell_state g1) as [[update|] g2] eqn:Hdiv; simpl.
    + apply division_no_delete in Hdiv as ->. by intros [? [=]].
    + intros [? Hdel]. exfalso. revert Hdel.
      by rewrite lookup_insert_ne, lookup_singleton_ne by done.
Qed.

(** A dying cell: the first draw is below [death_PDL1n * timestep]. *)
Lemma delete_is_whole_update_witness :
  let self := {| self_parameters := defaults; initial_state := "PDL1n";
                 self_path := ["agents"%string; "1"%string] |} in
  (next_update self 1 "PDL1n" (λ _, 0%Q)).1
    = {[ "_delete"%string := PDict {[ "path"%string := PTuple ["agents"%string; "1"%string] ]} ]}
  ∧ ∀ port, port ≠ "_delete"%string →
      (next_update self 1 "PDL1n" (λ _, 0%Q)).1 !! port = None.
Proof.
  cbv zeta.
  apply (delete_is_whole_update
           {| self_parameters := defaults; initial_state := "PDL1n";
              self_path := ["agents"%string; "1"%string] |} 1 "PDL1n" (λ _, 0%Q)).
  vm_compute. eauto.
Defined.

(** ** The ports of the process *)

(** The schema of a variable: the keys ['_default'], ['_emit'] and
    ['_updater'], each of which may be absent. *)
Record schema := {
  _default : option pyval;
  _emit : option bool;
  _updater : option string
}.

(** [TumorProcess.ports_schema()] *)
Definition ports_schema (self : TumorProcess) : gmap string (gmap string schema) :=
  {[ "globals"%string :=
       {[ "divide"%string :=
            {| _default := Some (PBool false); _emit := None;
               _updater := Some "set"%string |} ]};
     "internal"%string :=
       {[ "cell_state"%string :=
            {| _default := Some (PStr (initial_state self)); _emit := Some true;
               _updater := Some "set"%string |} ]};
     "boundary"%string :=
       {[ "diameter"%string :=
            {| _default := Some (PNum (diameter (self_parameters self)));
               _emit := None; _updater := None |};
          "PDL1"%string :=
            {| _default := Some (PNum 0); _emit := Some true;
               _updater := Some "accumulate"%string |};
          "MHCI"%string :=
            {| _default := Some (PNum 0); _emit := Some true;
               _updater := Some "set"%string |} ]};
     "neighbors"%string :=
       {[ "PD1"%string :=
            {| _default := Some (PNum 0); _emit := Some true; _updater := None |} ]} ]}.

(** The three updates of [next_update]. *)
Definition divide_update : gmap string pyval :=
  {[ "globals"%string := PDict {[ "divide"%string := PBool true ]} ]}.

Definition behavior_update (cell_state : string) : gmap string pyval :=
  {[ "internal"%string := PDict {[ "cell_state"%string := PStr cell_state ]};
     "boundary"%string := PDict {[ "MHCI"%string := PNum 0; "PDL1"%string := PNum 0 ]} ]}.

(** The random source after [n] draws. *)
Definition after (n : nat) (g : rng) : rng := λ k, g (n + k)%nat.

(** ** The ways through [next_update] *)

(** The update is one of three, and the draws decide which: a cell in
    state PDL1n draws once and dies, or draws twice and divides or not; a
    cell in state PDL1p draws once and dies or not; a cell in another
    state draws nothing. *)
Lemma next_update_cases self timestep cell_state g :
  let rate_n := (death_PDL1n (self_parameters self) * timestep)%Q in
  let rate_p := (death_PDL1p (self_parameters self) * timestep)%Q in
  let growth := (PDL1n_growth (self_parameters self) * timestep)%Q in
  (cell_state = "PDL1n"%string ∧ (g 0%nat < rate_n)%Q
   ∧ next_update self timestep cell_state g = (delete_update self, after 1 g))
  ∨ (cell_state = "PDL1n"%string ∧ (rate_n <= g 0%nat)%Q ∧ (g 1%nat < growth)%Q
     ∧ next_update self timestep cell_state g = (divide_update, after 2 g))
  ∨ (cell_state = "PDL1n"%string ∧ (rate_n <= g 0%nat)%Q ∧ (growth <= g 1%nat)%Q
     ∧ next_update self timestep cell_state g = (behavior_update cell_state, after 2 g))
  ∨ (cell_state = "PDL1p"%string ∧ (g 0%nat < rate_p)%Q
     ∧ next_update self timestep cell_state g = (delete_update self, after 1 g))
  ∨ (cell_state = "PDL1p"%string ∧ (rate_p <= g 0%nat)%Q
     ∧ next_update self timestep cell_state g = (behavior_update cell_state, after 1 g))
  ∨ (cell_state ≠ "PDL1n"%string ∧ cell_state ≠ "PDL1p"%string
     ∧ next_update self timestep cell_state g = (behavior_update cell_state, g)).
Proof.
  cbv zeta. unfold next_update, death, division, uniform.
  destruct (String.eqb cell_state "PDL1n") eqn:Hn.
  - apply String.eqb_eq in Hn as ->.
    destruct (Qlt_bool (g 0%nat) _) eqn:Hdeath.
    + left. by apply Qlt_bool_iff in Hdeath.
    + apply Qlt_bool_false in Hdeath. right.
      change (String.eqb "PDL1n" "PDL1n") with true. cbv beta iota.
      destruct (Qlt_bool (g 1%nat) _) eqn:Hgrowth.
      * left. by apply Qlt_bool_iff in Hgrowth.
      * apply Qlt_bool_false in Hgrowth. right. by left.
  - apply String.eqb_neq in Hn.
    destruct (String.eqb cell_state "PDL1p") eqn:Hp.
    + apply String.eqb_eq in Hp as ->. do 3 right.
      destruct (Qlt_bool (g 0%nat) _) eqn:Hdeath.
      * left. by apply Qlt_bool_iff in Hdeath.
      * apply Qlt_bool_false in Hdeath. right. by left.
    + apply String.eqb_neq in Hp. do 5 right. done.
Qed.

(** What [next_update] never does: only a cell in state PDL1n divides;
    only a cell in state PDL1n or PDL1p dies; the cell state it reports
    is the one it was given; it draws at most two random numbers, and a
    cell in another state than PDL1n or PDL1p gets the behavior update
    without any draw. *)
Theorem next_update_never self timestep cell_state g :
  let update := (next_update self timestep cell_state g).1 in
  let g' := (next_update self timestep cell_state g).2 in
  (is_Some (update !! "globals"%string) → cell_state = "PDL1n"%string)
  ∧ (is_Some (update !! "_delete"%string) →
     cell_state = "PDL1n"%string ∨ cell_state = "PDL1p"%string)
  ∧ (∀ d, update !! "internal"%string = Some (PDict d) →
       d = {[ "cell_state"%string := PStr cell_state ]})
  ∧ (∃ n, (n ≤ 2)%nat ∧ g' = after n g)
  ∧ (cell_state ≠ "PDL1n"%string → cell_state ≠ "PDL1p"%string →
     update = behavior_update cell_state ∧ g' = g).
Proof.
  cbv zeta.
  destruct (next_update_cases self timestep cell_state g)
    as [(Hs & _ & ->)|[(Hs & _ & _ & ->)|[(Hs & _ & _ & ->)|[(Hs & _ & ->)
        |[(Hs & _ & ->)|(Hn & Hp & ->)]]]]]; simpl.
  - split; [by intros [? [=]]|]. split; [by left|]. split; [done|].
    split; [exists 1%nat; split; [lia|done]|]. done.
  - split; [done|]. split; [by left|]. split; [done|].
    split; [exists 2%nat; split; [lia|done]|]. done.
  - split; [done|]. split; [by left|].
    split; [intros d; unfold behavior_update;
            rewrite lookup_insert_eq; by intros [= <-]|].
    split; [exists 2%nat; split; [lia|done]|]. done.
  - split; [by intros [? [=]]|]. split; [by right|]. split; [done|].
    split; [exists 1%nat; split; [lia|done]|]. done.
  - split; [by intros [? [=]]|]. split; [by right|].
    split; [intros d; unfold behavior_update;
            rewrite lookup_insert_eq; by intros [= <-]|].
    split; [exists 1%nat; split; [lia|done]|]. done.
  - split; [by intros [? [=]]|]. split; [by intros [? [=]]|].
    split; [intros d; unfold behavior_update;
            rewrite lookup_insert_eq; by intros [= <-]|].
    split; [exists 0%nat; split; [lia|done]|]. done.
Qed.

(** Every variable that an update of [next_update] writes, the delete
    directive apart, is declared by [ports_schema] under the port it is
    written to. *)
Theorem next_update_within_schema self timestep cell_state g port value :
  (next_update self timestep cell_state g).1 !! port = Some value →
  port ≠ "_delete"%string →
  ∃ d, value = PDict d
       ∧ ∀ variable, is_Some (d !! variable) →
           is_Some (ports_schema self !! port ≫= (.!! variable)).
Proof.
  assert (Hdivide : ∀ value, divide_update !! port = Some value →
            ∃ d, value = PDict d
                 ∧ ∀ variable, is_Some (d !! variable) →
                     is_Some (ports_schema self !! port ≫= (.!! variable))).
  { unfold divide_update. intros v [<- <-]%lookup_singleton_Some.
    eexists; split; [done|].
    intros variable [w [<- _]%lookup_singleton_Some]. vm_compute. eauto. }
  assert (Hbehavior : ∀ value, behavior_update cell_state !! port = Some value →
            ∃ d, value = PDict d
                 ∧ ∀ variable, is_Some (d !! variable) →
                     is_Some (ports_schema self !! port ≫= (.!! variable))).
  { unfold behavior_update. intros v.
    intros [[<- <-]|[_ [<- <-]%lookup_singleton_Some]]%lookup_insert_Some.
    - eexists; split; [done|].
      intros variable [w [<- _]%lookup_singleton_Some]. vm_compute. eauto.
    - eexists; split; [done|].
      intros variable [w [[<- _]|[_ [<- _]%lookup_singleton_Some]]%lookup_insert_Some];
        vm_compute; eauto. }
  destruct (next_update_cases self timestep cell_state g)
    as [(_ & _ & ->)|[(_ & _ & _ & ->)|[(_ & _ & _ & ->)|[(_ & _ & ->)
        |[(_ & _ & ->)|(_ & _ & ->)]]]]]; simpl; auto.
  - unfold delete_update. by intros [<- _]%lookup_singleton_Some.
  - unfold delete_update. by intros [<- _]%lookup_singleton_Some.
Qed.

Lemma next_update_within_schema_witness :
  let self := {| self_parameters := defaults; initial_state := "PDL1n";
                 self_path := ["agents"%string; "1"%string] |} in
  ∃ d, PDict {[ "divide"%string := PBool true ]} = PDict d
       ∧ ∀ variable, is_Some (d !! variable) →
           is_Some (ports_schema self !! "globals"%string ≫= (.!! variable)).
Proof.
  cbv zeta.
  apply (next_update_within_schema
           {| self_parameters := defaults; initial_state := "PDL1n";
              self_path := ["agents"%string; "1"%string] |}
           1 "PDL1n" (λ n, match n with O => 1%Q | S _ => 0%Q end) "globals").
  - by vm_compute.
  - done.
Defined.

(** The probabilities at their edge: the draws of [random.uniform(0, 1)]
    are not negative, so with rates that are not negative and a time step
    of zero (or less) no cell dies or divides. *)
Theorem next_update_zero_timestep self timestep cell_state g :
  (∀ n, 0 <= g n)%Q →
  (0 <= death_PDL1n (self_parameters self))%Q →
  (0 <= death_PDL1p (self_parameters self))%Q →
  (0 <= PDL1n_growth (self_parameters self))%Q →
  (timestep <= 0)%Q →
  (next_update self timestep cell_state g).1 = behavior_update cell_state.
Proof.
  intros Hg Hn Hp Hgrowth Ht.
  assert (Hrate : ∀ rate, (0 <= rate)%Q → (rate * timestep <= 0)%Q).
  { intros rate Hrate.
    assert (H0 : (0 <= rate * - timestep)%Q) by (apply Qmult_le_0_compat; lra).
    assert (Heq : (rate * - timestep == - (rate * timestep))%Q) by ring.
    rewrite Heq in H0. lra. }
  pose proof (Hg 0%nat). pose proof (Hg 1%nat).
  pose proof (Hrate _ Hn). pose proof (Hrate _ Hp). pose proof (Hrate _ Hgrowth).
  destruct (next_update_cases self timestep cell_state g)
    as [(_ & Hlt & _)|[(_ & _ & Hlt & _)|[(_ & _ & _ & ->)|[(_ & Hlt & _)
        |[(_ & _ & ->)|(_ & _ & ->)]]]]]; try done; exfalso; lra.
Qed.

Lemma next_update_zero_timestep_witness :
  (next_update {| self_parameters := defaults; initial_state := "PDL1n";
                  self_path := [] |} 0 "PDL1n" (λ _, 0%Q)).1
  = behavior_update "PDL1n".
Proof.
  apply next_update_zero_timestep.
  - intros _. done.
  - done.
  - done.
  - done.
  - done.
Defined.

End Tumor.

(* ===================================================================== *)
(** * What [next_update] depends on *)
(* ===================================================================== *)

Module Purity.
Import Timeline.

(** A pair of invocations of [TimelineProcess.next_update] on one
    instance with the same [timestep] and the same [states]: the second
    invocation finds the timeline the first one left.  Returns the two
    updates. *)
Definition two_invocations (timeline : list event) (timestep : Q)
    (states : gmap string (gmap string value))
    : option (gmap string (gmap string entry) * gmap string (gmap string entry)) :=
  first ← next_update timeline timestep states;
  second ← next_update first.2 timestep states;
  Some (first.1, second.1).

(** One event, due at time 0: the first invocation emits it and removes it
    from the instance, the second one, with equal inputs, does not emit
    it. *)
Lemma timeline_next_update_depends_on_instance :
  let timeline : list event := [(0%Q, [(("neighbors", "PD1")%string, VNum 1)])] in
  let states : gmap string (gmap string value) :=
    {[ "global"%string := {[ "time"%string := VNum 0 ]} ]} in
  ∃ first second,
    two_invocations timeline 1 states = Some (first, second)
    ∧ first !! "neighbors"%string = Some {[ "PD1"%string := SetValue (VNum 1) ]}
    ∧ second !! "neighbors"%string = None
    ∧ first ≠ second.
Proof.
  cbv zeta. eexists _, _. split; [by vm_compute|].
  split; [by vm_compute|]. split; [by vm_compute|].
  intros Heq. apply (f_equal (.!! "neighbors"%string)) in Heq.
  vm_compute in Heq. discriminate.
Qed.

(** C3 (as amended).  [next_update] is a function of [timestep], the
    input states, the instance's own mutable fields and the random draws
    it consumes:
    - for [TimelineProcess], a pair of invocations with equal timestep and
      equal states returns equal updates (the time increment alone, the
      instance's timeline being left as it was) whenever no event of the
      remaining timeline is due at the observed time;
    - for [TumorProcess], two invocations with equal timestep and equal
      states return equal updates whenever their random sources deliver
      the same first two draws. *)
Theorem next_update_determined :
  (∀ timeline timestep states time,
      global_time states = Some time →
      (∀ e, e ∈ timeline → ¬ due time e) →
      next_update timeline timestep states
        = Some ({[ "global"%string := {[ "time"%string := Delta timestep ]} ]}, timeline)
      ∧ two_invocations timeline timestep states
        = Some ({[ "global"%string := {[ "time"%string := Delta timestep ]} ]},
                {[ "global"%string := {[ "time"%string := Delta timestep ]} ]}))
  ∧ (∀ self timestep cell_state (g g' : Tumor.rng),
      g 0%nat = g' 0%nat → g 1%nat = g' 1%nat →
      (Tumor.next_update self timestep cell_state g).1
      = (Tumor.next_update self timestep cell_state g').1).
Proof.
  split.
  - intros timeline timestep states time Htime Hdue.
    assert (Hnext : next_update timeline timestep states
        = Some ({[ "global"%string := {[ "time"%string := Delta timestep ]} ]}, timeline)).
    { unfold next_update. rewrite Htime; simpl.
      by rewrite timeline_loop_none_due. }
    split; [done|]. unfold two_invocations. rewrite Hnext; simpl. by rewrite Hnext.
  - intros self timestep cell_state g g' H0 H1.
    unfold Tumor.next_update, Tumor.death, Tumor.division, Tumor.uniform.
    cbv beta iota zeta. rewrite <- H0.
    destruct (String.eqb cell_state "PDL1n").
    + destruct (Num.Qlt_bool _ _); cbv beta iota; [done|].
      rewrite <- H1. by destruct (Num.Qlt_bool _ _).
    + destruct (String.eqb cell_state "PDL1p"); [|done].
      by destruct (Num.Qlt_bool _ _).
Qed.

Lemma next_update_determined_witness :
  let timeline : list event := [(10%Q, [(("neighbors", "PD1")%string, VNum 1)])] in
  let states : gmap string (gmap string value) :=
    {[ "global"%string := {[ "time"%string := VNum 3 ]} ]} in
  two_invocations timeline 1 states
  = Some ({[ "global"%string := {[ "time"%string := Delta 1 ]} ]},
          {[ "global"%string := {[ "time"%string := Delta 1 ]} ]})
  ∧ (Tumor.next_update
       {| Tumor.self_parameters := Tumor.defaults; Tumor.initial_state := "PDL1n";
          Tumor.self_path := [] |} 1 "PDL1n" (λ n, if n is O then 1%Q else 0%Q)).1
    = (Tumor.next_update
       {| Tumor.self_parameters := Tumor.defaults; Tumor.initial_state := "PDL1n";
          Tumor.self_path := [] |} 1 "PDL1n" (λ n, if n is O then 1%Q else if n is 1%nat then 0%Q else 1%Q)).1.
Proof.
  cbv zeta. destruct next_update_determined as [Htimeline Htumor]. split.
  - refine (proj2 (Htimeline _ 1%Q _ 3%Q _ _)); [done|].
    intros e He. apply list_elem_of_singleton in He as ->.
    unfold due; simpl. intros Hle. by vm_compute in Hle.
  - by apply Htumor.
Defined.

End Purity.

(* ===================================================================== *)
(** * The [split] divider declared by the deriver's schema *)
(* ===================================================================== *)

Module Divider.

(** The divider tags of the specification (section 4.4). *)
Inductive divider := DSplit | DSet | DZero | DAssertNoDivide.

(** Modelled from the spec: the divider registry lives in vivarium.core,
    which is not part of the sources; the sources only tag variables with
    ['_divider': 'split'].  The specification says of [split]: "value
    divided, conserving total (e.g., integer counts apportioned via
    floor/remainder so the two halves sum exactly to the original --
    remainder assigned to a deterministic side)", and that 7 divides into
    4 and 3: the first daughter receives the floor half and the
    remainder, the second the floor half. *)
Definition divide_split (v : Z) : Z * Z := (v / 2 + v mod 2, v / 2).

(** Modelled from the spec: [set] hands the parent's value to both
    daughters, [zero] starts both from the declared zero, and
    [assert_no_divide] makes a division an error ([None]). *)
Definition divide (d : divider) (zero v : Z) : option (Z * Z) :=
  match d with
  | DSplit => Some (divide_split v)
  | DSet => Some (v, v)
  | DZero => Some (zero, zero)
  | DAssertNoDivide => None
  end.

(** [DeriveConcentrations.ports_schema]: the divider declared for a
    variable of the ['counts'] port ([split]) and of the
    ['concentrations'] port ([set]); [None] for the ports that declare
    none. *)
Definition ports_schema_divider (port : string) : option divider :=
  if String.eqb port "counts" then Some DSplit
  else if String.eqb port "concentrations" then Some DSet
  else None.

(** C6.  A variable of the ['counts'] port is declared with the [split]
    divider, and dividing a non-negative integer [v] with it yields two
    daughters that sum to [v] exactly, both non-negative, the first one
    holding the remainder (so they differ by at most one, the first
    being the larger); 7 divides into 4 and 3. *)
Theorem split_conserves_total (zero v : Z) :
  0 ≤ v →
  ports_schema_divider "counts" = Some DSplit
  ∧ ∃ a b, divide DSplit zero v = Some (a, b)
      ∧ a + b = v ∧ 0 ≤ b ∧ b ≤ a ∧ a = b + v mod 2
  ∧ divide DSplit zero 7 = Some (4, 3).
Proof.
  intros Hv. split; [done|].
  exists (v / 2 + v mod 2), (v / 2). split; [done|].
  pose proof (Z.div_mod v 2 ltac:(lia)).
  pose proof (Z.mod_pos_bound v 2 ltac:(lia)).
  assert (0 ≤ v / 2) by (apply Z.div_pos; lia).
  repeat split; try lia. 
Qed.

Lemma split_conserves_total_witness :
  ports_schema_divider "counts" = Some DSplit
  ∧ ∃ a b, divide DSplit 0 7 = Some (a, b)
      ∧ a + b = 7 ∧ 0 ≤ b ∧ b ≤ a ∧ a = b + 7 mod 2
  ∧ divide DSplit 0 7 = Some (4, 3).
Proof. apply (split_conserves_total 0 7). lia. Defined.

End Divider.

(* ===================================================================== *)
(** * vivarium/processes/derive_concentrations.py *)
(* ===================================================================== *)

Module DeriveConcentrations.

Inductive error :=
| AssertionError (message : string)
| ZeroDivisionError.

(** [count / mmol_to_counts] *)
Definition divide (count mmol_to_counts : Q) : error + Q :=
  if Qeq_bool mmol_to_counts 0 then inl ZeroDivisionError
  else inr (count / mmol_to_counts)%Q.

(** [for molecule, count in counts.items():
       concentrations[molecule] = count / mmol_to_counts] *)
Fixpoint derive (mmol_to_counts : Q) (counts : list (string * Q))
    : error + list (string * Q) :=
  match counts with
  | [] => inr []
  | (molecule, count) :: counts =>
    match divide count mmol_to_counts with
    | inl e => inl e
    | inr concentration =>
      match derive mmol_to_counts counts with
      | inl e => inl e
      | inr concentrations => inr ((molecule, concentration) :: concentrations)
      end
    end
  end.

(** [for molecule, concentration in concentrations.items():
       assert concentration >= 0, 'derived {} concentration < 0'.format(molecule)] *)
Fixpoint check (concentrations : list (string * Q)) : option error :=
  match concentrations with
  | [] => None
  | (molecule, concentration) :: concentrations =>
    if Qle_bool 0 concentration then check concentrations
    else Some (AssertionError ("derived " +:+ molecule +:+ " concentration < 0"))
  end.

(** [DeriveConcentrations.next_update(timestep, states)] with
    [mmol_to_counts = states['global']['mmol_to_counts']] and
    [counts = states['counts']] (its items in order); the result is the
    dict under ['concentrations'] of the returned update. *)
Definition next_update (timestep : Q) (mmol_to_counts : Q) (counts : list (string * Q))
    : error + list (string * Q) :=
  match derive mmol_to_counts counts with
  | inl e => inl e
  | inr concentrations =>
    match check concentrations with
    | Some e => inl e
    | None => inr concentrations
    end
  end.




(** ** The outcome of [next_update] *)

Lemma derive_nonzero mmol_to_counts counts :
  ¬ (mmol_to_counts == 0)%Q →
  derive mmol_to_counts counts
  = inr ((λ item, (item.1, (item.2 / mmol_to_counts)%Q)) <$> counts).
Proof.
  intros Hne. induction counts as [|[m c] counts IH]; [done|].
  simpl. unfold divide. destruct (Qeq_bool mmol_to_counts 0) eqn:Hz.
  - by apply Qeq_bool_iff in Hz.
  - by rewrite IH.
Qed.

Lemma derive_zero mmol_to_counts counts :
  (mmol_to_counts == 0)%Q → counts ≠ [] →
  derive mmol_to_counts counts = inl ZeroDivisionError.
Proof.
  intros Hz Hcounts. destruct counts as [|[m c] counts]; [done|].
  simpl. unfold divide. apply Qeq_bool_iff in Hz. by rewrite Hz.
Qed.

Lemma check_app concentrations1 concentrations2 :
  check (concentrations1 ++ concentrations2)
  = match check concentrations1 with
    | Some e => Some e
    | None => check concentrations2
    end.
Proof.
  induction concentrations1 as [|[m c] concentrations1 IH]; [done|].
  simpl. by destruct (Qle_bool 0 c).
Qed.

Lemma check_nonnegative concentrations :
  (∀ molecule concentration,
     (molecule, concentration) ∈ concentrations → (0 <= concentration)%Q) →
  check concentrations = None.
Proof.
  induction concentrations as [|[m c] concentrations IH]; [done|].
  intros Hall. simpl.
  assert (Hc : Qle_bool 0 c = true) by (apply Qle_bool_iff, (Hall m); left).
  rewrite Hc. apply IH. intros m' c' Hin. apply (Hall m'). by right.
Qed.

(** The four outcomes of [next_update].  Without counts it returns the
    empty dict, whatever [mmol_to_counts] is.  With counts and
    [mmol_to_counts = 0] the first division raises.  Otherwise the
    quotients are derived for all molecules, in the order of [counts];
    they are returned when none is negative, and the assertion fails for
    the first negative one, its message naming that molecule. *)
Theorem next_update_outcome timestep mmol_to_counts counts :
  let quotient (item : string * Q) := (item.1, (item.2 / mmol_to_counts)%Q) in
  next_update timestep mmol_to_counts [] = inr []
  ∧ ((mmol_to_counts == 0)%Q → counts ≠ [] →
     next_update timestep mmol_to_counts counts = inl ZeroDivisionError)
  ∧ (¬ (mmol_to_counts == 0)%Q →
     (∀ molecule count, (molecule, count) ∈ counts → (0 <= count / mmol_to_counts)%Q) →
     next_update timestep mmol_to_counts counts = inr (quotient <$> counts))
  ∧ (¬ (mmol_to_counts == 0)%Q →
     ∀ before molecule count after,
       counts = before ++ (molecule, count) :: after →
       (∀ molecule' count', (molecule', count') ∈ before →
          (0 <= count' / mmol_to_counts)%Q) →
       (count / mmol_to_counts < 0)%Q →
       next_update timestep mmol_to_counts counts
       = inl (AssertionError ("derived " +:+ molecule +:+ " concentration < 0"))).
Proof.
  cbv zeta. split; [done|]. split; [|split].
  - intros Hz Hcounts. unfold next_update. by rewrite derive_zero.
  - intros Hne Hall. unfold next_update. rewrite derive_nonzero by done.
    rewrite check_nonnegative; [done|].
    intros m c ([m' c'] & [= -> ->] & Hin)%list_elem_of_fmap. by apply (Hall m').
  - intros Hne before molecule count after -> Hbefore Hneg.
    unfold next_update. rewrite derive_nonzero by done.
    rewrite fmap_app, check_app, check_nonnegative.
    + simpl. destruct (Qle_bool 0 (count / mmol_to_counts)) eqn:Hle; [|done].
      apply Qle_bool_iff in Hle. exfalso. lra.
    + intros m c ([m' c'] & [= -> ->] & Hin)%list_elem_of_fmap. by apply (Hbefore m').
Qed.

Lemma next_update_outcome_witness :
  next_update 1 0 [("GLC"%string, 1%Q)] = inl ZeroDivisionError
  ∧ next_update 1 2 [("GLC"%string, 1%Q); ("LAC"%string, 3%Q)]
    = inr [("GLC"%string, (1 / 2)%Q); ("LAC"%string, (3 / 2)%Q)]
  ∧ next_update 1 2 [("GLC"%string, 1%Q); ("LAC"%string, (-3)%Q); ("ACE"%string, (-1)%Q)]
    = inl (AssertionError "derived LAC concentration < 0").
Proof.
  split; [|split].
  - apply (next_update_outcome 1 0 [("GLC"%string, 1%Q)]); done.
  - apply (next_update_outcome 1 2 [("GLC"%string, 1%Q); ("LAC"%string, 3%Q)]).
    + by vm_compute.
    + intros molecule count Hin. apply list_elem_of_In in Hin. simpl in Hin.
      destruct Hin as [[= <- <-]|[[= <- <-]|[]]]; by vm_compute.
  - destruct (next_update_outcome 1 2
                [("GLC"%string, 1%Q); ("LAC"%string, (-3)%Q); ("ACE"%string, (-1)%Q)])
      as (_ & _ & _ & Hraise).
    apply (Hraise ltac:(intros H; vm_compute in H; discriminate H)
             [("GLC"%string, 1%Q)] "LAC"%string (-3)%Q [("ACE"%string, (-1)%Q)]).
    + reflexivity.
    + intros molecule count [= -> ->]%list_elem_of_singleton. by vm_compute.
    + reflexivity.
Defined.

End DeriveConcentrations.

(* ===================================================================== *)
(** * environment/lattice.py *)
(* ===================================================================== *)

Module Lattice.
Import Num Results Loop.

Inductive error :=
| IndexError
| KeyError (key : string).

(** An entry of [self.simulations]:
    [{'time': .., 'state': {'volume': .., 'motile_force': ..,
      'environment_change': {molecule: count}}}]. *)
Record simulation := {
  sim_time : Q;
  sim_volume : Q;
  sim_motile_force : option (Q * Q);
  sim_environment_change : list (string * Q)
}.

(** [self.lattice[self.lattice < 0.0] = 0.0] *)
Definition clamp_value (x : Q) : Q := if Qlt_bool x 0 then 0%Q else x.

Definition clamp (lattice : list (list (list Q))) : list (list (list Q)) :=
  map (map (map clamp_value)) lattice.

(** [len(set(molecule.flatten())) != 1]: the field is not uniform. *)
Definition not_uniform (molecule : list (list Q)) : bool :=
  match concat molecule with
  | [] => true
  | x :: rest => negb (forallb (Qeq_bool x) rest)
  end.

(** An index into an axis of length [n]; a negative index counts from the
    end, anything else out of range is an [IndexError]. *)
Definition np_index (n : nat) (i : Z) : option nat :=
  if (0 <=? i) && (i <? Z.of_nat n) then Some (Z.to_nat i)
  else if (- Z.of_nat n <=? i) && (i <? 0) then Some (Z.to_nat (Z.of_nat n + i))
  else None.

(** [lattice[index, x, y] += concentration] *)
Definition add_at_patch (index : nat) (x y : Z) (concentration : Q)
    (lattice : list (list (list Q))) : error + list (list (list Q)) :=
  molecule ← or_raise IndexError (lattice !! index);
  i ← or_raise IndexError (np_index (length molecule) x);
  row ← or_raise IndexError (molecule !! i);
  j ← or_raise IndexError (np_index (length row) y);
  value ← or_raise IndexError (row !! j);
  inr (<[index := <[i := <[j := (value + concentration)%Q]> row]> molecule]> lattice).

(** [self.molecule_index[molecule]], the dict built by
    [{molecule: index for index, molecule in enumerate(self._molecule_ids)}]. *)
Fixpoint molecule_index (molecule_ids : list string) (molecule : string) : option nat :=
  match molecule_ids with
  | [] => None
  | m :: molecule_ids =>
    match molecule_index molecule_ids molecule with
    | Some index => Some (S index)
    | None => if String.eqb m molecule then Some 0%nat else None
    end
  end.

(** The two statements that end the loop of [update_locations], on one
    coordinate of the centre reported by the physics engine:
    [c[c > self.edge_length] = self.edge_length - self.dx / 2] and then
    [c[c < 0] = 0.0].  The centre is a numpy array, as the arithmetic of
    [apply_inner_update] on it requires, so that its slice [[0:2]] is a
    view and both statements write into the stored location. *)
Definition enforce_boundary (edge_length dx x : Q) : Q :=
  let x := if Qlt_bool edge_length x then (edge_length - dx / 2)%Q else x in
  if Qlt_bool x 0 then 0%Q else x.

Section Environment.
(** The state of the multi-body physics engine [utils.physics.MultiCellPhysics],
    together with [self.corner_locations] which it fills. *)
Variable Physics : Type.
(** [scipy.constants.N_A]. *)
Variable N_AVOGADRO : Q.
(** [Media().make_recipe(media_id)], from [environment.condition.make_media]. *)
Variable make_recipe : string → gmap string Q.
(** [scipy.ndimage.convolve(lattice, LAPLACIAN_2D, mode='reflect')]. *)
Variable convolve_laplacian : list (list Q) → list (list Q).

(** The fields of an [EnvironmentSpatialLattice]. *)
Record EnvironmentSpatialLattice := {
  _time : Q;
  _timestep : Q;
  run_for : Q;
  edge_length : Q;
  patches_per_edge : nat;
  static_concentrations : bool;
  diffusion : Q;
  timeline : option (list (Q * string));
  media_id : string;
  patch_volume : Q;
  dx2 : Q;
  _molecule_ids : list string;
  lattice : list (list (list Q));
  simulations : gmap string simulation;
  locations : gmap string (Q * Q * Q);
  motile_forces : gmap string (Q * Q);
  multicell_physics : Physics
}.

(** [self._time = ...] *)
Definition set_time (_time' : Q)
    (self : EnvironmentSpatialLattice) : EnvironmentSpatialLattice := {|
  _time := _time';
  _timestep := _timestep self;
  run_for := run_for self;
  edge_length := edge_length self;
  patches_per_edge := patches_per_edge self;
  static_concentrations := static_concentrations self;
  diffusion := diffusion self;
  timeline := timeline self;
  media_id := media_id self;
  patch_volume := patch_volume self;
  dx2 := dx2 self;
  _molecule_ids := _molecule_ids self;
  lattice := lattice self;
  simulations := simulations self;
  locations := locations self;
  motile_forces := motile_forces self;
  multicell_physics := multicell_physics self
|}.

(** [self.lattice = ...] *)
Definition set_lattice (lattice' : list (list (list Q)))
    (self : EnvironmentSpatialLattice) : EnvironmentSpatialLattice := {|
  _time := _time self;
  _timestep := _timestep self;
  run_for := run_for self;
  edge_length := edge_length self;
  patches_per_edge := patches_per_edge self;
  static_concentrations := static_concentrations self;
  diffusion := diffusion self;
  timeline := timeline self;
  media_id := media_id self;
  patch_volume := patch_volume self;
  dx2 := dx2 self;
  _molecule_ids := _molecule_ids self;
  lattice := lattice';
  simulations := simulations self;
  locations := locations self;
  motile_forces := motile_forces self;
  multicell_physics := multicell_physics self
|}.

(** [self.media_id = ...] *)
Definition set_media_id (media_id' : string)
    (self : EnvironmentSpatialLattice) : EnvironmentSpatialLattice := {|
  _time := _time self;
  _timestep := _timestep self;
  run_for := run_for self;
  edge_length := edge_length self;
  patches_per_edge := patches_per_edge self;
  static_concentrations := static_concentrations self;
  diffusion := diffusion self;
  timeline := timeline self;
  media_id := media_id';
  patch_volume := patch_volume self;
  dx2 := dx2 self;
  _molecule_ids := _molecule_ids self;
  lattice := lattice self;
  simulations := simulations self;
  locations := locations self;
  motile_forces := motile_forces self;
  multicell_physics := multicell_physics self
|}.

(** [self.simulations = ...] *)
Definition set_simulations (simulations' : gmap string simulation)
    (self : EnvironmentSpatialLattice) : EnvironmentSpatialLattice := {|
  _time := _time self;
  _timestep := _timestep self;
  run_for := run_for self;
  edge_length := edge_length self;
  patches_per_edge := patches_per_edge self;
  static_concentrations := static_concentrations self;
  diffusion := diffusion self;
  timeline := timeline self;
  media_id := media_id self;
  patch_volume := patch_volume self;
  dx2 := dx2 self;
  _molecule_ids := _molecule_ids self;
  lattice := lattice self;
  simulations := simulations';
  locations := locations self;
  motile_forces := motile_forces self;
  multicell_physics := multicell_physics self
|}.

(** [self.motile_forces[agent_id] = ...] *)
Definition set_motile_forces (motile_forces' : gmap string (Q * Q))
    (self : EnvironmentSpatialLattice) : EnvironmentSpatialLattice := {|
  _time := _time self;
  _timestep := _timestep self;
  run_for := run_for self;
  edge_length := edge_length self;
  patches_per_edge := patches_per_edge self;
  static_concentrations := static_concentrations self;
  diffusion := diffusion self;
  timeline := timeline self;
  media_id := media_id self;
  patch_volume := patch_volume self;
  dx2 := dx2 self;
  _molecule_ids := _molecule_ids self;
  lattice := lattice self;
  simulations := simulations self;
  locations := locations self;
  motile_forces := motile_forces';
  multicell_physics := multicell_physics self
|}.

(** [self.locations], [self.corner_locations] and the state of the physics engine, all written by [update_locations] *)
Definition set_locations (locations' : gmap string (Q * Q * Q)) (multicell_physics' : Physics)
    (self : EnvironmentSpatialLattice) : EnvironmentSpatialLattice := {|
  _time := _time self;
  _timestep := _timestep self;
  run_for := run_for self;
  edge_length := edge_length self;
  patches_per_edge := patches_per_edge self;
  static_concentrations := static_concentrations self;
  diffusion := diffusion self;
  timeline := timeline self;
  media_id := media_id self;
  patch_volume := patch_volume self;
  dx2 := dx2 self;
  _molecule_ids := _molecule_ids self;
  lattice := lattice self;
  simulations := simulations self;
  locations := locations';
  motile_forces := motile_forces self;
  multicell_physics := multicell_physics'
|}.


(** [self.multicell_physics] once [update_locations] has passed the shape
    of every agent to [update_cell] and has run the engine for
    [self.run_for], and [get_center(agent_id)] on it: the centre and the
    orientation of the agent. *)
Variable run_physics : EnvironmentSpatialLattice → Physics.
Variable get_center : Physics → string → Q * Q * Q.

(** The first loop of [update_locations] reads
    [self.simulations[agent_id]['state']['volume']] and
    [self.motile_forces[agent_id]] for every agent that has a location:
    a [KeyError] for an agent without simulation or without motile
    force. *)
Definition update_cells (self : EnvironmentSpatialLattice) : error + unit :=
  map_fold (λ agent_id location acc,
              updated ← acc;
              simulation ← or_raise (KeyError agent_id) (simulations self !! agent_id);
              force ← or_raise (KeyError agent_id) (motile_forces self !! agent_id);
              inr tt)
           (inr tt) (locations self).

(** [update_locations]: only the agents' locations and the physics engine
    are written.  The second loop stores the centre of every agent that
    has a location and enforces the boundaries on its two coordinates;
    [self.dx] is [self.edge_length / self.patches_per_edge]. *)
Definition update_locations (self : EnvironmentSpatialLattice)
    : error + EnvironmentSpatialLattice :=
  updated ← update_cells self;
  let physics := run_physics self in
  let dx := (edge_length self / inject_Z (Z.of_nat (patches_per_edge self)))%Q in
  let locations' :=
    map_imap (λ agent_id (location : Q * Q * Q),
                let '(x, y, orientation) := get_center physics agent_id in
                Some (enforce_boundary (edge_length self) dx x,
                      enforce_boundary (edge_length self) dx y,
                      orientation))
             (locations self) in
  inr (set_locations locations' physics self).

(** [fill_lattice(media)]: one field per molecule, every patch holding
    [media[molecule_id]]. *)
Fixpoint filled (patches : nat) (media : gmap string Q) (molecule_ids : list string)
    : error + list (list (list Q)) :=
  match molecule_ids with
  | [] => inr []
  | molecule_id :: molecule_ids =>
    concentration ← or_raise (KeyError molecule_id) (media !! molecule_id);
    fields ← filled patches media molecule_ids;
    inr (replicate patches (replicate patches concentration) :: fields)
  end.

Definition fill_lattice (media : gmap string Q) (self : EnvironmentSpatialLattice)
    : error + EnvironmentSpatialLattice :=
  lattice ← filled (patches_per_edge self) media (_molecule_ids self);
  inr (set_lattice lattice self).

(** [update_media]: with a timeline, the media of the last event whose
    time has come ([[i for i, t in enumerate(self._times)
    if self.time() >= t][-1]]) replaces the current one. *)
Definition update_media (self : EnvironmentSpatialLattice)
    : error + EnvironmentSpatialLattice :=
  match timeline self with
  | Some (event :: events) =>
    current ← or_raise IndexError
      (last (filter (λ e, Qle_bool e.1 (_time self)) (event :: events)));
    if String.eqb (media_id self) current.2 then inr self
    else
      let self := set_media_id current.2 self in
      fill_lattice (make_recipe (media_id self)) self
  | _ => inr self
  end.

(** [diffusion_timestep(lattice)] *)
Definition diffusion_timestep (self : EnvironmentSpatialLattice)
    (molecule : list (list Q)) : list (list Q) :=
  map (map (λ c, (diffusion self * _timestep self * c / dx2 self)%Q))
      (convolve_laplacian molecule).

(** [run_diffusion]: [self.lattice += change_lattice], where the change of
    a uniform field is zero. *)
Definition run_diffusion (self : EnvironmentSpatialLattice)
    : EnvironmentSpatialLattice :=
  set_lattice
    (map (λ molecule,
            if not_uniform molecule
            then zip_with (zip_with Qplus) molecule (diffusion_timestep self molecule)
            else molecule)
         (lattice self))
    self.

(** [evolve] *)
Definition evolve (self : EnvironmentSpatialLattice)
    : error + EnvironmentSpatialLattice :=
  self ← update_locations self;
  self ← update_media self;
  let self := if static_concentrations self then self else run_diffusion self in
  (* make sure all patches have concentrations of 0 or higher *)
  inr (set_lattice (clamp (lattice self)) self).

(** [+] on the floats of the clock. *)
Variable float_add : Q → Q → Q.

(** [run_incremental(run_until)]:
    [while self._time < run_until: self._time += self._timestep; self.evolve()].
    The first component of the result lists the times at which [evolve]
    was invoked. *)
Definition run_incremental (fuel : nat) (run_until : Q)
    (self : EnvironmentSpatialLattice)
    : list Q * outcome EnvironmentSpatialLattice error :=
  run _time (λ self, set_time (float_add (_time self) (_timestep self)) self) evolve
      fuel run_until self.

(** [count_to_concentration(count)] *)
Definition count_to_concentration (self : EnvironmentSpatialLattice) (count : Q) : Q :=
  (count / (patch_volume self * N_AVOGADRO))%Q.

(** The body of the loop of [apply_inner_update] for one agent. *)
Definition apply_simulation (now : Q) (agent_id : string) (simulation : simulation)
    (self : EnvironmentSpatialLattice) : error + EnvironmentSpatialLattice :=
  if Qle_bool (sim_time simulation) now then
    let self :=
      match sim_motile_force simulation with
      | Some force => set_motile_forces (<[agent_id := force]> (motile_forces self)) self
      | None => self
      end in
    if static_concentrations self then inr self
    else
      '(x, y, _) ← or_raise (KeyError agent_id) (locations self !! agent_id);
      let patch_x := Qfloor (x * inject_Z (Z.of_nat (patches_per_edge self)) / edge_length self) in
      let patch_y := Qfloor (y * inject_Z (Z.of_nat (patches_per_edge self)) / edge_length self) in
      lattice ←
        foldl (λ acc '(molecule, count),
                 lattice ← acc;
                 index ← or_raise (KeyError molecule)
                            (molecule_index (_molecule_ids self) molecule);
                 add_at_patch index patch_x patch_y
                              (count_to_concentration self count) lattice)
              (inr (lattice self)) (sim_environment_change simulation);
      inr (set_lattice lattice self)
  else inr self.

(** [apply_inner_update(update, now)]: the counts changed by the inner
    simulations are converted to concentrations and added to the patch
    of each simulation. *)
Definition apply_inner_update (update : gmap string simulation) (now : Q)
    (self : EnvironmentSpatialLattice) : error + EnvironmentSpatialLattice :=
  let self := set_simulations (update ∪ simulations self) self in
  map_fold (λ agent_id simulation acc, self ← acc; apply_simulation now agent_id simulation self)
           (inr self) (simulations self).

(** ** Facts about [evolve] *)

Lemma update_media_clock self self' :
  update_media self = inr self' →
  _time self' = _time self ∧ _timestep self' = _timestep self
  ∧ timeline self' = timeline self.
Proof.
  unfold update_media.
  destruct (timeline self) as [[|event events]|] eqn:Htl; try by intros [= <-].
  destruct (last _) as [current|]; simpl; [|done].
  destruct (String.eqb _ _); [by intros [= <-]|].
  unfold fill_lattice. destruct (filled _ _ _); simpl; [done|].
  by intros [= <-].
Qed.

Lemma update_media_returns self :
  timeline self = None → update_media self = inr self.
Proof. unfold update_media. by intros ->. Qed.

(** Every agent that has a location has a simulation and a motile force,
    as [add_simulation] leaves them. *)
Definition registered (self : EnvironmentSpatialLattice) : Prop :=
  ∀ agent_id, is_Some (locations self !! agent_id) →
    is_Some (simulations self !! agent_id) ∧ is_Some (motile_forces self !! agent_id).

(** The first loop of [update_locations] returns for registered agents
    only, and raises for an agent that is not. *)
Lemma update_cells_outcome self :
  match update_cells self with
  | inr _ => registered self
  | inl e => ∃ agent_id, e = KeyError agent_id
               ∧ is_Some (locations self !! agent_id)
               ∧ (simulations self !! agent_id = None
                  ∨ motile_forces self !! agent_id = None)
  end.
Proof.
  unfold update_cells, registered.
  apply (map_fold_weak_ind
           (λ (r : error + unit) (done : gmap string (Q * Q * Q)),
              match r with
              | inr _ => ∀ agent_id, is_Some (done !! agent_id) →
                           is_Some (simulations self !! agent_id)
                           ∧ is_Some (motile_forces self !! agent_id)
              | inl e => ∃ agent_id, e = KeyError agent_id
                           ∧ is_Some (done !! agent_id)
                           ∧ (simulations self !! agent_id = None
                              ∨ motile_forces self !! agent_id = None)
              end)).
  - intros agent_id. rewrite lookup_empty. by intros [? ?].
  - intros agent_id location done r Hfresh IH.
    destruct r as [e|[]]; simpl.
    + destruct IH as (agent_id' & -> & Hin & Hmissing). exists agent_id'.
      split; [done|]. split; [|done].
      destruct (decide (agent_id' = agent_id)) as [->|Hne].
      * rewrite lookup_insert_eq. by eexists.
      * by rewrite lookup_insert_ne.
    + destruct (simulations self !! agent_id) as [simulation|] eqn:Hsim; simpl.
      * destruct (motile_forces self !! agent_id) as [force|] eqn:Hforce; simpl.
        -- intros agent_id'. destruct (decide (agent_id' = agent_id)) as [->|Hne].
           ++ intros _. rewrite Hsim, Hforce. by split; eexists.
           ++ rewrite lookup_insert_ne by done. apply IH.
        -- exists agent_id. rewrite lookup_insert_eq. split; [done|]. split; [by eexists|by right].
      * exists agent_id. rewrite lookup_insert_eq. split; [done|]. split; [by eexists|by left].
Qed.

Lemma update_cells_returns self :
  registered self → update_cells self = inr tt.
Proof.
  intros Hregistered. pose proof (update_cells_outcome self) as Houtcome.
  destruct (update_cells self) as [e|[]]; [|done].
  destruct Houtcome as (agent_id & _ & Hin & Hmissing).
  destruct (Hregistered agent_id Hin) as [[? Hsim] [? Hforce]].
  destruct Hmissing; congruence.
Qed.

(** What [update_locations] writes when it returns. *)
Lemma update_locations_frame self self' :
  update_locations self = inr self' →
  registered self
  ∧ (∀ agent_id, is_Some (locations self' !! agent_id) →
       is_Some (locations self !! agent_id))
  ∧ self' = set_locations (locations self') (multicell_physics self') self.
Proof.
  unfold update_locations.
  pose proof (update_cells_outcome self) as Houtcome.
  destruct (update_cells self) as [e|[]]; simpl; [done|].
  intros [= <-]. split; [done|]. split; [|done].
  intros agent_id. cbn [locations set_locations]. rewrite map_lookup_imap.
  by destruct (locations self !! agent_id).
Qed.

Lemma update_locations_returns self :
  registered self → ∃ self', update_locations self = inr self'.
Proof.
  intros Hregistered. unfold update_locations.
  rewrite (update_cells_returns _ Hregistered). simpl. by eexists.
Qed.

Lemma update_locations_clock self self' :
  update_locations self = inr self' →
  _time self' = _time self
  ∧ _timestep self' = _timestep self
  ∧ timeline self' = timeline self.
Proof. intros (_ & _ & ->)%update_locations_frame. done. Qed.

(** [evolve] leaves the clock and the timeline alone. *)
Lemma evolve_clock self self' :
  evolve self = inr self' →
  _time self' = _time self ∧ _timestep self' = _timestep self
  ∧ timeline self' = timeline self.
Proof.
  unfold evolve.
  destruct (update_locations self) as [|self0] eqn:Hlocations; simpl; [done|].
  destruct (update_locations_clock _ _ Hlocations) as (Ht & Hd & Htl).
  destruct (update_media self0) as [|self1] eqn:Hmedia; simpl; [done|].
  destruct (update_media_clock _ _ Hmedia) as (Ht1 & Hd1 & Htl1).
  intros [= <-]. destruct (static_concentrations self1); simpl; repeat split; congruence.
Qed.

(** Without a timeline and with every agent registered, [evolve]
    returns, and leaves the environment so. *)
Lemma evolve_returns self :
  timeline self = None → registered self →
  ∃ self', evolve self = inr self' ∧ timeline self' = None ∧ registered self'.
Proof.
  intros Htl Hregistered. unfold evolve.
  destruct (update_locations_returns _ Hregistered) as [self0 Hlocations].
  rewrite Hlocations. simpl.
  destruct (update_locations_frame _ _ Hlocations) as (_ & Hkeys & Hself0).
  assert (Htl0 : timeline self0 = None) by by rewrite Hself0.
  assert (Hregistered0 : registered self0).
  { intros agent_id Hin%Hkeys. rewrite Hself0. by apply Hregistered. }
  rewrite update_media_returns by done. simpl.
  eexists; split; [done|].
  destruct (static_concentrations self0); simpl; by split.
Qed.


Lemma clamp_value_spec x :
  (0 <= clamp_value x)%Q
  ∧ ((x < 0)%Q → clamp_value x = 0%Q)
  ∧ ((0 <= x)%Q → clamp_value x = x).
Proof.
  unfold clamp_value. destruct (Qlt_bool x 0) eqn:Hx.
  - apply Qlt_bool_iff in Hx. split; [lra|]. split; [done|intros; exfalso; lra].
  - apply Qlt_bool_false in Hx. split; [done|]. split; [intros; exfalso; lra|done].
Qed.


End Environment.

(** ** Negative concentrations *)

(** An environment of one patch holding 1 mmol/L of glucose, with one
    agent on it whose inner simulation reports the uptake of [10^15]
    molecules; the volumes are the defaults of the constructor (depth
    3000, edge length 10) and there is no timeline. *)
Definition one_patch : EnvironmentSpatialLattice unit := {|
  _time := 0; _timestep := 1; run_for := 5; edge_length := 10;
  patches_per_edge := 1; static_concentrations := false;
  diffusion := 1 # 10; timeline := None; media_id := "minimal";
  patch_volume := 3 # 10 ^ 10; dx2 := 100;
  _molecule_ids := ["GLC"%string];
  lattice := [[[1%Q]]];
  simulations := ∅;
  locations := {[ "agent"%string := (5%Q, 5%Q, 0%Q) ]};
  motile_forces := ∅;
  multicell_physics := tt
|}.

Definition uptake : gmap string simulation :=
  {[ "agent"%string := {| sim_time := 0; sim_volume := 1; sim_motile_force := None;
                          sim_environment_change := [("GLC"%string, - (10 ^ 15 # 1))%Q] |} ]}.

(** The same environment with its agent registered as [add_simulation]
    does it: a simulation under the agent's id, and the motile force
    [[0.0, 0.0]]. *)
Definition one_agent : EnvironmentSpatialLattice unit :=
  set_motile_forces unit {[ "agent"%string := (0%Q, 0%Q) ]}
    (set_simulations unit
       {[ "agent"%string := {| sim_time := 0; sim_volume := 1; sim_motile_force := None;
                               sim_environment_change := [] |} ]}
       one_patch).

(** A physics engine that leaves the agent where it is. *)
Definition still_center (physics : unit) (agent_id : string) : Q * Q * Q :=
  (5%Q, 5%Q, 0%Q).



(** ** The agent interface and the media *)

(** [max(a, b)]: the first argument unless the second is greater. *)
Definition max2 (a b : Q) : Q := if Qlt_bool a b then b else a.

Section Interface.
Context {Physics : Type}.
Variable N_AVOGADRO : Q.
Variable make_recipe : string → gmap string Q.
Variable convolve_laplacian : list (list Q) → list (list Q).
Variable run_physics : EnvironmentSpatialLattice Physics → Physics.
Variable get_center : Physics → string → Q * Q * Q.

#[local] Arguments _time {Physics} _.
#[local] Arguments _timestep {Physics} _.
#[local] Arguments patches_per_edge {Physics} _.
#[local] Arguments static_concentrations {Physics} _.
#[local] Arguments timeline {Physics} _.
#[local] Arguments media_id {Physics} _.
#[local] Arguments _molecule_ids {Physics} _.
#[local] Arguments lattice {Physics} _.
#[local] Arguments simulations {Physics} _.
#[local] Arguments locations {Physics} _.
#[local] Arguments motile_forces {Physics} _.
#[local] Arguments multicell_physics {Physics} _.
#[local] Arguments set_lattice {Physics} _ _.
#[local] Arguments set_media_id {Physics} _ _.
#[local] Arguments set_simulations {Physics} _ _.
#[local] Arguments set_motile_forces {Physics} _ _.
#[local] Arguments set_locations {Physics} _ _ _.
#[local] Arguments update_locations {Physics} _ _ _.
#[local] Arguments registered {Physics} _.
#[local] Arguments fill_lattice {Physics} _ _.
#[local] Arguments update_media {Physics} _ _.
#[local] Arguments run_diffusion {Physics} _ _.
#[local] Arguments evolve {Physics} _ _ _ _ _.
#[local] Arguments apply_simulation {Physics} _ _ _ _ _.
#[local] Arguments apply_inner_update {Physics} _ _ _ _.

(** [simulation_parameters(agent_id)]: the latest of the environment's
    time and the times of the simulations; [None] is the [ValueError] of
    [max] on an empty list. *)
Definition simulation_parameters (agent_id : string)
    (self : EnvironmentSpatialLattice Physics) : option Q :=
  match (λ item, sim_time item.2) <$> map_to_list (simulations self) with
  | [] => None
  | time :: times => Some (max2 (_time self) (foldl max2 time times))
  end.

(** [remove_simulation(agent_id)]: [pop] with a default, so that an
    unknown agent is no error. *)
Definition remove_simulation (agent_id : string)
    (self : EnvironmentSpatialLattice Physics) : EnvironmentSpatialLattice Physics :=
  let self := set_simulations (delete agent_id (simulations self)) self in
  set_locations (delete agent_id (locations self)) (multicell_physics self) self.

(** ** [fill_lattice] *)

(** A field as [fill] leaves it. *)
Definition uniform_field (patches : nat) (concentration : Q) : list (list Q) :=
  replicate patches (replicate patches concentration).

Lemma filled_fields patches media molecule_ids fields :
  filled patches media molecule_ids = inr fields →
  Forall2 (λ molecule_id field,
             ∃ concentration, media !! molecule_id = Some concentration
                              ∧ field = uniform_field patches concentration)
          molecule_ids fields.
Proof.
  revert fields. induction molecule_ids as [|m ids IH]; intros fields; simpl.
  - intros [= <-]. constructor.
  - destruct (media !! m) as [c|] eqn:Hm; simpl; [|done].
    destruct (filled patches media ids) as [|fs]; simpl; [done|].
    intros [= <-]. constructor; [by exists c|by apply IH].
Qed.

Lemma filled_returns patches media molecule_ids :
  (∀ molecule_id, molecule_id ∈ molecule_ids → is_Some (media !! molecule_id)) →
  ∃ fields, filled patches media molecule_ids = inr fields.
Proof.
  induction molecule_ids as [|m ids IH]; intros Hall; simpl; [by eexists|].
  destruct (Hall m) as [c ->]; [left|]. simpl.
  destruct IH as [fields ->]; [|by eexists].
  intros m' Hin. apply Hall. by right.
Qed.

Lemma filled_raises patches media before molecule_id after :
  (∀ molecule_id', molecule_id' ∈ before → is_Some (media !! molecule_id')) →
  media !! molecule_id = None →
  filled patches media (before ++ molecule_id :: after) = inl (KeyError molecule_id).
Proof.
  induction before as [|m before IH]; intros Hall Hnone; simpl.
  - by rewrite Hnone.
  - destruct (Hall m) as [c ->]; [left|]. simpl.
    rewrite IH; [done| |done]. intros m' Hin. apply Hall. by right.
Qed.

(** [fill_lattice(media)] builds one field of [patches_per_edge] times
    [patches_per_edge] patches per molecule of the environment, every
    patch of it holding [media[molecule_id]], and changes nothing but the
    lattice; when the media lacks a molecule of the environment it raises
    a [KeyError] for the first such molecule. *)
Theorem fill_lattice_outcome media (self : EnvironmentSpatialLattice Physics) :
  ((∀ molecule_id, molecule_id ∈ _molecule_ids self → is_Some (media !! molecule_id)) →
   ∃ fields,
     fill_lattice media self = inr (set_lattice fields self)
     ∧ Forall2 (λ molecule_id field,
                  ∃ concentration, media !! molecule_id = Some concentration
                    ∧ field = uniform_field (patches_per_edge self) concentration)
               (_molecule_ids self) fields)
  ∧ (∀ before molecule_id after,
       _molecule_ids self = before ++ molecule_id :: after →
       (∀ molecule_id', molecule_id' ∈ before → is_Some (media !! molecule_id')) →
       media !! molecule_id = None →
       fill_lattice media self = inl (KeyError molecule_id)).
Proof.
  unfold fill_lattice. split.
  - intros Hall.
    destruct (filled_returns (patches_per_edge self) media _ Hall) as [fields Hfields].
    exists fields. rewrite Hfields. split; [done|]. by apply filled_fields.
  - intros before m after -> Hall Hnone. by rewrite filled_raises.
Qed.

(** ** Uniform fields *)

Lemma uniform_field_elem patches concentration row x :
  row ∈ uniform_field patches concentration → x ∈ row → x = concentration.
Proof.
  unfold uniform_field. intros [-> _]%elem_of_replicate [-> _]%elem_of_replicate. done.
Qed.

Lemma not_uniform_uniform_field patches concentration :
  (1 ≤ patches)%nat → not_uniform (uniform_field patches concentration) = false.
Proof.
  intros Hp. unfold not_uniform.
  destruct (concat (uniform_field patches concentration)) as [|x rest] eqn:Hconcat.
  - exfalso. destruct patches as [|p]; [lia|]. done.
  - assert (Hall : ∀ y, y ∈ x :: rest → y = concentration).
    { intros y. rewrite <- Hconcat.
      intros (row & Hrow & Hy)%list_elem_of_In%in_concat.
      apply list_elem_of_In in Hrow, Hy. by eapply uniform_field_elem. }
    apply negb_false_iff, forallb_forall. intros y Hy%list_elem_of_In.
    rewrite (Hall x), (Hall y); [|by right|by left].
    by apply Qeq_bool_iff.
Qed.

(** ** A fresh lattice is at rest *)

Lemma map_fixed {A} (f : A → A) (l : list A) :
  (∀ x, x ∈ l → f x = x) → map f l = l.
Proof.
  induction l as [|x l IH]; intros Hall; simpl; [done|].
  rewrite (Hall x) by left. f_equal. apply IH. intros y Hy. apply Hall. by right.
Qed.

Lemma clamp_nonnegative_id (lattice : list (list (list Q))) :
  (∀ molecule row x, molecule ∈ lattice → row ∈ molecule → x ∈ row → (0 <= x)%Q) →
  clamp lattice = lattice.
Proof.
  intros Hall. unfold clamp.
  apply map_fixed. intros molecule Hm.
  apply map_fixed. intros row Hrow.
  apply map_fixed. intros x Hx.
  apply clamp_value_spec. by eapply Hall.
Qed.

(** The lattice as [fill_lattice] leaves it, with at least one patch per
    edge and a media without negative concentrations, is a fixed point
    of [evolve] when there is no timeline and every agent that has a
    location has a simulation and a motile force, so that
    [update_locations] returns: diffusion leaves the uniform fields alone
    and nothing is clamped. *)
Theorem evolve_fresh_lattice media (self filled_self : EnvironmentSpatialLattice Physics) :
  (1 ≤ patches_per_edge self)%nat →
  timeline self = None →
  registered self →
  (∀ molecule_id concentration,
     media !! molecule_id = Some concentration → (0 <= concentration)%Q) →
  fill_lattice media self = inr filled_self →
  ∃ evolved,
    evolve make_recipe convolve_laplacian run_physics get_center filled_self = inr evolved
    ∧ lattice evolved = lattice filled_self.
Proof.
  intros Hpatches Htimeline Hregistered Hmedia. unfold fill_lattice.
  destruct (filled _ _ _) as [|fields] eqn:Hfilled; simpl; [done|]. intros [= <-].
  apply filled_fields in Hfilled.
  assert (Hfield : ∀ molecule, molecule ∈ fields →
            ∃ c, (0 <= c)%Q ∧ molecule = uniform_field (patches_per_edge self) c).
  { intros molecule [i Hi]%list_elem_of_lookup_1.
    destruct (Forall2_lookup_r _ _ _ _ _ Hfilled Hi) as (m & _ & c & Hc & ->).
    exists c. split; [by eapply Hmedia|done]. }
  assert (Hdiffusion : ∀ self0 : EnvironmentSpatialLattice Physics,
    map (λ molecule,
           if not_uniform molecule
           then zip_with (zip_with Qplus) molecule
                  (diffusion_timestep Physics convolve_laplacian self0 molecule)
           else molecule) fields = fields).
  { intros self0. apply map_fixed. intros molecule (c & _ & ->)%Hfield.
    by rewrite not_uniform_uniform_field. }
  assert (Hclamp : clamp fields = fields).
  { apply clamp_nonnegative_id. intros molecule row x (c & Hc & ->)%Hfield Hrow Hx.
    by rewrite (uniform_field_elem _ _ _ _ Hrow Hx). }
  unfold evolve.
  destruct (update_locations_returns Physics run_physics get_center
              (set_lattice fields self) Hregistered) as [self0 Hlocations].
  rewrite Hlocations. simpl.
  destruct (update_locations_frame _ _ _ _ _ Hlocations) as (_ & _ & Hself0).
  assert (Hframe : timeline self0 = None ∧ lattice self0 = fields
                   ∧ static_concentrations self0 = static_concentrations self).
  { by rewrite Hself0. }
  destruct Hframe as (Htimeline0 & Hlattice0 & Hstatic0).
  rewrite update_media_returns by done. simpl.
  eexists. split; [done|].
  destruct (static_concentrations self0); simpl; [by rewrite Hlattice0, Hclamp|].
  unfold run_diffusion. simpl. by rewrite Hlattice0, Hdiffusion, Hclamp.
Qed.

(** ** The media of the timeline *)

Lemma filter_none {A} (P : A → Prop) `{∀ x, Decision (P x)} (l : list A) :
  (∀ x, x ∈ l → ¬ P x) → filter P l = [].
Proof.
  induction l as [|x l IH]; intros Hall; [done|].
  rewrite filter_cons_False by (apply Hall; left).
  apply IH. intros y Hy. apply Hall. by right.
Qed.

Lemma last_due_event (time : Q) (before : list (Q * string)) current after :
  (current.1 <= time)%Q →
  (∀ e, e ∈ after → (time < e.1)%Q) →
  last (filter (λ e, Qle_bool e.1 time) (before ++ current :: after)) = Some current.
Proof.
  intros Hcurrent Hafter.
  rewrite filter_app, filter_cons_True by (by apply Is_true_true, Qle_bool_iff).
  rewrite (filter_none _ after); [by rewrite last_snoc|].
  intros e He Hle. apply Is_true_true, Qle_bool_iff in Hle.
  specialize (Hafter e He). lra.
Qed.

(** [update_media] with a timeline that holds events.  While the time of
    no event has come, picking the last of the events so far is an
    [IndexError].  Otherwise the media becomes that of the event listed
    last among those whose time has come: nothing is done when the
    environment holds that media already, and else the lattice is filled
    anew with the recipe of that media. *)
Theorem update_media_outcome (self : EnvironmentSpatialLattice Physics) event events :
  timeline self = Some (event :: events) →
  ((∀ e, e ∈ event :: events → (_time self < e.1)%Q) →
   update_media make_recipe self = inl IndexError)
  ∧ (∀ before current after,
       event :: events = before ++ current :: after →
       (current.1 <= _time self)%Q →
       (∀ e, e ∈ after → (_time self < e.1)%Q) →
       (media_id self = current.2 → update_media make_recipe self = inr self)
       ∧ (media_id self ≠ current.2 →
          update_media make_recipe self
          = fill_lattice (make_recipe current.2) (set_media_id current.2 self))).
Proof.
  intros Htimeline. unfold update_media. rewrite Htimeline. split.
  - intros Hall. rewrite filter_none; [done|].
    intros e He Hle. apply Is_true_true, Qle_bool_iff in Hle.
    specialize (Hall e He). lra.
  - intros before current after -> Hcurrent Hafter.
    rewrite last_due_event by done. simpl. split.
    + intros ->. by rewrite String.eqb_refl.
    + intros Hne. apply String.eqb_neq in Hne. by rewrite Hne.
Qed.

(** ** Updates of the inner simulations *)

(** What the body of the loop never writes. *)
Lemma apply_simulation_frame now agent_id simulation
    (self self' : EnvironmentSpatialLattice Physics) :
  apply_simulation N_AVOGADRO now agent_id simulation self = inr self' →
  locations self' = locations self
  ∧ simulations self' = simulations self
  ∧ static_concentrations self' = static_concentrations self.
Proof.
  unfold apply_simulation.
  destruct (Qle_bool (sim_time simulation) now); [|by intros [= <-]].
  set (self1 := match sim_motile_force simulation with
                | Some force => _ | None => self end).
  assert (Hframe : locations self1 = locations self
                   ∧ simulations self1 = simulations self
                   ∧ static_concentrations self1 = static_concentrations self)
    by (subst self1; by destruct (sim_motile_force simulation)).
  destruct Hframe as (Hloc & Hsims & Hst).
  destruct (static_concentrations self1) eqn:Hstatic.
  { intros [= <-]. repeat split; congruence. }
  destruct (locations self1 !! agent_id) as [[[x y] angle]|]; simpl; [|done].
  destruct (foldl _ _ _) as [|lattice']; simpl; [done|]. intros [= <-]. simpl.
  repeat split; congruence.
Qed.

(** No exchange with the lattice: a simulation whose time is still to
    come is skipped, and an environment of static concentrations only
    records the motile force. *)
Lemma apply_simulation_skipped now agent_id simulation
    (self : EnvironmentSpatialLattice Physics) :
  static_concentrations self = true ∨ (now < sim_time simulation)%Q →
  ∃ self', apply_simulation N_AVOGADRO now agent_id simulation self = inr self'
           ∧ lattice self' = lattice self.
Proof.
  unfold apply_simulation. intros Hskip.
  destruct (Qle_bool (sim_time simulation) now) eqn:Hdue; [|by eexists].
  destruct Hskip as [Hstatic|Hlater].
  - destruct (sim_motile_force simulation); simpl; rewrite Hstatic; by eexists.
  - apply Qle_bool_iff in Hdue. exfalso. lra.
Qed.

(** [apply_inner_update] leaves the lattice alone, and returns, when the
    concentrations are static or when the time of no simulation has come;
    the update is merged into the simulations all the same. *)
Theorem apply_inner_update_no_exchange update now
    (self : EnvironmentSpatialLattice Physics) :
  static_concentrations self = true
  ∨ (∀ agent_id simulation,
       (update ∪ simulations self) !! agent_id = Some simulation →
       (now < sim_time simulation)%Q) →
  ∃ self', apply_inner_update N_AVOGADRO update now self = inr self'
           ∧ lattice self' = lattice self
           ∧ simulations self' = update ∪ simulations self.
Proof.
  intros Hskip. unfold apply_inner_update. simpl.
  set (self0 := set_simulations (update ∪ simulations self) self).
  assert (Hind : ∀ prefix,
            prefix ⊆ update ∪ simulations self →
            ∃ self', map_fold (λ agent_id simulation acc,
                                 self ← acc;
                                 apply_simulation N_AVOGADRO now agent_id simulation self)
                              (inr self0) prefix = inr self'
                     ∧ lattice self' = lattice self
                     ∧ simulations self' = update ∪ simulations self
                     ∧ static_concentrations self' = static_concentrations self).
  { intros prefix. apply (map_fold_weak_ind (λ r m,
      m ⊆ update ∪ simulations self →
      ∃ self', r = inr self' ∧ lattice self' = lattice self
               ∧ simulations self' = update ∪ simulations self
               ∧ static_concentrations self' = static_concentrations self)).
    - intros _. by exists self0.
    - intros agent_id simulation m r Hfresh IH Hsub.
      destruct IH as (self1 & -> & Hlattice & Hsims & Hstatic).
      { etrans; [|exact Hsub]. by apply insert_subseteq. }
      simpl.
      destruct (apply_simulation_skipped now agent_id simulation self1)
        as (self2 & Hstep & Hlattice2).
      { destruct Hskip as [Hs|Hlater]; [left; congruence|right].
        apply (Hlater agent_id). eapply lookup_weaken; [|exact Hsub].
        apply lookup_insert_eq. }
      exists self2. split; [done|].
      destruct (apply_simulation_frame _ _ _ _ _ Hstep) as (_ & Hsims2 & Hstatic2).
      repeat split; congruence. }
  destruct (Hind (update ∪ simulations self)) as (self' & Hfold & Hlattice & Hsims & _);
    [done|].
  by exists self'.
Qed.

(** An agent without a location -- it was never added, or it was removed
    by [remove_simulation] -- must not report again: when the update
    holds a simulation of the removed agent whose time has come, and the
    concentrations are not static, [apply_inner_update] raises. *)
Theorem apply_inner_update_removed_agent update now agent_id simulation
    (self : EnvironmentSpatialLattice Physics) :
  static_concentrations self = false →
  update !! agent_id = Some simulation →
  (sim_time simulation <= now)%Q →
  ∃ e, apply_inner_update N_AVOGADRO update now (remove_simulation agent_id self) = inl e.
Proof.
  intros Hstatic Hupdate Hdue. unfold apply_inner_update. simpl.
  set (sims := update ∪ delete agent_id (simulations self)).
  set (self0 := set_simulations sims _).
  assert (Hind :
    (∀ self', map_fold (λ agent_id simulation acc,
                          self ← acc;
                          apply_simulation N_AVOGADRO now agent_id simulation self)
                       (inr self0) sims = inr self' →
       locations self' !! agent_id = None ∧ static_concentrations self' = false)
    ∧ (sims !! agent_id = Some simulation →
       ∃ e, map_fold (λ agent_id simulation acc,
                        self ← acc;
                        apply_simulation N_AVOGADRO now agent_id simulation self)
                     (inr self0) sims = inl e)).
  { apply (map_fold_weak_ind (λ r m,
      (∀ self', r = inr self' →
         locations self' !! agent_id = None ∧ static_concentrations self' = false)
      ∧ (m !! agent_id = Some simulation → ∃ e, r = inl e))).
    - split; [|by rewrite lookup_empty].
      intros self' [= <-]. simpl. by rewrite lookup_delete_eq.
    - intros agent simulation' m r Hfresh [Hframe Hraise]. split.
      + intros self'. destruct r as [|self1]; simpl; [done|]. intros Hstep.
        destruct (Hframe self1 eq_refl) as [Hloc Hst].
        destruct (apply_simulation_frame _ _ _ _ _ Hstep) as (-> & _ & ->). done.
      + destruct (decide (agent = agent_id)) as [->|Hne].
        * rewrite lookup_insert_eq. intros [= ->].
          destruct r as [e|self1]; simpl; [by exists e|].
          destruct (Hframe self1 eq_refl) as [Hloc Hst].
          unfold apply_simulation. apply Qle_bool_iff in Hdue. rewrite Hdue.
          exists (KeyError agent_id).
          destruct (sim_motile_force simulation); simpl; by rewrite Hst, Hloc.
        * rewrite lookup_insert_ne by done. intros [e ->]%Hraise. by exists e. }
  apply Hind. subst sims. by apply lookup_union_Some_l.
Qed.

(** ** The time reported to a new simulation *)

Lemma foldl_max2 (time : Q) (times : list Q) :
  (time <= foldl max2 time times)%Q
  ∧ (∀ t, t ∈ times → (t <= foldl max2 time times)%Q)
  ∧ (foldl max2 time times = time ∨ foldl max2 time times ∈ times).
Proof.
  revert time. induction times as [|t times IH]; intros time; simpl.
  - split; [lra|]. split; [by intros t ?%elem_of_nil|by left].
  - destruct (IH (max2 time t)) as (Hle & Hall & Hin).
    assert (Hmax : (time <= max2 time t)%Q ∧ (t <= max2 time t)%Q
                   ∧ (max2 time t = time ∨ max2 time t = t)).
    { unfold max2. destruct (Qlt_bool time t) eqn:Hlt.
      - apply Qlt_bool_iff in Hlt. split; [lra|]. split; [lra|by right].
      - apply Qlt_bool_false in Hlt. split; [lra|]. split; [lra|by left]. }
    destruct Hmax as (Hl & Hr & Hor).
    split; [lra|]. split.
    + intros t' [->|Hin']%elem_of_cons; [lra|by apply Hall].
    + destruct Hin as [->|Hin]; [|right; by right].
      destruct Hor as [->| ->]; [by left|right; by left].
Qed.

(** [simulation_parameters] reports the latest time known to the
    environment: a time that is not before the environment's own and not
    before that of any simulation, and that is one of them.  It takes no
    notice of the agent asked for, and without any simulation its [max]
    of an empty list raises. *)
Theorem simulation_parameters_latest agent_id (self : EnvironmentSpatialLattice Physics) :
  (simulations self = ∅ → simulation_parameters agent_id self = None)
  ∧ (simulations self ≠ ∅ →
     ∃ time, simulation_parameters agent_id self = Some time
       ∧ (_time self <= time)%Q
       ∧ (∀ agent simulation, simulations self !! agent = Some simulation →
            (sim_time simulation <= time)%Q)
       ∧ (time = _time self
          ∨ ∃ agent simulation, simulations self !! agent = Some simulation
                                ∧ time = sim_time simulation)).
Proof.
  unfold simulation_parameters. split.
  - intros ->. by rewrite map_to_list_empty.
  - intros Hne.
    assert (Hin : ∀ t, t ∈ (λ item : string * simulation, sim_time item.2)
                             <$> map_to_list (simulations self)
                   ↔ ∃ agent simulation, simulations self !! agent = Some simulation
                                         ∧ t = sim_time simulation).
    { intros t. rewrite list_elem_of_fmap. split.
      - intros ([agent sim] & -> & Hin%elem_of_map_to_list). by exists agent, sim.
      - intros (agent & sim & Hsim & ->). exists (agent, sim). split; [done|].
        by apply elem_of_map_to_list. }
    destruct (_ <$> map_to_list (simulations self)) as [|time times] eqn:Htimes.
    { apply fmap_nil_inv, map_to_list_empty_iff in Htimes. done. }
    eexists. split; [done|].
    destruct (foldl_max2 time times) as (Hle & Hall & Hor).
    assert (Hmax : ∀ a b, (a <= max2 a b)%Q ∧ (b <= max2 a b)%Q
                          ∧ (max2 a b = a ∨ max2 a b = b)).
    { intros a b. unfold max2. destruct (Qlt_bool a b) eqn:Hlt.
      - apply Qlt_bool_iff in Hlt. split; [lra|]. split; [lra|by right].
      - apply Qlt_bool_false in Hlt. split; [lra|]. split; [lra|by left]. }
    destruct (Hmax (_time self) (foldl max2 time times)) as (Hl & Hr & Hsel).
    split; [done|]. split.
    + intros agent sim Hsim.
      assert (Ht : sim_time sim ∈ time :: times) by (apply Hin; eauto).
      apply elem_of_cons in Ht as [->|Ht]; [lra|].
      specialize (Hall _ Ht). lra.
    + destruct Hsel as [->| ->]; [by left|right].
      apply Hin. destruct Hor as [->|Hor]; [left|by right].
Qed.

End Interface.
(** ** The interface on the one-patch environment *)

Lemma fill_lattice_outcome_witness :
  ∃ fields,
    fill_lattice unit {[ "GLC"%string := 5%Q ]} one_patch
    = inr (set_lattice unit fields one_patch)
    ∧ Forall2 (λ molecule_id field,
                 ∃ concentration,
                   ({[ "GLC"%string := 5%Q ]} : gmap string Q) !! molecule_id
                   = Some concentration
                   ∧ field = uniform_field 1 concentration)
              ["GLC"%string] fields.
Proof.
  apply (fill_lattice_outcome {[ "GLC"%string := 5%Q ]} one_patch).
  intros molecule_id ->%list_elem_of_singleton. by eexists.
Defined.

Lemma one_agent_registered : registered unit one_agent.
Proof.
  intros agent_id [location Hlocation].
  unfold one_agent, one_patch in Hlocation.
  cbn [locations set_motile_forces set_simulations] in Hlocation.
  apply lookup_singleton_Some in Hlocation as [<- _].
  split; eexists; reflexivity.
Qed.

Lemma evolve_fresh_lattice_witness :
  ∃ evolved,
    evolve unit (λ _, ∅) (λ field, field) (λ _, tt) still_center
      (set_lattice unit [[[5%Q]]] one_agent) = inr evolved
    ∧ lattice unit evolved = [[[5%Q]]].
Proof.
  apply (evolve_fresh_lattice (λ _, ∅) (λ field, field) (λ _, tt) still_center
           {[ "GLC"%string := 5%Q ]} one_agent).
  - simpl. lia.
  - reflexivity.
  - exact one_agent_registered.
  - intros molecule_id concentration [_ <-]%lookup_singleton_Some. by vm_compute.
  - reflexivity.
Defined.

(** The one-patch environment at time 5, with a timeline that changes the
    media at time 10. *)
Definition timed_patch : EnvironmentSpatialLattice unit := {|
  _time := 5; _timestep := 1; run_for := 5; edge_length := 10;
  patches_per_edge := 1; static_concentrations := false;
  diffusion := 1 # 10;
  timeline := Some [(0%Q, "minimal"%string); (10%Q, "rich"%string)];
  media_id := "minimal";
  patch_volume := 3 # 10 ^ 10; dx2 := 100;
  _molecule_ids := ["GLC"%string];
  lattice := [[[1%Q]]];
  simulations := ∅;
  locations := {[ "agent"%string := (5%Q, 5%Q, 0%Q) ]};
  motile_forces := ∅;
  multicell_physics := tt
|}.

Lemma update_media_outcome_witness :
  update_media unit (λ _, ∅) timed_patch = inr timed_patch.
Proof.
  destruct (update_media_outcome (λ _, ∅) timed_patch
              (0%Q, "minimal"%string) [(10%Q, "rich"%string)] eq_refl)
    as [_ Hcurrent].
  apply (Hcurrent [] (0%Q, "minimal"%string) [(10%Q, "rich"%string)]).
  - reflexivity.
  - by vm_compute.
  - intros e ->%list_elem_of_singleton. by vm_compute.
  - reflexivity.
Defined.

Lemma apply_inner_update_no_exchange_witness :
  let N_A := (602214076 * 10 ^ 15 # 1)%Q in
  ∃ self', apply_inner_update unit N_A uptake (-1) one_patch = inr self'
           ∧ lattice unit self' = [[[1%Q]]]
           ∧ simulations unit self' = uptake ∪ ∅.
Proof.
  cbv zeta. apply (apply_inner_update_no_exchange _ uptake (-1)%Q one_patch).
  right. intros agent_id sim Hsim.
  change (simulations unit one_patch) with (∅ : gmap string simulation) in Hsim.
  rewrite (right_id_L ∅ (∪)) in Hsim.
  unfold uptake in Hsim. apply lookup_singleton_Some in Hsim as [_ <-]. by vm_compute.
Defined.

Lemma apply_inner_update_removed_agent_witness :
  let N_A := (602214076 * 10 ^ 15 # 1)%Q in
  ∃ e, apply_inner_update unit N_A uptake 0 (remove_simulation "agent" one_patch) = inl e.
Proof.
  cbv zeta.
  apply (apply_inner_update_removed_agent _ uptake 0%Q "agent"
           {| sim_time := 0; sim_volume := 1; sim_motile_force := None;
              sim_environment_change := [("GLC"%string, - (10 ^ 15 # 1))%Q] |}
           one_patch).
  - reflexivity.
  - reflexivity.
  - by vm_compute.
Defined.

Lemma simulation_parameters_latest_witness :
  ∃ time,
    simulation_parameters "agent" (set_simulations unit uptake (set_time unit 7 one_patch))
    = Some time
    ∧ (7 <= time)%Q.
Proof.
  destruct (simulation_parameters_latest "agent"
              (set_simulations unit uptake (set_time unit 7 one_patch)))
    as [_ Hlatest].
  destruct Hlatest as (time & Htime & Hle & _).
  - simpl. apply insert_non_empty.
  - exists time. split; [exact Htime|exact Hle].
Defined.

(** ** The boundaries of the lattice *)






(** ** What an agent is told after an exchange *)

(** [molecule[x, y]] *)
Definition cell (x y : Z) (molecule : list (list Q)) : option Q :=
  i ← np_index (length molecule) x;
  row ← molecule !! i;
  j ← np_index (length row) y;
  row !! j.

(** [self.lattice[:, x, y]] *)
Definition column (lattice : list (list (list Q))) (x y : Z) : option (list Q) :=
  mapM (cell x y) lattice.

Section Exchange.
Context {Physics : Type}.
Variable N_AVOGADRO : Q.

#[local] Arguments patches_per_edge {Physics} _.
#[local] Arguments edge_length {Physics} _.
#[local] Arguments patch_volume {Physics} _.
#[local] Arguments static_concentrations {Physics} _.
#[local] Arguments _molecule_ids {Physics} _.
#[local] Arguments lattice {Physics} _.
#[local] Arguments locations {Physics} _.
#[local] Arguments set_lattice {Physics} _ _.
#[local] Arguments set_motile_forces {Physics} _ _.
#[local] Arguments count_to_concentration {Physics} _ _ _.
#[local] Arguments apply_simulation {Physics} _ _ _ _ _.

(** The concentrations that [generate_outer_update] reports to an agent:
    [dict(zip(self._molecule_ids, self.lattice[:, patch_site[0], patch_site[1]]))]
    at the patch of the agent's location, as the items of that dict. *)
Definition concentrations_at (agent_id : string)
    (self : EnvironmentSpatialLattice Physics) : error + list (string * Q) :=
  '(x, y, _) ← or_raise (KeyError agent_id) (locations self !! agent_id);
  let patch_x := Qfloor (x * inject_Z (Z.of_nat (patches_per_edge self)) / edge_length self) in
  let patch_y := Qfloor (y * inject_Z (Z.of_nat (patches_per_edge self)) / edge_length self) in
  concentrations ← or_raise IndexError (column (lattice self) patch_x patch_y);
  inr (zip (_molecule_ids self) concentrations).

Lemma molecule_index_lookup molecule_ids molecule index :
  molecule_index molecule_ids molecule = Some index →
  molecule_ids !! index = Some molecule.
Proof.
  revert index. induction molecule_ids as [|m molecule_ids IH]; intros index; simpl; [done|].
  destruct (molecule_index molecule_ids molecule) as [index'|].
  - intros [= <-]. by apply IH.
  - destruct (String.eqb m molecule) eqn:Heq; [|done].
    apply String.eqb_eq in Heq as ->. by intros [= <-].
Qed.

Lemma add_at_patch_column index x y concentration lattice lattice' concentrations :
  add_at_patch index x y concentration lattice = inr lattice' →
  column lattice x y = Some concentrations →
  ∃ value, concentrations !! index = Some value
           ∧ column lattice' x y
             = Some (<[index := (value + concentration)%Q]> concentrations).
Proof.
  unfold add_at_patch, column. rewrite !mapM_Some.
  destruct (lattice !! index) as [molecule|] eqn:Hmolecule; simpl; [|done].
  destruct (np_index (length molecule) x) as [i|] eqn:Hi; simpl; [|done].
  destruct (molecule !! i) as [row|] eqn:Hrow; simpl; [|done].
  destruct (np_index (length row) y) as [j|] eqn:Hj; simpl; [|done].
  destruct (row !! j) as [value|] eqn:Hvalue; simpl; [|done].
  intros [= <-] Hcolumn.
  destruct (Forall2_lookup_l _ _ _ _ _ Hcolumn Hmolecule) as (value' & Hindex & Hcell).
  assert (value' = value) as ->.
  { unfold cell in Hcell. rewrite Hi in Hcell; simpl in Hcell.
    rewrite Hrow in Hcell; simpl in Hcell. rewrite Hj in Hcell; simpl in Hcell.
    congruence. }
  exists value. split; [done|].
  apply mapM_Some, Forall2_insert; [done|].
  unfold cell. rewrite length_insert, Hi. simpl.
  rewrite list_lookup_insert_eq by by eapply lookup_lt_Some. simpl.
  rewrite length_insert, Hj. simpl.
  by rewrite list_lookup_insert_eq by by eapply lookup_lt_Some.
Qed.

(** The loop of [apply_inner_update] over the environment change of one
    simulation, seen from the patch that it writes. *)
Lemma changes_column (self : EnvironmentSpatialLattice Physics) x y
    (changes : list (string * Q)) : ∀ lattice lattice' concentrations,
  NoDup (_molecule_ids self) → NoDup changes.*1 →
  foldl (λ acc '(molecule, count),
           lattice ← acc;
           index ← or_raise (KeyError molecule)
                      (molecule_index (_molecule_ids self) molecule);
           add_at_patch index x y (count_to_concentration N_AVOGADRO self count) lattice)
        (inr lattice) changes = inr lattice' →
  column lattice x y = Some concentrations →
  ∃ concentrations',
    column lattice' x y = Some concentrations'
    ∧ length concentrations' = length concentrations
    ∧ ∀ index molecule,
        _molecule_ids self !! index = Some molecule →
        concentrations' !! index
        = match (list_to_map changes : gmap string Q) !! molecule with
          | Some count =>
            (λ value, (value + count_to_concentration N_AVOGADRO self count)%Q)
              <$> concentrations !! index
          | None => concentrations !! index
          end.
Proof.
  induction changes as [|[molecule count] changes IH];
    intros lattice lattice' concentrations Hids Hchanges; simpl.
  - intros [= <-] Hcolumn. exists concentrations. split; [done|]. split; [done|].
    intros index m _. by rewrite lookup_empty.
  - apply NoDup_cons in Hchanges as [Hfresh Hchanges].
    destruct (molecule_index (_molecule_ids self) molecule) as [index|] eqn:Hindex; simpl.
    2: { intros Hraised. exfalso. revert Hraised. clear.
         induction changes as [|[m c] changes IH]; [done|]. simpl. apply IH. }
    destruct (add_at_patch index x y _ lattice) as [e|lattice1] eqn:Hadd.
    { intros Hraised. exfalso. revert Hraised. clear.
      induction changes as [|[m c] changes IH]; [done|]. simpl. apply IH. }
    intros Hrest Hcolumn.
    destruct (add_at_patch_column _ _ _ _ _ _ _ Hadd Hcolumn) as (value & Hvalue & Hcolumn1).
    destruct (IH _ _ _ Hids Hchanges Hrest Hcolumn1) as (concentrations' & Hcolumn' & Hlength & Hlookup).
    exists concentrations'. split; [done|]. split; [by rewrite Hlength, length_insert|].
    intros index' m Hm. rewrite (Hlookup _ _ Hm).
    apply molecule_index_lookup in Hindex.
    destruct (decide (molecule = m)) as [->|Hne].
    + assert (index' = index) as -> by (by apply (NoDup_lookup _ _ _ m Hids)).
      rewrite lookup_insert_eq.
      rewrite (not_elem_of_list_to_map_1 _ m) by done.
      rewrite list_lookup_insert_eq by by eapply lookup_lt_Some.
      by rewrite Hvalue.
    + rewrite lookup_insert_ne by done.
      assert (index ≠ index') by congruence.
      by rewrite list_lookup_insert_ne by done.
Qed.

(** The exchange of one agent with the lattice, read back.  After the
    loop body of [apply_inner_update] has merged the environment change
    of a simulation whose time has come into a lattice of concentrations
    that are not static, the concentrations that [generate_outer_update]
    reports to that agent are the ones of before, each molecule of the
    environment change risen by [count_to_concentration] of its count
    and the other molecules unchanged. *)
Theorem exchange_reported now agent_id simulation
    (self self' : EnvironmentSpatialLattice Physics) before :
  static_concentrations self = false →
  (sim_time simulation <= now)%Q →
  NoDup (_molecule_ids self) →
  NoDup (sim_environment_change simulation).*1 →
  concentrations_at agent_id self = inr before →
  apply_simulation N_AVOGADRO now agent_id simulation self = inr self' →
  concentrations_at agent_id self'
  = inr ((λ item : string * Q,
            (item.1,
             match (list_to_map (sim_environment_change simulation) : gmap string Q)
                   !! item.1 with
             | Some count => (item.2 + count_to_concentration N_AVOGADRO self count)%Q
             | None => item.2
             end)) <$> before).
Proof.
  intros Hstatic Hdue%Qle_bool_iff Hids Hchanges.
  unfold concentrations_at, apply_simulation. rewrite Hdue.
  set (self1 := match sim_motile_force simulation with
                | Some force => _ | None => self end).
  assert (Hsame : locations self1 = locations self ∧ lattice self1 = lattice self
                  ∧ static_concentrations self1 = static_concentrations self
                  ∧ patches_per_edge self1 = patches_per_edge self
                  ∧ edge_length self1 = edge_length self
                  ∧ _molecule_ids self1 = _molecule_ids self
                  ∧ patch_volume self1 = patch_volume self)
    by (subst self1; by destruct (sim_motile_force simulation)).
  destruct Hsame as (Hloc & Hlat & Hst & Hp & He & Hm & Hv).
  rewrite Hst, Hstatic, Hloc, Hlat, Hp, He, Hm.
  destruct (locations self !! agent_id) as [[[x y] angle]|] eqn:Hagent;
    unfold or_raise, mbind, result_bind; cbv beta iota zeta; [|done].
  set (patch_x := Qfloor (x * inject_Z (Z.of_nat (patches_per_edge self)) / edge_length self)).
  set (patch_y := Qfloor (y * inject_Z (Z.of_nat (patches_per_edge self)) / edge_length self)).
  destruct (column (lattice self) patch_x patch_y) as [concentrations|] eqn:Hcolumn;
    [|done].
  intros [= <-].
  match goal with
  | |- match ?fold with inl _ => _ | inr _ => _ end = _ → _ =>
    destruct fold as [e|lattice'] eqn:Hfold; [done|]
  end.
  intros [= <-].
  change (locations (set_lattice lattice' self1)) with (locations self1).
  change (patches_per_edge (set_lattice lattice' self1)) with (patches_per_edge self1).
  change (edge_length (set_lattice lattice' self1)) with (edge_length self1).
  change (_molecule_ids (set_lattice lattice' self1)) with (_molecule_ids self1).
  change (lattice (set_lattice lattice' self1)) with lattice'.
  rewrite Hloc, Hagent, Hp, He, Hm. fold patch_x patch_y.
  destruct (changes_column self patch_x patch_y (sim_environment_change simulation)
              (lattice self) lattice' concentrations Hids Hchanges)
    as (concentrations' & -> & Hlength & Hlookup); [|done|].
  { unfold count_to_concentration in Hfold |- *. rewrite Hv in Hfold. exact Hfold. }
  cbv beta iota. f_equal. apply list_eq. intros index.
  rewrite list_lookup_fmap, !lookup_zip_with.
  destruct (_molecule_ids self !! index) as [molecule|] eqn:Hmolecule; simpl; [|done].
  rewrite (Hlookup _ _ Hmolecule).
  destruct (concentrations !! index) as [value|]; simpl;
    by destruct (list_to_map _ !! molecule).
Qed.
End Exchange.

Lemma exchange_reported_witness :
  let N_A := (602214076 * 10 ^ 15 # 1)%Q in
  let simulation := {| sim_time := 0; sim_volume := 1; sim_motile_force := None;
                       sim_environment_change := [("GLC"%string, - (10 ^ 15 # 1))%Q] |} in
  ∃ self',
    apply_simulation unit N_A 0 "agent" simulation one_patch = inr self'
    ∧ concentrations_at "agent" self'
      = inr [("GLC"%string,
              (1 + count_to_concentration unit N_A one_patch (- (10 ^ 15 # 1)))%Q)].
Proof.
  cbv zeta.
  destruct (apply_simulation unit (602214076 * 10 ^ 15 # 1)%Q 0 "agent"
              {| sim_time := 0; sim_volume := 1; sim_motile_force := None;
                 sim_environment_change := [("GLC"%string, - (10 ^ 15 # 1))%Q] |}
              one_patch) as [e|self'] eqn:Happly; [by vm_compute in Happly|].
  exists self'. split; [done|].
  apply (exchange_reported (602214076 * 10 ^ 15 # 1)%Q 0%Q "agent"
           {| sim_time := 0; sim_volume := 1; sim_motile_force := None;
              sim_environment_change := [("GLC"%string, - (10 ^ 15 # 1))%Q] |}
           one_patch self' [("GLC"%string, 1%Q)]).
  - reflexivity.
  - by vm_compute.
  - apply NoDup_singleton.
  - apply NoDup_singleton.
  - by vm_compute.
  - exact Happly.
Defined.

End Lattice.

(* ===================================================================== *)
(** * environment/surrogates/transport_kinetics.py *)
(* ===================================================================== *)

Module TransportKinetics.
Import Num Results Loop.

Inductive error := KeyError (key : string).

(** The fields of a [TransportKinetics] surrogate that [run_incremental]
    reads or writes; [all_transport_reactions] holds the stoichiometry of
    each reaction. *)
Record TransportKinetics := {
  initial_time : Q;
  local_time : Q;
  timestep : Q;
  environment_change : gmap string Q;
  volume : Q;
  nAvogadro : Q;
  all_transport_reactions : gmap string (gmap string Q);
  molecule_to_external_map : gmap string string;
  concentrations : gmap string Q;
  transport_fluxes : gmap string Q
}.

(** [self.local_time = ...] *)
Definition set_local_time (local_time' : Q)
    (self : TransportKinetics) : TransportKinetics := {|
  initial_time := initial_time self;
  local_time := local_time';
  timestep := timestep self;
  environment_change := environment_change self;
  volume := volume self;
  nAvogadro := nAvogadro self;
  all_transport_reactions := all_transport_reactions self;
  molecule_to_external_map := molecule_to_external_map self;
  concentrations := concentrations self;
  transport_fluxes := transport_fluxes self
|}.

(** [self.transport_fluxes = ...] *)
Definition set_transport_fluxes (transport_fluxes' : gmap string Q)
    (self : TransportKinetics) : TransportKinetics := {|
  initial_time := initial_time self;
  local_time := local_time self;
  timestep := timestep self;
  environment_change := environment_change self;
  volume := volume self;
  nAvogadro := nAvogadro self;
  all_transport_reactions := all_transport_reactions self;
  molecule_to_external_map := molecule_to_external_map self;
  concentrations := concentrations self;
  transport_fluxes := transport_fluxes'
|}.

(** [self.environment_change[molecule_id] = ...] *)
Definition set_environment_change (environment_change' : gmap string Q)
    (self : TransportKinetics) : TransportKinetics := {|
  initial_time := initial_time self;
  local_time := local_time self;
  timestep := timestep self;
  environment_change := environment_change';
  volume := volume self;
  nAvogadro := nAvogadro self;
  all_transport_reactions := all_transport_reactions self;
  molecule_to_external_map := molecule_to_external_map self;
  concentrations := concentrations self;
  transport_fluxes := transport_fluxes self
|}.

(** [delta_counts[substrate] += delta], or [= delta] for a new substrate. *)
Definition add_delta (substrate : string) (delta : Q) (delta_counts : gmap string Q)
    : gmap string Q :=
  match delta_counts !! substrate with
  | Some current => <[substrate := (current + delta)%Q]> delta_counts
  | None => <[substrate := delta]> delta_counts
  end.

(** [flux_to_counts(fluxes)] *)
Definition flux_to_counts (self : TransportKinetics) (fluxes : gmap string Q)
    : error + gmap string Q :=
  let millimolar_to_counts :=
    ((nAvogadro self * (1 # 1000)) * (volume self * (1 # 10 ^ 15)))%Q in
  map_fold (λ reaction_id flux acc,
              delta_counts ← acc;
              let rxn_count := (millimolar_to_counts * flux)%Q in
              stoichiometry ← or_raise (KeyError reaction_id)
                                 (all_transport_reactions self !! reaction_id);
              inr (map_fold (λ substrate coeff delta_counts,
                               add_delta substrate (coeff * rxn_count)%Q delta_counts)
                            delta_counts stoichiometry))
           (inr ∅) fluxes.

(** [accumulate_deltas(environment_deltas)]:
    [self.environment_change[molecule_id] += count]. *)
Definition accumulate_deltas (environment_deltas : gmap string Q)
    (self : TransportKinetics) : error + TransportKinetics :=
  map_fold (λ molecule_id count acc,
              self ← acc;
              current ← or_raise (KeyError molecule_id)
                           (environment_change self !! molecule_id);
              inr (set_environment_change
                     (<[molecule_id := (current + count)%Q]> (environment_change self))
                     self))
           (inr self) environment_deltas.

Section Surrogate.
(** [self.kinetic_rate_laws.get_fluxes(concentrations)], from
    [utils.kinetic_rate_laws.KineticFluxModel]. *)
Variable get_fluxes : gmap string Q → gmap string Q.

(** [update_state] *)
Definition update_state (self : TransportKinetics) : error + TransportKinetics :=
  let self := set_transport_fluxes (get_fluxes (concentrations self)) self in
  delta_counts ← flux_to_counts self (transport_fluxes self);
  let environment_deltas :=
    map_fold (λ molecule_id delta environment_deltas,
                match molecule_to_external_map self !! molecule_id with
                | Some external_molecule_id =>
                  <[external_molecule_id := delta]> environment_deltas
                | None => environment_deltas
                end)
             ∅ delta_counts in
  accumulate_deltas environment_deltas self.

(** [+] on the floats of the clock. *)
Variable float_add : Q → Q → Q.

(** [run_incremental(run_until)]:
    [while self.time() < run_until:
       self.local_time += self.timestep; self.update_state()];
    the pause that follows the loop takes no simulated time.  The first
    component of the result lists the times at which [update_state] was
    invoked. *)
Definition run_incremental (fuel : nat) (run_until : Q) (self : TransportKinetics)
    : list Q * outcome TransportKinetics error :=
  run local_time (λ self, set_local_time (float_add (local_time self) (timestep self)) self)
      update_state fuel run_until self.

(** ** [update_state] leaves the clock alone *)

Lemma accumulate_deltas_clock environment_deltas self self' :
  accumulate_deltas environment_deltas self = inr self' →
  local_time self' = local_time self ∧ timestep self' = timestep self.
Proof.
  unfold accumulate_deltas. revert self'.
  apply (map_fold_weak_ind
           (λ (r : error + TransportKinetics) (_ : gmap string Q),
              ∀ self', r = inr self' →
                local_time self' = local_time self ∧ timestep self' = timestep self)).
  - by intros self' [= <-].
  - intros molecule_id count deltas r _ IH self'.
    destruct r as [|self1]; simpl; [done|].
    destruct (environment_change self1 !! molecule_id); simpl; [|done].
    intros [= <-]. simpl. by apply IH.
Qed.

Lemma update_state_clock self self' :
  update_state self = inr self' →
  local_time self' = local_time self ∧ timestep self' = timestep self.
Proof.
  unfold update_state.
  destruct (flux_to_counts _ _) as [|delta_counts]; simpl; [done|].
  intros H. by apply accumulate_deltas_clock in H.
Qed.
End Surrogate.

(** ** Accumulating the deltas *)

(** All the fields but [environment_change]. *)
Definition same_but_environment_change (self self' : TransportKinetics) : Prop :=
  initial_time self' = initial_time self
  ∧ local_time self' = local_time self
  ∧ timestep self' = timestep self
  ∧ volume self' = volume self
  ∧ nAvogadro self' = nAvogadro self
  ∧ all_transport_reactions self' = all_transport_reactions self
  ∧ molecule_to_external_map self' = molecule_to_external_map self
  ∧ concentrations self' = concentrations self
  ∧ transport_fluxes self' = transport_fluxes self.

(** What the loop of [accumulate_deltas] has reached after the deltas
    [done]: either every delta so far was added to its entry, or a delta
    met a molecule without entry. *)
Definition accumulated (self : TransportKinetics) (done : gmap string Q)
    (result : error + TransportKinetics) : Prop :=
  match result with
  | inr self' =>
    (∀ molecule_id, is_Some (done !! molecule_id) →
       is_Some (environment_change self !! molecule_id))
    ∧ (∀ molecule_id,
         environment_change self' !! molecule_id
         = match done !! molecule_id with
           | Some count =>
             (λ current, (current + count)%Q) <$> environment_change self !! molecule_id
           | None => environment_change self !! molecule_id
           end)
    ∧ same_but_environment_change self self'
  | inl (KeyError molecule_id) =>
    is_Some (done !! molecule_id) ∧ environment_change self !! molecule_id = None
  end.

Lemma accumulate_deltas_accumulated environment_deltas self :
  accumulated self environment_deltas (accumulate_deltas environment_deltas self).
Proof.
  unfold accumulate_deltas. apply (map_fold_weak_ind (λ r m, accumulated self m r)).
  - split; [by intros m [? ?]|]. split; [done|]. by repeat split.
  - intros molecule_id count m r Hfresh IH.
    destruct r as [[k]|self1]; simpl in *.
    + destruct IH as [Hk Hnone]. split; [|done].
      apply lookup_insert_is_Some. destruct (decide (molecule_id = k)); auto.
    + destruct IH as (Hdom & Hlookup & Hsame).
      pose proof (Hlookup molecule_id) as Hcur. rewrite Hfresh in Hcur.
      destruct (environment_change self1 !! molecule_id) as [current|] eqn:Hc; simpl.
      * split; [|split].
        -- intros k [Hk|[_ Hk]]%lookup_insert_is_Some; [|by apply Hdom].
           subst k. rewrite <- Hcur. eauto.
        -- intros k. destruct (decide (molecule_id = k)) as [<-|Hne].
           ++ rewrite !lookup_insert_eq, <- Hcur. done.
           ++ rewrite !lookup_insert_ne by done. apply Hlookup.
        -- exact Hsame.
      * split; [by rewrite lookup_insert_eq|done].
Qed.

(** [accumulate_deltas] returns exactly when every molecule of the deltas
    has an entry in [environment_change]; each delta is then added to its
    entry, the other entries and fields staying as they were.  A delta
    for a molecule without entry is a [KeyError] for such a molecule. *)
Theorem accumulate_deltas_outcome environment_deltas self :
  ((∀ molecule_id, is_Some (environment_deltas !! molecule_id) →
      is_Some (environment_change self !! molecule_id)) →
   ∃ self', accumulate_deltas environment_deltas self = inr self'
     ∧ same_but_environment_change self self'
     ∧ ∀ molecule_id,
         environment_change self' !! molecule_id
         = match environment_deltas !! molecule_id with
           | Some count =>
             (λ current, (current + count)%Q) <$> environment_change self !! molecule_id
           | None => environment_change self !! molecule_id
           end)
  ∧ (∀ molecule_id, is_Some (environment_deltas !! molecule_id) →
       environment_change self !! molecule_id = None →
       ∃ molecule_id',
         accumulate_deltas environment_deltas self = inl (KeyError molecule_id')
         ∧ is_Some (environment_deltas !! molecule_id')
         ∧ environment_change self !! molecule_id' = None).
Proof.
  pose proof (accumulate_deltas_accumulated environment_deltas self) as Hacc.
  destruct (accumulate_deltas environment_deltas self) as [[k]|self'] eqn:Hresult;
    simpl in Hacc.
  - destruct Hacc as [Hk Hnone]. split.
    + intros Hall. apply Hall in Hk. rewrite Hnone in Hk. by destruct Hk.
    + intros _ _ _. by exists k.
  - destruct Hacc as (Hdom & Hlookup & Hsame). split.
    + intros _. by exists self'.
    + intros m Hm Hnone. apply Hdom in Hm. rewrite Hnone in Hm. by destruct Hm.
Qed.

(** ** From fluxes to counts *)

(** The substrates of a stoichiometry are added to the keys of
    [delta_counts]. *)
Lemma add_deltas_keys (rxn_count : Q) (delta_counts stoichiometry : gmap string Q) substrate :
  is_Some (map_fold (λ substrate coeff delta_counts,
                       add_delta substrate (coeff * rxn_count)%Q delta_counts)
                    delta_counts stoichiometry !! substrate)
  ↔ is_Some (delta_counts !! substrate) ∨ is_Some (stoichiometry !! substrate).
Proof.
  apply (map_fold_weak_ind (λ r m,
    is_Some (r !! substrate) ↔ is_Some (delta_counts !! substrate) ∨ is_Some (m !! substrate))).
  - rewrite lookup_empty. split; [by left|]. by intros [?|[? ?]].
  - intros s coeff m r Hfresh IH. unfold add_delta.
    destruct (r !! s) as [current|]; rewrite !lookup_insert_is_Some', IH; tauto.
Qed.

(** What the loop of [flux_to_counts] has reached after the fluxes
    [done]. *)
Definition counted (self : TransportKinetics) (done : gmap string Q)
    (result : error + gmap string Q) : Prop :=
  match result with
  | inr delta_counts =>
    (∀ reaction_id, is_Some (done !! reaction_id) →
       is_Some (all_transport_reactions self !! reaction_id))
    ∧ (∀ substrate,
         is_Some (delta_counts !! substrate)
         ↔ ∃ reaction_id stoichiometry,
             is_Some (done !! reaction_id)
             ∧ all_transport_reactions self !! reaction_id = Some stoichiometry
             ∧ is_Some (stoichiometry !! substrate))
  | inl (KeyError reaction_id) =>
    is_Some (done !! reaction_id) ∧ all_transport_reactions self !! reaction_id = None
  end.

Lemma flux_to_counts_counted self fluxes :
  counted self fluxes (flux_to_counts self fluxes).
Proof.
  unfold flux_to_counts. apply (map_fold_weak_ind (λ r m, counted self m r)).
  - split; [by intros r [? ?]|]. intros s. rewrite lookup_empty. split; [by intros [? ?]|].
    by intros (r & st & [? ?] & _).
  - intros reaction_id flux m r Hfresh IH.
    destruct r as [[k]|delta_counts]; simpl in *.
    + destruct IH as [Hk Hnone]. split; [|done].
      apply lookup_insert_is_Some. destruct (decide (reaction_id = k)); auto.
    + destruct IH as [Hdom Hkeys].
      destruct (all_transport_reactions self !! reaction_id) as [stoichiometry|] eqn:Hr;
        simpl; [|by rewrite lookup_insert_eq].
      split.
      * intros k [Hk|[_ Hk]]%lookup_insert_is_Some; [|by apply Hdom].
        subst k. by rewrite Hr.
      * intros s. rewrite add_deltas_keys, Hkeys. split.
        -- intros [(r & st & Hflux & Hst & Hs)|Hs].
           ++ exists r, st. split; [|done].
              apply lookup_insert_is_Some'. by right.
           ++ exists reaction_id, stoichiometry. by rewrite lookup_insert_eq.
        -- intros (r & st & Hflux & Hst & Hs).
           apply lookup_insert_is_Some in Hflux as [<-|[Hne Hflux]].
           ++ right. by rewrite Hr in Hst; injection Hst as <-.
           ++ left. by exists r, st.
Qed.

(** [flux_to_counts] returns exactly when every reaction with a flux has a
    stoichiometry; the molecules it gives counts for are then the
    substrates of these reactions, no other.  A flux of a reaction that
    has no stoichiometry is a [KeyError] for such a reaction. *)
Theorem flux_to_counts_outcome self fluxes :
  ((∀ reaction_id, is_Some (fluxes !! reaction_id) →
      is_Some (all_transport_reactions self !! reaction_id)) →
   ∃ delta_counts, flux_to_counts self fluxes = inr delta_counts
     ∧ ∀ substrate,
         is_Some (delta_counts !! substrate)
         ↔ ∃ reaction_id stoichiometry,
             is_Some (fluxes !! reaction_id)
             ∧ all_transport_reactions self !! reaction_id = Some stoichiometry
             ∧ is_Some (stoichiometry !! substrate))
  ∧ (∀ reaction_id, is_Some (fluxes !! reaction_id) →
       all_transport_reactions self !! reaction_id = None →
       ∃ reaction_id',
         flux_to_counts self fluxes = inl (KeyError reaction_id')
         ∧ is_Some (fluxes !! reaction_id')
         ∧ all_transport_reactions self !! reaction_id' = None).
Proof.
  pose proof (flux_to_counts_counted self fluxes) as Hc.
  destruct (flux_to_counts self fluxes) as [[k]|delta_counts] eqn:Hresult; simpl in Hc.
  - destruct Hc as [Hk Hnone]. split.
    + intros Hall. apply Hall in Hk. rewrite Hnone in Hk. by destruct Hk.
    + intros _ _ _. by exists k.
  - destruct Hc as [Hdom Hkeys]. split.
    + intros _. by exists delta_counts.
    + intros r Hr Hnone. apply Hdom in Hr. rewrite Hnone in Hr. by destruct Hr.
Qed.

(** ** The first step of a surrogate *)

(** The external molecules that [update_state] collects deltas for. *)
Lemma environment_deltas_keys (molecule_to_external_map : gmap string string)
    (delta_counts : gmap string Q) external_molecule_id :
  is_Some (map_fold (λ molecule_id delta environment_deltas,
                       match molecule_to_external_map !! molecule_id with
                       | Some external_molecule_id =>
                         <[external_molecule_id := delta]> environment_deltas
                       | None => environment_deltas
                       end)
                    (∅ : gmap string Q) delta_counts !! external_molecule_id)
  ↔ ∃ molecule_id, is_Some (delta_counts !! molecule_id)
                   ∧ molecule_to_external_map !! molecule_id = Some external_molecule_id.
Proof.
  apply (map_fold_weak_ind (λ (r : gmap string Q) (m : gmap string Q),
    is_Some (r !! external_molecule_id)
    ↔ ∃ molecule_id, is_Some (m !! molecule_id)
                     ∧ molecule_to_external_map !! molecule_id = Some external_molecule_id)).
  - rewrite lookup_empty. split; [by intros [? ?]|]. by intros (m & [? ?] & _).
  - intros molecule_id delta m r Hfresh IH.
    destruct (molecule_to_external_map !! molecule_id) as [e|] eqn:He.
    + rewrite lookup_insert_is_Some', IH. split.
      * intros [->|(m' & Hm' & He')].
        -- exists molecule_id. by rewrite lookup_insert_eq.
        -- exists m'. split; [|done]. apply lookup_insert_is_Some'. by right.
      * intros (m' & Hm' & He').
        apply lookup_insert_is_Some in Hm' as [<-|[Hne Hm']].
        -- left. congruence.
        -- right. by exists m'.
    + rewrite IH. split.
      * intros (m' & Hm' & He'). exists m'. split; [|done].
        apply lookup_insert_is_Some'. by right.
      * intros (m' & Hm' & He').
        apply lookup_insert_is_Some in Hm' as [<-|[Hne Hm']]; [congruence|].
        by exists m'.
Qed.

Section FirstStep.
Variable get_fluxes : gmap string Q → gmap string Q.

(** [update_state] adds to the entries of [environment_change] and makes
    none: a surrogate whose [environment_change] is still empty, as the
    constructor leaves it until the first [apply_outer_update], raises a
    [KeyError] in [update_state] as soon as a reaction with a flux has a
    substrate that is mapped to an external molecule. *)
Theorem update_state_before_outer_update self reaction_id stoichiometry substrate
    external_molecule_id :
  environment_change self = ∅ →
  is_Some (get_fluxes (concentrations self) !! reaction_id) →
  all_transport_reactions self !! reaction_id = Some stoichiometry →
  is_Some (stoichiometry !! substrate) →
  molecule_to_external_map self !! substrate = Some external_molecule_id →
  ∃ key, update_state get_fluxes self = inl (KeyError key).
Proof.
  intros Hempty Hflux Hreaction Hsubstrate Hexternal. unfold update_state.
  set (self1 := set_transport_fluxes (get_fluxes (concentrations self)) self).
  pose proof (flux_to_counts_counted self1 (transport_fluxes self1)) as Hcounted.
  destruct (flux_to_counts self1 (transport_fluxes self1)) as [[k]|delta_counts];
    simpl in *; [by exists k|].
  destruct Hcounted as [_ Hkeys].
  set (environment_deltas := map_fold _ _ delta_counts).
  assert (Hdelta : is_Some (environment_deltas !! external_molecule_id)).
  { apply environment_deltas_keys. exists substrate. split; [|done].
    apply Hkeys. by exists reaction_id, stoichiometry. }
  destruct (accumulate_deltas_outcome environment_deltas self1) as [_ Hraise].
  destruct (Hraise external_molecule_id Hdelta) as (key & -> & _).
  - simpl. by rewrite Hempty.
  - by exists key.
Qed.
End FirstStep.

(** ** A surrogate with one transport reaction *)

(** The uptake of glucose from the periplasm, which is mapped to the
    glucose of the environment. *)
Definition example_surrogate : TransportKinetics := {|
  initial_time := 0; local_time := 0; timestep := 1;
  environment_change := {[ "GLC"%string := 0%Q ]};
  volume := 1; nAvogadro := 602214076 * 10 ^ 15 # 1;
  all_transport_reactions :=
    {[ "uptake"%string := {[ "GLC[p]"%string := (-1)%Q; "GLC[c]"%string := 1%Q ]} ]};
  molecule_to_external_map := {[ "GLC[p]"%string := "GLC"%string ]};
  concentrations := {[ "GLC[p]"%string := 1%Q ]};
  transport_fluxes := ∅
|}.

Lemma accumulate_deltas_outcome_witness :
  ∃ self', accumulate_deltas {[ "GLC"%string := (-3)%Q ]} example_surrogate = inr self'
    ∧ same_but_environment_change example_surrogate self'
    ∧ ∀ molecule_id,
        environment_change self' !! molecule_id
        = match ({[ "GLC"%string := (-3)%Q ]} : gmap string Q) !! molecule_id with
          | Some count =>
            (λ current, (current + count)%Q)
              <$> environment_change example_surrogate !! molecule_id
          | None => environment_change example_surrogate !! molecule_id
          end.
Proof.
  apply (accumulate_deltas_outcome {[ "GLC"%string := (-3)%Q ]} example_surrogate).
  intros molecule_id [count [<- _]%lookup_singleton_Some]. by eexists.
Defined.

Lemma flux_to_counts_outcome_witness :
  ∃ delta_counts,
    flux_to_counts example_surrogate {[ "uptake"%string := 2%Q ]} = inr delta_counts
    ∧ ∀ substrate,
        is_Some (delta_counts !! substrate)
        ↔ ∃ reaction_id stoichiometry,
            is_Some (({[ "uptake"%string := 2%Q ]} : gmap string Q) !! reaction_id)
            ∧ all_transport_reactions example_surrogate !! reaction_id = Some stoichiometry
            ∧ is_Some (stoichiometry !! substrate).
Proof.
  apply (flux_to_counts_outcome example_surrogate {[ "uptake"%string := 2%Q ]}).
  intros reaction_id [flux [<- _]%lookup_singleton_Some]. by eexists.
Defined.

Lemma update_state_before_outer_update_witness :
  ∃ key, update_state (λ _, {[ "uptake"%string := 2%Q ]})
           (set_environment_change ∅ example_surrogate) = inl (KeyError key).
Proof.
  apply (update_state_before_outer_update (λ _, {[ "uptake"%string := 2%Q ]})
           (set_environment_change ∅ example_surrogate)
           "uptake" {[ "GLC[p]"%string := (-1)%Q; "GLC[c]"%string := 1%Q ]}
           "GLC[p]" "GLC").
  - reflexivity.
  - by eexists.
  - reflexivity.
  - by eexists.
  - reflexivity.
Defined.

End TransportKinetics.

(* ===================================================================== *)
(** * The schedule of the run loops *)
(* ===================================================================== *)

Module Scheduling.
Import Num Loop.

(** C5 (as amended).  [run_incremental(run_until)], started at time
    [t0 <= run_until] with a positive time step [d], when the clock adds
    [d] exactly on the way to [run_until]: every invocation of the
    per-step evolution ([evolve] of the lattice, [update_state] of the
    transport surrogate) happens at a time [t0 + k * d], [k = 1, 2, ...];
    the loop ends; when it ends normally the evolution has been invoked
    exactly [ceil((run_until - t0) / d)] times and the simulated time has
    reached [run_until]; when the evolution raises, the loop is left at
    that invocation.  The lattice without a timeline, whose agents with a
    location all have a simulation and a motile force, never raises.
    (Enough fuel is any number above the ceiling.) *)
Theorem run_incremental_schedule :
  (∀ Physics make_recipe convolve_laplacian run_physics get_center float_add
     (self : Lattice.EnvironmentSpatialLattice Physics) (run_until : Q) (fuel : nat),
      (Lattice._time _ self <= run_until)%Q →
      (0 < Lattice._timestep _ self)%Q →
      exact_clock float_add run_until (Lattice._time _ self) (Lattice._timestep _ self) →
      (Z.to_nat (Qceiling ((run_until - Lattice._time _ self) / Lattice._timestep _ self))
       < fuel)%nat →
      on_schedule (Lattice._time Physics) run_until
        (Lattice._time _ self) (Lattice._timestep _ self)
        (Lattice.run_incremental Physics make_recipe convolve_laplacian
           run_physics get_center float_add fuel run_until self)
      ∧ (Lattice.timeline _ self = None → Lattice.registered _ self →
         ∃ self', (Lattice.run_incremental Physics make_recipe convolve_laplacian
                     run_physics get_center float_add fuel run_until self).2
                  = Done self'))
  ∧ (∀ get_fluxes float_add (self : TransportKinetics.TransportKinetics)
       (run_until : Q) (fuel : nat),
      (TransportKinetics.local_time self <= run_until)%Q →
      (0 < TransportKinetics.timestep self)%Q →
      exact_clock float_add run_until
        (TransportKinetics.local_time self) (TransportKinetics.timestep self) →
      (Z.to_nat (Qceiling ((run_until - TransportKinetics.local_time self)
                           / TransportKinetics.timestep self)) < fuel)%nat →
      on_schedule TransportKinetics.local_time run_until
        (TransportKinetics.local_time self) (TransportKinetics.timestep self)
        (TransportKinetics.run_incremental get_fluxes float_add fuel run_until self)).
Proof.
  split.
  - intros Physics make_recipe convolve physics center float_add self run_until fuel
           Hle Hd Hexact Hfuel.
    pose proof (run_on_schedule (Lattice._time Physics) (Lattice._timestep Physics)
                  float_add
                  (λ self, Lattice.set_time _
                             (float_add (Lattice._time _ self) (Lattice._timestep _ self))
                             self)
                  (Lattice.evolve Physics make_recipe convolve physics center)
                  (λ _, eq_refl) (λ _, eq_refl)
                  (λ s s' Hs,
                     let '(conj Ht (conj Hd' _)) :=
                       Lattice.evolve_clock _ _ _ _ _ _ _ Hs in conj Ht Hd')
                  run_until fuel self Hle Hd Hexact Hfuel) as Hschedule.
    split; [exact Hschedule|].
    intros Htl Hregistered. unfold Lattice.run_incremental.
    pose proof (run_not_raised (Lattice._time Physics)
                  (λ self, Lattice.set_time _
                             (float_add (Lattice._time _ self) (Lattice._timestep _ self))
                             self)
                  (Lattice.evolve Physics make_recipe convolve physics center)
                  (λ s, Lattice.timeline _ s = None ∧ Lattice.registered _ s)
                  (λ s Hs, Hs)
                  (λ s Hs, Lattice.evolve_returns _ _ _ _ _ s (proj1 Hs) (proj2 Hs))
                  fuel run_until self) as Hnot.
    destruct Hschedule as [_ Hout].
    destruct (run _ _ _ fuel run_until self).2 as [self'|e|] eqn:Hres.
    + by exists self'.
    + by destruct (Hnot e (conj Htl Hregistered)).
    + done.
  - intros get_fluxes float_add self run_until fuel Hle Hd Hexact Hfuel.
    unfold TransportKinetics.run_incremental.
    apply (run_on_schedule TransportKinetics.local_time TransportKinetics.timestep
             float_add); try done.
    intros s s'. apply TransportKinetics.update_state_clock.
Qed.

(** The lattice on a horizon of 10 with time step 1, from time 0, its
    clock adding as floats do: ten invocations, at the times 1, ..., 10. *)
Lemma run_incremental_schedule_witness :
  let run := Lattice.run_incremental unit (λ _, ∅) (λ field, field)
               (λ _, tt) Lattice.still_center binary64_add
               11 10 Lattice.one_agent in
  on_schedule (Lattice._time unit) 10 0 1 run
  ∧ (∃ self', run.2 = Done self')
  ∧ run.1 = [1; 2; 3; 4; 5; 6; 7; 8; 9; 10]%Q.
Proof.
  cbv zeta.
  destruct run_incremental_schedule as [Hlattice _].
  destruct (Hlattice unit (λ _, ∅) (λ field, field) (λ _, tt) Lattice.still_center
              binary64_add Lattice.one_agent 10%Q 11%nat)
    as [Hschedule Hdone].
  - by vm_compute.
  - by vm_compute.
  - intros k x Hk Hx.
    change (Qceiling _) with 10 in Hk.
    do 10 (destruct k as [|k];
           [apply (binary64_add_exact x 1 _ (proj2 (Qplus_inj_r _ _ 1) Hx)); by vm_compute|]).
    lia.
  - vm_compute. lia.
  - split; [exact Hschedule|].
    split; [apply Hdone; [reflexivity|exact Lattice.one_agent_registered]|].
    by vm_compute.
Defined.

(** ** The clock as floats have it *)

(** The float [0.1]. *)
Definition tenth : Q := 3602879701896397 # 36028797018963968.

(** A transport surrogate without reactions, its clock at [local_time]. *)
Definition idle_surrogate (local_time timestep : Q) : TransportKinetics.TransportKinetics := {|
  TransportKinetics.initial_time := local_time;
  TransportKinetics.local_time := local_time;
  TransportKinetics.timestep := timestep;
  TransportKinetics.environment_change := ∅;
  TransportKinetics.volume := 1;
  TransportKinetics.nAvogadro := 602214076 * 10 ^ 15 # 1;
  TransportKinetics.all_transport_reactions := ∅;
  TransportKinetics.molecule_to_external_map := ∅;
  TransportKinetics.concentrations := ∅;
  TransportKinetics.transport_fluxes := ∅
|}.

(** Without fluxes [update_state] has nothing to accumulate. *)
Lemma update_state_idle self :
  TransportKinetics.update_state (λ _, ∅) self
  = inr (TransportKinetics.set_transport_fluxes ∅ self).
Proof.
  unfold TransportKinetics.update_state, TransportKinetics.flux_to_counts.
  cbn [TransportKinetics.transport_fluxes TransportKinetics.set_transport_fluxes].
  rewrite map_fold_empty. cbn [mbind Results.result_bind].
  rewrite map_fold_empty. unfold TransportKinetics.accumulate_deltas.
  by rewrite map_fold_empty.
Qed.

(** The sums of any addition, from [t] in steps of [d]. *)
Fixpoint sums {A : Type} (add : A → A → A) (n : nat) (t d : A) : list A :=
  match n with
  | O => []
  | S n => add t d :: sums add n (add t d) d
  end.

(** The sums of the clocks below are those of the Standard Library's
    specification of IEEE 754 addition, at the precision and the exponent
    range of a Python float. *)
Lemma binary64_add_agrees :
  Qred (SF2Q (S754_finite false 7205759403792794 (-56))) = tenth
  ∧ Qred <$> (SF2Q <$> sums (SFadd 53 1024) 11 (S754_zero false)
                         (S754_finite false 7205759403792794 (-56)))
    = sums binary64_add 11 0%Q tenth
  ∧ Qred (SF2Q (SFadd 53 1024 (S754_finite false 4503599627370496 1)
                              (S754_finite false 4503599627370496 (-52))))
    = binary64_add (9007199254740992 # 1) 1.
Proof. split; [|split]; by vm_compute. Qed.

(** Off the schedule.  With the time step [0.1] the clock of the
    transport surrogate, started at 0, stands at [0.9999999999999999]
    after ten steps, so that a run until 1 invokes [update_state] an
    eleventh time, at [1.0999999999999999], where
    [ceil((1 - 0) / 0.1)] is 10.  And with the time step [1.0] of the
    constructor a clock started at [2^53] does not move at all,
    [2^53 + 1.0] being [2^53] again: a run until [2^53 + 2] never ends. *)
Lemma float_clock_off_schedule :
  (let run := TransportKinetics.run_incremental (λ _, ∅) binary64_add 20 1
                (idle_surrogate 0 tenth) in
   (0 <= 1)%Q ∧ (0 < tenth)%Q
   ∧ Qceiling ((1 - 0) / tenth) = 10
   ∧ length run.1 = 11%nat
   ∧ run.1 !! 9%nat = Some (9007199254740991 # 9007199254740992)%Q
   ∧ run.1 !! 10%nat = Some (4953959590107545 # 4503599627370496)%Q
   ∧ ∃ self', run.2 = Done self')
  ∧ (∀ fuel,
       let run := TransportKinetics.run_incremental (λ _, ∅) binary64_add fuel
                    (9007199254740994 # 1)%Q
                    (idle_surrogate (9007199254740992 # 1)%Q 1) in
       run.2 = OutOfFuel ∧ length run.1 = fuel).
Proof.
  split.
  - cbv zeta. split; [done|]. split; [done|]. split; [by vm_compute|].
    assert (Hrun : ∃ trace self',
              TransportKinetics.run_incremental (λ _, ∅) binary64_add 20 1
                (idle_surrogate 0 tenth) = (trace, Done self')
              ∧ length trace = 11%nat
              ∧ trace !! 9%nat = Some (9007199254740991 # 9007199254740992)%Q
              ∧ trace !! 10%nat = Some (4953959590107545 # 4503599627370496)%Q).
    { eexists _, _. split; [by vm_compute|]. by vm_compute. }
    destruct Hrun as (trace & self' & -> & Hlen & H9 & H10).
    split; [done|]. split; [done|]. split; [done|]. by exists self'.
  - intros fuel. cbv zeta. unfold TransportKinetics.run_incremental.
    apply (run_stuck TransportKinetics.local_time _ _ (9007199254740994 # 1)%Q
             (λ s, TransportKinetics.local_time s = (9007199254740992 # 1)%Q
                   ∧ TransportKinetics.timestep s = 1%Q)).
    + intros s [-> _]. done.
    + intros s [Htime Hstep]. rewrite update_state_idle. eexists. split; [done|].
      cbn [TransportKinetics.local_time TransportKinetics.timestep
           TransportKinetics.set_transport_fluxes TransportKinetics.set_local_time].
      rewrite Htime, Hstep. split; [by vm_compute|done].
    + done.
Qed.

End Scheduling.

(* ===================================================================== *)
(** * vivarium/processes/transcription.py *)
(* ===================================================================== *)

Module Transcription.
Import Num Results.

Inductive error :=
| IndexError
| KeyError (key : string)
| NoneDomain.  (* the [KeyError] of [set.remove(None)]: [None] is no domain *)

(** How a call ends; [OutOfFuel] belongs to the model only. *)
Inductive outcome (A : Type) :=
| Returned (a : A)
| Raised (e : error)
| OutOfFuel.
Arguments Returned {A} a.
Arguments Raised {A} e.
Arguments OutOfFuel {A}.

(** [int(x)]: the integer towards zero. *)
Definition int (x : Q) : Z := if Qle_bool 0 x then Qfloor x else Qceiling x.

(** [self.elongation = elongation.elongation - int(elongation.elongation)] *)
Definition carry (progress : Q) : Q := (progress - inject_Z (int progress))%Q.

Section Process.
(** The classes of [vivarium.states.chromosome], [vivarium.utils.polymerize]
    and [arrow], and numpy's random generator, are not part of the sources;
    their values and methods are parameters of the model. *)
(** All of a [Chromosome] but its [promoter_order]: sequence, promoters,
    domains and the RNAPs on them. *)
Variable ChromosomeBody : Type.
Variable Rnap : Type.
Variable Elongation : Type.
Variable MonomerLimits : Type.
Variable Sequences : Type.
Variable Polymers : Type.
Variable Rng : Type.

(** A [Chromosome]; the methods below hand back a new body and leave
    [promoter_order] as it is. *)
Record Chromosome := {
  promoter_order : list string;
  body : ChromosomeBody
}.

(** [chromosome.sequences()] *)
Variable sequences_of : Chromosome → Sequences.
(** [chromosome.promoter_rnaps()]: the RNAPs on each promoter, by domain. *)
Variable promoter_rnaps_of : Chromosome → gmap string (gmap Z Rnap).
(** [chromosome.promoter_domains()]: the domains that hold each promoter. *)
Variable promoter_domains_of : Chromosome → gmap string (gset Z).
(** [chromosome.promoter_copy_numbers()] *)
Variable promoter_copy_numbers : Chromosome → list Z.
(** [chromosome.terminator_distance()]: the number of monomers until the
    next terminator. *)
Variable terminator_distance : Chromosome → Z.
(** [chromosome.bind_rnap(promoter_key, domain)]: the chromosome with the
    new RNAP, and that RNAP. *)
Variable bind_rnap : Chromosome → string → Z → ChromosomeBody * Rnap.
(** [rnap.start_transcribing()], seen from the chromosome that holds the RNAP. *)
Variable start_transcribing : Rnap → Chromosome → ChromosomeBody.
(** [rnap.is_bound()] and [rnap.domain] *)
Variable is_bound : Rnap → bool.
Variable rnap_domain : Rnap → Z.
(** [Elongation(sequences, promoters, monomer_limits, elongation)] *)
Variable Elongation_init : Sequences → Chromosome → MonomerLimits → Q → Elongation.
(** [elongation.elongate(now, rate, monomer_limits, chromosome.rnaps)]:
    the terminations, the limits, the chromosome with the new RNAPs, and
    the elongation object afterwards. *)
Variable elongate :
  Elongation → Q → Q → MonomerLimits → Chromosome →
  Z * MonomerLimits * ChromosomeBody * Elongation.
(** [elongation.elongation], [elongation.monomers] and
    [elongation.complete_polymers] *)
Variable elongation_progress : Elongation → Q.
Variable elongation_monomers : Elongation → list (string * Z).
Variable complete_polymers : Elongation → Polymers.
(** [self.initiation.evolve(interval, substrate)]: the events of the
    stochastic simulation with their times. *)
Variable initiation_evolve : Rng → Q → list Z → list (Q * nat) * Rng.
(** One draw of numpy's generator. *)
Variable random_draw : Rng → nat * Rng.

(** The fields of a [Transcription] instance that [next_update] uses. *)
Record Transcription := {
  sequences : option Sequences;
  self_elongation : Q;
  elongation_rate : Q;
  promoter_count : nat;
  monomer_ids : list string
}.

(** [choose_element(elements)]: [None] for an empty set, else the element
    at the index [np.random.choice(len(elements), 1)] of [list(elements)]. *)
Definition choose_element (domains : gset Z) (g : Rng) : option Z * Rng :=
  if decide (domains = ∅) then (None, g)
  else
    let '(draw, g) := random_draw g in
    (elements domains !! (draw mod size domains)%nat, g).

(** The local variables of [next_update] that the loop changes. *)
Record Run := {
  chromosome : Chromosome;
  elongation : Elongation;
  monomer_limits : MonomerLimits;
  unbound_rnaps : Z;
  bound_rnap : list Z;
  open_domains : gmap string (gset Z);
  bound_domains : gmap string (gset Z);
  promoter_rnaps : gmap string (gmap Z Rnap);
  rng : Rng
}.

(** [set([rnap.domain for rnap in promoter_rnaps.get(promoter_key, {}).values()
          if rnap.is_bound()])] *)
Definition bound_domains_of (rnaps : gmap string (gmap Z Rnap)) (promoter_key : string)
    : gset Z :=
  list_to_set (rnap_domain <$> filter (λ rnap, is_bound rnap = true)
                 (map_to_list (default ∅ (rnaps !! promoter_key))).*2).

(** The loop [for promoter_key in chromosome.promoter_order: ...] that
    builds [bound_rnap], [open_domains] and [bound_domains]. *)
Fixpoint blocked (rnaps : gmap string (gmap Z Rnap)) (domains : gmap string (gset Z))
    (order : list string)
    (acc : list Z * gmap string (gset Z) * gmap string (gset Z))
    : error + list Z * gmap string (gset Z) * gmap string (gset Z) :=
  match order with
  | [] => inr acc
  | promoter_key :: order =>
    let '(bound_rnap, open, bound) := acc in
    let bound_here := bound_domains_of rnaps promoter_key in
    all_here ← or_raise (KeyError promoter_key) (domains !! promoter_key);
    blocked rnaps domains order
      (bound_rnap ++ [Z.of_nat (size bound_here)],
       <[promoter_key := all_here ∖ bound_here]> open,
       <[promoter_key := bound_here]> bound)
  end.

(** [elongation.elongate(now, ...)] followed by
    [unbound_rnaps += terminations]. *)
Definition elongate_until (self : Transcription) (now : Q) (run : Run) : Run :=
  let '(terminations, limits, body', elongation') :=
    elongate (elongation run) now (elongation_rate self) (monomer_limits run)
             (chromosome run) in
  {| chromosome := {| promoter_order := promoter_order (chromosome run); body := body' |};
     elongation := elongation';
     monomer_limits := limits;
     unbound_rnaps := unbound_rnaps run + terminations;
     bound_rnap := bound_rnap run;
     open_domains := open_domains run;
     bound_domains := bound_domains run;
     promoter_rnaps := promoter_rnaps run;
     rng := rng run |}.

(** The branch [if event < self.promoter_count]: an RNAP has bound the
    promoter. *)
Definition bind_event (event : nat) (run : Run) : error + Run :=
  promoter_key ← or_raise IndexError (promoter_order (chromosome run) !! event);
  domains ← or_raise (KeyError promoter_key) (open_domains run !! promoter_key);
  let '(domain, g) := choose_element domains (rng run) in
  bound_here ← or_raise IndexError (bound_rnap run !! event);
  bound ← or_raise (KeyError promoter_key) (bound_domains run !! promoter_key);
  match domain with
  | None => inl NoneDomain
  | Some domain =>
    let '(body', new_rnap) := bind_rnap (chromosome run) promoter_key domain in
    rnaps ← or_raise (KeyError promoter_key) (promoter_rnaps run !! promoter_key);
    inr {| chromosome := {| promoter_order := promoter_order (chromosome run);
                            body := body' |};
           elongation := elongation run;
           monomer_limits := monomer_limits run;
           unbound_rnaps := unbound_rnaps run - 1;
           bound_rnap := <[event := bound_here + 1]> (bound_rnap run);
           open_domains := <[promoter_key := domains ∖ {[domain]}]> (open_domains run);
           bound_domains := <[promoter_key := bound ∪ {[domain]}]> (bound_domains run);
           promoter_rnaps := <[promoter_key := <[domain := new_rnap]> rnaps]>
                               (promoter_rnaps run);
           rng := g |}
  end.

(** The [else] branch: an RNAP has begun polymerizing its transcript. *)
Definition commence_event (self : Transcription) (event : nat) (run : Run)
    : error + Run :=
  let promoter_index := (event - promoter_count self)%nat in
  promoter_key ← or_raise IndexError (promoter_order (chromosome run) !! promoter_index);
  domains ← or_raise (KeyError promoter_key) (bound_domains run !! promoter_key);
  let '(domain, g) := choose_element domains (rng run) in
  open ← or_raise (KeyError promoter_key) (open_domains run !! promoter_key);
  match domain with
  | None => inl NoneDomain
  | Some domain =>
    bound_here ← or_raise IndexError (bound_rnap run !! promoter_index);
    rnaps ← or_raise (KeyError promoter_key) (promoter_rnaps run !! promoter_key);
    rnap ← or_raise (KeyError promoter_key) (rnaps !! domain);
    inr {| chromosome := {| promoter_order := promoter_order (chromosome run);
                            body := start_transcribing rnap (chromosome run) |};
           elongation := elongation run;
           monomer_limits := monomer_limits run;
           unbound_rnaps := unbound_rnaps run;
           bound_rnap := <[promoter_index := bound_here - 1]> (bound_rnap run);
           open_domains := <[promoter_key := open ∪ {[domain]}]> (open_domains run);
           bound_domains := <[promoter_key := domains ∖ {[domain]}]> (bound_domains run);
           promoter_rnaps := <[promoter_key := delete domain rnaps]> (promoter_rnaps run);
           rng := g |}
  end.

(** The body of [for now, event in zip(result['time'], result['events'])]. *)
Definition handle_event (self : Transcription) (time : Q) (now : Q) (event : nat)
    (run : Run) : error + Run :=
  let run := elongate_until self (time + now)%Q run in
  if (event <? promoter_count self)%nat then bind_event event run
  else commence_event self event run.

Fixpoint handle_events (self : Transcription) (time : Q) (events : list (Q * nat))
    (run : Run) : error + Run :=
  match events with
  | [] => inr run
  | (now, event) :: events =>
    run ← handle_event self time now event run;
    handle_events self time events run
  end.

(** The state vector of the stochastic simulation:
    [np.concatenate([copy_numbers - bound_rnap, bound_rnap, [unbound_rnaps]])]. *)
Definition substrate (copy_numbers : list Z) (run : Run) : list Z :=
  zip_with Z.sub copy_numbers (bound_rnap run) ++ bound_rnap run ++ [unbound_rnaps run].

(** One turn of [while time < timestep]: the run afterwards and the
    [interval] by which [time] advances. *)
Definition iteration (self : Transcription) (copy_numbers : list Z) (time : Q)
    (run : Run) : error + Run * Q :=
  let distance := terminator_distance (chromosome run) in
  let interval := (inject_Z distance / elongation_rate self)%Q in
  let '(result, g) := initiation_evolve (rng run) interval (substrate copy_numbers run) in
  let run := {| chromosome := chromosome run; elongation := elongation run;
                monomer_limits := monomer_limits run;
                unbound_rnaps := unbound_rnaps run; bound_rnap := bound_rnap run;
                open_domains := open_domains run; bound_domains := bound_domains run;
                promoter_rnaps := promoter_rnaps run; rng := g |} in
  run ← handle_events self time result run;
  inr (elongate_until self (time + interval)%Q run, interval).

(** [while time < timestep: ...; time += interval]; the number returned
    with the outcome counts the turns of the loop. *)
Fixpoint while_loop (fuel : nat) (self : Transcription) (copy_numbers : list Z)
    (timestep : Q) (time : Q) (run : Run) : nat * outcome Run :=
  match fuel with
  | O => (O, OutOfFuel)
  | S fuel =>
    if Qlt_bool time timestep then
      match iteration self copy_numbers time run with
      | inl e => (1%nat, Raised e)
      | inr (run, interval) =>
        let '(turns, out) :=
          while_loop fuel self copy_numbers timestep (time + interval)%Q run in
        (S turns, out)
      end
    else (O, Returned run)
  end.

(** The update returned by [next_update]. *)
Record update := {
  update_chromosome : Chromosome;
  update_molecules : gmap string Z;
  update_transcripts : Polymers
}.

(** The local variables as they stand when the loop is entered. *)
Definition start_run (self : Transcription) (initial : Chromosome)
    (original_unbound_rnaps : Z) (monomer_limits : MonomerLimits) (g : Rng)
    (blocked_domains : list Z * gmap string (gset Z) * gmap string (gset Z)) : Run :=
  {| chromosome := initial;
     elongation := Elongation_init (default (sequences_of initial) (sequences self))
                     initial monomer_limits (self_elongation self);
     monomer_limits := monomer_limits;
     unbound_rnaps := original_unbound_rnaps;
     bound_rnap := blocked_domains.1.1;
     open_domains := blocked_domains.1.2;
     bound_domains := blocked_domains.2;
     promoter_rnaps := promoter_rnaps_of initial;
     rng := g |}.

(** [Transcription.next_update(timestep, states)] with
    [initial = Chromosome(states['chromosome'])],
    [original_unbound_rnaps = states['molecules']['unbound_rnaps']] and
    [monomer_limits] read from [states['molecules']].  Returns the number
    of turns of the loop with the update and the instance after the call. *)
Definition next_update (fuel : nat) (self : Transcription) (timestep : Q)
    (initial : Chromosome) (original_unbound_rnaps : Z)
    (monomer_limits : MonomerLimits) (g : Rng)
    : nat * outcome (update * Transcription) :=
  let sequences := default (sequences_of initial) (sequences self) in
  match blocked (promoter_rnaps_of initial) (promoter_domains_of initial)
                (promoter_order initial) ([], ∅, ∅) with
  | inl e => (O, Raised e)
  | inr blocked_domains =>
    let copy_numbers := promoter_copy_numbers initial in
    let run := start_run self initial original_unbound_rnaps monomer_limits g
                 blocked_domains in
    match while_loop fuel self copy_numbers timestep 0 run with
    | (turns, Returned run) =>
      (turns,
       Returned
         ({| update_chromosome := chromosome run;
             update_molecules :=
               foldl (λ molecules '(key, count), <[key := (count * -1)%Z]> molecules)
                     {[ "unbound_rnaps"%string := unbound_rnaps run - original_unbound_rnaps ]}
                     (elongation_monomers (elongation run));
             update_transcripts := complete_polymers (elongation run) |},
          {| sequences := Some sequences;
             self_elongation := carry (elongation_progress (elongation run));
             elongation_rate := elongation_rate self;
             promoter_count := promoter_count self;
             monomer_ids := monomer_ids self |}))
    | (turns, Raised e) => (turns, Raised e)
    | (turns, OutOfFuel) => (turns, OutOfFuel)
    end
  end.

(** ** The loop ends *)



(** ** The carried elongation *)

Lemma carry_nonnegative (progress : Q) :
  (0 <= progress)%Q →
  (carry progress == progress - inject_Z (Qfloor progress))%Q
  ∧ (0 <= carry progress)%Q ∧ (carry progress < 1)%Q.
Proof.
  intros H. unfold carry, int.
  assert (Hle : Qle_bool 0 progress = true) by by apply Qle_bool_iff.
  rewrite Hle.
  pose proof (Qfloor_le progress). pose proof (Qlt_floor progress) as Hlt.
  rewrite inject_Z_plus in Hlt. change (inject_Z 1) with 1%Q in Hlt.
  split; [reflexivity|]. split; lra.
Qed.

(** ** Open domains and the state of the stochastic simulation *)

(** The bookkeeping of the loop agrees with the counts given to the
    stochastic simulation: for the promoter at each index, the open and
    the bound domains are disjoint sets, and there are at least as many
    open domains as the substrate entry [copy number - bound count]. *)
Definition consistent (copy_numbers : list Z) (run : Run) : Prop :=
  NoDup (promoter_order (chromosome run))
  ∧ ∀ i promoter_key,
      promoter_order (chromosome run) !! i = Some promoter_key →
      ∃ open bound n c,
        open_domains run !! promoter_key = Some open
        ∧ bound_domains run !! promoter_key = Some bound
        ∧ bound_rnap run !! i = Some n
        ∧ copy_numbers !! i = Some c
        ∧ c - n ≤ Z.of_nat (size open)
        ∧ open ## bound
        ∧ is_Some (promoter_rnaps run !! promoter_key).

Lemma choose_element_Some domains g :
  domains ≠ ∅ →
  ∃ domain g', choose_element domains g = (Some domain, g') ∧ domain ∈ domains.
Proof.
  intros Hne. unfold choose_element. rewrite decide_False by done.
  destruct (random_draw g) as [draw g'].
  assert (Hsize : size domains ≠ 0%nat).
  { apply size_non_empty_iff. by intros ?%leibniz_equiv. }
  destruct (lookup_lt_is_Some_2 (elements domains) (draw mod size domains)%nat)
    as [domain Hdomain].
  { change (length (elements domains)) with (size domains).
    by apply Nat.mod_upper_bound. }
  exists domain, g'. rewrite Hdomain. split; [done|].
  apply elem_of_elements. by eapply list_elem_of_lookup_2.
Qed.

Lemma choose_element_elem domains g domain g' :
  choose_element domains g = (Some domain, g') → domain ∈ domains.
Proof.
  unfold choose_element. case_decide; [done|].
  destruct (random_draw g) as [draw g'']. intros [= Hdomain _].
  apply elem_of_elements. by eapply list_elem_of_lookup_2.
Qed.

Lemma elongate_until_consistent self copy_numbers now run :
  consistent copy_numbers run → consistent copy_numbers (elongate_until self now run).
Proof.
  unfold elongate_until.
  by destruct (elongate _ _ _ _ _) as [[[terminations limits] body'] elongation'].
Qed.

(** A binding event that is handled leaves the bookkeeping consistent. *)
Lemma bind_event_consistent copy_numbers event run run' :
  consistent copy_numbers run →
  bind_event event run = inr run' →
  consistent copy_numbers run'.
Proof.
  intros [Hnodup Hcons]. unfold bind_event.
  destruct (promoter_order (chromosome run) !! event)
    as [promoter_key|] eqn:Hkey; simpl; [|done].
  destruct (open_domains run !! promoter_key) as [open|] eqn:Hopen; simpl; [|done].
  destruct (choose_element open (rng run)) as [[domain|] g'] eqn:Hchoose.
  2: { destruct (bound_rnap run !! event); simpl; [|done].
       by destruct (bound_domains run !! promoter_key). }
  apply choose_element_elem in Hchoose.
  destruct (bound_rnap run !! event) as [n|] eqn:Hn; simpl; [|done].
  destruct (bound_domains run !! promoter_key) as [bound|] eqn:Hbound; simpl; [|done].
  destruct (bind_rnap (chromosome run) promoter_key domain) as [body' new_rnap].
  destruct (promoter_rnaps run !! promoter_key) as [rnaps|] eqn:Hrnaps; simpl; [|done].
  intros [= <-]. split; [done|]. simpl. intros i key Hi.
  destruct (decide (i = event)) as [->|Hne_i].
  - assert (key = promoter_key) as -> by congruence.
    destruct (Hcons _ _ Hi) as (open' & bound' & n' & c & Hopen' & Hbound' & Hn'
                                & Hc & Hsize & Hdisj & ?).
    rewrite Hopen in Hopen'. rewrite Hbound in Hbound'. rewrite Hn in Hn'.
    injection Hopen' as <-. injection Hbound' as <-. injection Hn' as <-.
    exists (open ∖ {[domain]}), (bound ∪ {[domain]}), (n + 1), c.
    rewrite !lookup_insert_eq.
    rewrite list_lookup_insert_eq by by eapply lookup_lt_Some.
    split; [done|]. split; [done|]. split; [done|]. split; [done|].
    split; [|split; [set_solver|eauto]].
    assert (Hpos : (0 < size open)%nat).
    { assert (Hle : (size ({[domain]} : gset Z) ≤ size open)%nat)
        by (apply subseteq_size; set_solver).
      rewrite size_singleton in Hle. lia. }
    rewrite size_difference by set_solver. rewrite size_singleton. lia.
  - assert (key ≠ promoter_key).
    { intros ->. apply Hne_i. by eapply NoDup_lookup. }
    destruct (Hcons _ _ Hi) as (open' & bound' & n' & c' & ? & ? & ? & ? & ? & ? & ?).
    exists open', bound', n', c'.
    rewrite !lookup_insert_ne by done.
    by rewrite list_lookup_insert_ne by done.
Qed.

(** A binding event met with a positive substrate entry finds an open
    domain and is handled. *)
Lemma bind_event_returns copy_numbers event run c n :
  consistent copy_numbers run →
  (event < length (promoter_order (chromosome run)))%nat →
  copy_numbers !! event = Some c →
  bound_rnap run !! event = Some n →
  0 < c - n →
  ∃ promoter_key open domain g' run',
    promoter_order (chromosome run) !! event = Some promoter_key
    ∧ open_domains run !! promoter_key = Some open
    ∧ choose_element open (rng run) = (Some domain, g')
    ∧ domain ∈ open
    ∧ bind_event event run = inr run'.
Proof.
  intros [Hnodup Hcons] Hevent Hc Hn Hpos.
  destruct (lookup_lt_is_Some_2 _ _ Hevent) as [promoter_key Hkey].
  destruct (Hcons _ _ Hkey) as (open & bound & n' & c' & Hopen & Hbound & Hn' & Hc'
                                & Hsize & Hdisj & [rnaps Hrnaps]).
  rewrite Hn in Hn'. rewrite Hc in Hc'. injection Hn' as <-. injection Hc' as <-.
  assert (Hne : open ≠ ∅).
  { intros ->. rewrite size_empty in Hsize. lia. }
  destruct (choose_element_Some open (rng run) Hne) as (domain & g' & Hchoose & Hin).
  unfold bind_event. rewrite Hkey; simpl. rewrite Hopen; simpl.
  rewrite Hchoose, Hn; simpl. rewrite Hbound; simpl.
  destruct (bind_rnap (chromosome run) promoter_key domain) as [body' new_rnap].
  rewrite Hrnaps; simpl.
  by eexists promoter_key, open, domain, g', _.
Qed.

(** A commencing event that is handled leaves the bookkeeping consistent. *)
Lemma commence_event_consistent self copy_numbers event run run' :
  consistent copy_numbers run →
  commence_event self event run = inr run' →
  consistent copy_numbers run'.
Proof.
  intros [Hnodup Hcons]. unfold commence_event.
  set (promoter_index := (event - promoter_count self)%nat).
  destruct (promoter_order (chromosome run) !! promoter_index)
    as [promoter_key|] eqn:Hkey; simpl; [|done].
  destruct (bound_domains run !! promoter_key) as [bound|] eqn:Hbound; simpl; [|done].
  destruct (choose_element bound (rng run)) as [[domain|] g'] eqn:Hchoose.
  2: { by destruct (open_domains run !! promoter_key). }
  apply choose_element_elem in Hchoose.
  destruct (open_domains run !! promoter_key) as [open|] eqn:Hopen; simpl; [|done].
  destruct (bound_rnap run !! promoter_index) as [n|] eqn:Hn; simpl; [|done].
  destruct (promoter_rnaps run !! promoter_key) as [rnaps|] eqn:Hrnaps; simpl; [|done].
  destruct (rnaps !! domain) as [rnap|]; simpl; [|done].
  intros [= <-]. split; [done|]. simpl. intros i key Hi.
  destruct (decide (i = promoter_index)) as [->|Hne_i].
  - assert (key = promoter_key) as -> by congruence.
    destruct (Hcons _ _ Hi) as (open' & bound' & n' & c & Hopen' & Hbound' & Hn'
                                & Hc & Hsize & Hdisj & ?).
    rewrite Hopen in Hopen'. rewrite Hbound in Hbound'. rewrite Hn in Hn'.
    injection Hopen' as <-. injection Hbound' as <-. injection Hn' as <-.
    exists (open ∪ {[domain]}), (bound ∖ {[domain]}), (n - 1), c.
    rewrite !lookup_insert_eq.
    rewrite list_lookup_insert_eq by by eapply lookup_lt_Some.
    split; [done|]. split; [done|]. split; [done|]. split; [done|].
    split; [|split; [set_solver|eauto]].
    rewrite size_union by set_solver. rewrite size_singleton. lia.
  - assert (key ≠ promoter_key).
    { intros ->. apply Hne_i. by eapply NoDup_lookup. }
    destruct (Hcons _ _ Hi) as (open' & bound' & n' & c' & ? & ? & ? & ? & ? & ? & ?).
    exists open', bound', n', c'.
    rewrite !lookup_insert_ne by done.
    by rewrite list_lookup_insert_ne by done.
Qed.

Lemma handle_event_consistent self copy_numbers time now event run run' :
  consistent copy_numbers run →
  handle_event self time now event run = inr run' →
  consistent copy_numbers run'.
Proof.
  intros Hcons. unfold handle_event.
  apply (elongate_until_consistent self _ (time + now)%Q) in Hcons.
  destruct (event <? promoter_count self)%nat.
  - by apply bind_event_consistent.
  - by apply commence_event_consistent.
Qed.

Lemma elongate_until_fields self now run :
  promoter_order (chromosome (elongate_until self now run))
    = promoter_order (chromosome run)
  ∧ bound_rnap (elongate_until self now run) = bound_rnap run
  ∧ open_domains (elongate_until self now run) = open_domains run
  ∧ rng (elongate_until self now run) = rng run.
Proof.
  unfold elongate_until.
  by destruct (elongate _ _ _ _ _) as [[[terminations limits] body'] elongation'].
Qed.

Lemma substrate_entry copy_numbers run i c n :
  copy_numbers !! i = Some c → bound_rnap run !! i = Some n →
  substrate copy_numbers run !! i = Some (c - n).
Proof.
  intros Hc Hn. unfold substrate.
  rewrite lookup_app_l.
  - by rewrite lookup_zip_with, Hc; simpl; rewrite Hn.
  - rewrite length_zip_with.
    apply lookup_lt_Some in Hc, Hn. lia.
Qed.

(** What the loop over [chromosome.promoter_order] has built. *)
Lemma blocked_spec rnaps domains order : ∀ bound_rnap open bound bound_rnap' open' bound',
  blocked rnaps domains order (bound_rnap, open, bound)
    = inr (bound_rnap', open', bound') →
  bound_rnap' = bound_rnap
                ++ ((λ key, Z.of_nat (size (bound_domains_of rnaps key))) <$> order)
  ∧ (∀ key, key ∈ order →
       ∃ all_here, domains !! key = Some all_here
         ∧ open' !! key = Some (all_here ∖ bound_domains_of rnaps key)
         ∧ bound' !! key = Some (bound_domains_of rnaps key))
  ∧ (∀ key, key ∉ order → open' !! key = open !! key ∧ bound' !! key = bound !! key).
Proof.
  induction order as [|promoter_key order IH];
    intros bound_rnap open bound bound_rnap' open' bound'; simpl.
  - intros [= <- <- <-]. rewrite app_nil_r. split; [done|].
    split; [by intros key ?%elem_of_nil|done].
  - destruct (domains !! promoter_key) as [all_here|] eqn:Hall; simpl; [|done].
    intros Hrest. apply IH in Hrest as (Hb & Hin & Hout).
    split; [by rewrite Hb, <- app_assoc|]. split.
    + intros key Hkey.
      destruct (decide (key ∈ order)) as [Hko|Hko]; [by apply Hin|].
      apply elem_of_cons in Hkey as [->|?]; [|done].
      destruct (Hout _ Hko) as [-> ->]. exists all_here.
      by rewrite !lookup_insert_eq.
    + intros key Hkey. apply not_elem_of_cons in Hkey as [Hne Hko].
      destruct (Hout _ Hko) as [-> ->].
      by rewrite !lookup_insert_ne by done.
Qed.

(** The bookkeeping is consistent when the loop is entered, provided the
    chromosome lists each promoter once, with a copy number that does not
    exceed the number of domains holding it, and knows the RNAPs of each
    promoter. *)
Lemma start_run_consistent self initial original_unbound_rnaps limits g blocked_domains :
  NoDup (promoter_order initial) →
  (∀ i key, promoter_order initial !! i = Some key →
     ∃ c all_here,
       promoter_copy_numbers initial !! i = Some c
       ∧ promoter_domains_of initial !! key = Some all_here
       ∧ c ≤ Z.of_nat (size all_here)
       ∧ is_Some (promoter_rnaps_of initial !! key)) →
  blocked (promoter_rnaps_of initial) (promoter_domains_of initial)
          (promoter_order initial) ([], ∅, ∅) = inr blocked_domains →
  consistent (promoter_copy_numbers initial)
    (start_run self initial original_unbound_rnaps limits g blocked_domains).
Proof.
  intros Hnodup Hwf Hblocked.
  destruct blocked_domains as [[bound_rnap open] bound].
  apply blocked_spec in Hblocked as (Hb & Hin & _).
  split; [done|]. simpl. intros i key Hi.
  destruct (Hwf _ _ Hi) as (c & all_here & Hc & Hall & Hle & Hrnaps).
  destruct (Hin key) as (all' & Hall' & Hopen & Hbound).
  { by eapply list_elem_of_lookup_2. }
  rewrite Hall in Hall'. injection Hall' as <-.
  set (bound_here := bound_domains_of (promoter_rnaps_of initial) key) in *.
  exists (all_here ∖ bound_here), bound_here, (Z.of_nat (size bound_here)), c.
  split; [done|]. split; [done|]. split.
  { rewrite Hb. simpl. by rewrite list_lookup_fmap, Hi. }
  split; [done|]. split; [|split; [set_solver|done]].
  rewrite size_difference_alt.
  assert ((size (all_here ∩ bound_here) ≤ size bound_here)%nat)
    by (apply subseteq_size; set_solver).
  lia.
Qed.

(** The values that the local variables of the loop take: from the run at
    the entry of the loop, by handling an event, by elongating, and by
    the draws of the stochastic simulation. *)
Inductive reachable (self : Transcription) (start : Run) : Run → Prop :=
| reach_start : reachable self start start
| reach_event run time now event run' :
    reachable self start run →
    handle_event self time now event run = inr run' →
    reachable self start run'
| reach_elongate run now :
    reachable self start run →
    reachable self start (elongate_until self now run)
| reach_draw run g :
    reachable self start run →
    reachable self start
      {| chromosome := chromosome run; elongation := elongation run;
         monomer_limits := monomer_limits run;
         unbound_rnaps := unbound_rnaps run; bound_rnap := bound_rnap run;
         open_domains := open_domains run; bound_domains := bound_domains run;
         promoter_rnaps := promoter_rnaps run; rng := g |}.

Lemma handle_event_order self time now event run run' :
  handle_event self time now event run = inr run' →
  promoter_order (chromosome run') = promoter_order (chromosome run).
Proof.
  unfold handle_event.
  destruct (elongate_until_fields self (time + now)%Q run) as (<- & _).
  generalize (elongate_until self (time + now)%Q run). intros r.
  destruct (event <? promoter_count self)%nat.
  - unfold bind_event.
    repeat (match goal with
            | |- context [or_raise _ ?x] => destruct x; simpl; [|done]
            | |- context [choose_element ?d ?g] => destruct (choose_element d g) as [[?|] ?]
            | |- context [bind_rnap ?c ?k ?d] => destruct (bind_rnap c k d)
            end); try done.
    by intros [= <-].
  - unfold commence_event.
    repeat (match goal with
            | |- context [or_raise _ ?x] => destruct x; simpl; [|done]
            | |- context [choose_element ?d ?g] => destruct (choose_element d g) as [[?|] ?]
            end); try done.
    by intros [= <-].
Qed.

Lemma reachable_consistent self copy_numbers start run :
  consistent copy_numbers start →
  reachable self start run →
  consistent copy_numbers run
  ∧ promoter_order (chromosome run) = promoter_order (chromosome start).
Proof.
  intros Hstart. induction 1 as [|run time now event run' _ [IH1 IH2] Hhandle
                                 |run now _ [IH1 IH2]|run g' _ [IH1 IH2]].
  - done.
  - split; [by eapply handle_event_consistent|].
    by rewrite (handle_event_order _ _ _ _ _ _ Hhandle).
  - split; [by apply elongate_until_consistent|].
    by destruct (elongate_until_fields self now run) as (-> & _).
  - done.
Qed.

(** The runs of the loop are reachable. *)
Lemma handle_events_reachable self start time events : ∀ run run',
  reachable self start run →
  handle_events self time events run = inr run' →
  reachable self start run'.
Proof.
  induction events as [|[now event] events IH]; intros run run' Hreach; simpl.
  - by intros [= <-].
  - destruct (handle_event self time now event run) as [|run1] eqn:Hhandle; simpl; [done|].
    apply IH. by eapply reach_event.
Qed.

Lemma iteration_reachable self start copy_numbers time run run' interval :
  reachable self start run →
  iteration self copy_numbers time run = inr (run', interval) →
  reachable self start run'.
Proof.
  intros Hreach. unfold iteration.
  destruct (initiation_evolve _ _ _) as [result g].
  destruct (handle_events _ _ _ _) as [|run1] eqn:Hevents; simpl; [done|].
  intros [= <- _]. apply reach_elongate.
  eapply handle_events_reachable; [|done]. by apply reach_draw.
Qed.

Lemma while_loop_reachable self start copy_numbers timestep fuel : ∀ time run turns final,
  reachable self start run →
  while_loop fuel self copy_numbers timestep time run = (turns, Returned final) →
  reachable self start final.
Proof.
  induction fuel as [|fuel IH]; intros time run turns final Hreach; simpl; [done|].
  destruct (Qlt_bool time timestep); [|by intros [= _ <-]].
  destruct (iteration self copy_numbers time run) as [|[run' interval]] eqn:Hit; [done|].
  destruct (while_loop fuel self copy_numbers timestep _ run') as [turns' out] eqn:Hloop.
  intros [= _ ->]. eapply IH; [|done]. by eapply iteration_reachable.
Qed.

(** ** Termination, the carried elongation and binding events *)


(** C8.  After every call of [next_update] that returns, the elongation
    kept by the instance is the fractional part of the progress
    [elongation.elongation] that the call reached, and so lies in [0, 1);
    the progress kept by an [Elongation] object is taken to be
    non-negative, which is what makes [x - int(x)] the fractional part. *)
Theorem elongation_carry (fuel : nat) self timestep initial original_unbound_rnaps
    limits g turns result self' :
  (∀ e, 0 <= elongation_progress e)%Q →
  next_update fuel self timestep initial original_unbound_rnaps limits g
    = (turns, Returned (result, self')) →
  ∃ blocked_domains final,
    while_loop fuel self (promoter_copy_numbers initial) timestep 0
      (start_run self initial original_unbound_rnaps limits g blocked_domains)
      = (turns, Returned final)
    ∧ self_elongation self' = carry (elongation_progress (elongation final))
    ∧ (self_elongation self'
       == elongation_progress (elongation final)
          - inject_Z (Qfloor (elongation_progress (elongation final))))%Q
    ∧ (0 <= self_elongation self')%Q ∧ (self_elongation self' < 1)%Q.
Proof.
  intros Hprogress. unfold next_update.
  destruct (blocked _ _ _ _) as [e|blocked_domains]; [done|]. cbv zeta.
  destruct (while_loop fuel self _ timestep 0%Q _) as [turns' [final|e|]] eqn:Hloop;
    [|done..].
  intros [= <- <- <-]. exists blocked_domains, final. split; [done|]. simpl.
  split; [done|]. by apply carry_nonnegative.
Qed.

(** C9.  Let the chromosome list each promoter once, with a copy number
    that does not exceed the number of domains holding it.  At every
    point that the loop of [next_update] reaches, when the stochastic
    simulation reports a binding event for a promoter
    ([event < promoter_count]) while the substrate entry of that promoter
    (copy number minus bound count) is positive, the set of open domains
    of the promoter is not empty, [choose_element] returns one of its
    domains and not [None], and the event is handled with that domain:
    nothing raises. *)
Theorem binding_event_has_open_domain self initial original_unbound_rnaps limits g
    blocked_domains run time now event entry :
  NoDup (promoter_order initial) →
  (∀ i key, promoter_order initial !! i = Some key →
     ∃ c all_here,
       promoter_copy_numbers initial !! i = Some c
       ∧ promoter_domains_of initial !! key = Some all_here
       ∧ c ≤ Z.of_nat (size all_here)
       ∧ is_Some (promoter_rnaps_of initial !! key)) →
  promoter_count self = length (promoter_order initial) →
  blocked (promoter_rnaps_of initial) (promoter_domains_of initial)
          (promoter_order initial) ([], ∅, ∅) = inr blocked_domains →
  reachable self
    (start_run self initial original_unbound_rnaps limits g blocked_domains) run →
  (event < promoter_count self)%nat →
  substrate (promoter_copy_numbers initial) run !! event = Some entry →
  0 < entry →
  ∃ promoter_key open domain g' run',
    promoter_order initial !! event = Some promoter_key
    ∧ open_domains run !! promoter_key = Some open
    ∧ open ≠ ∅
    ∧ choose_element open (rng run) = (Some domain, g')
    ∧ domain ∈ open
    ∧ handle_event self time now event run = inr run'
    ∧ reachable self
        (start_run self initial original_unbound_rnaps limits g blocked_domains) run'.
Proof.
  intros Hnodup Hwf Hcount Hblocked Hreach Hevent Hentry Hpos.
  pose proof (start_run_consistent self initial original_unbound_rnaps limits g
                blocked_domains Hnodup Hwf Hblocked) as Hstart.
  destruct (reachable_consistent _ _ _ _ Hstart Hreach) as [Hcons Hsame].
  change (promoter_order (chromosome (start_run self initial original_unbound_rnaps
                                        limits g blocked_domains)))
    with (promoter_order initial) in Hsame.
  assert (Hlt : (event < length (promoter_order (chromosome run)))%nat)
    by (rewrite Hsame; lia).
  destruct (lookup_lt_is_Some_2 _ _ Hlt) as [key Hkey].
  destruct (proj2 Hcons _ _ Hkey) as (open0 & bound0 & n & c & _ & _ & Hn & Hc & _).
  rewrite (substrate_entry _ _ _ _ _ Hc Hn) in Hentry. injection Hentry as <-.
  pose proof (elongate_until_consistent self _ (time + now)%Q _ Hcons) as Hcons'.
  destruct (elongate_until_fields self (time + now)%Q run) as (Horder & Hbr & Hopen & Hrng).
  destruct (bind_event_returns (promoter_copy_numbers initial) event
              (elongate_until self (time + now)%Q run) c n)
    as (promoter_key & open & domain & g' & run' & Hk & Ho & Hchoose & Hin & Hbind);
    [done|by rewrite Horder|done|by rewrite Hbr|done|].
  exists promoter_key, open, domain, g', run'.
  rewrite Horder, Hsame in Hk. rewrite Hopen in Ho. rewrite Hrng in Hchoose.
  split; [done|]. split; [done|]. split; [set_solver|]. split; [done|]. split; [done|].
  assert (Hhandle : handle_event self time now event run = inr run').
  { unfold handle_event. apply Nat.ltb_lt in Hevent. by rewrite Hevent. }
  split; [done|]. by eapply reach_event.
Qed.

(** ** Bound domains and the RNAPs on them *)

(** The bookkeeping of the bound RNAPs: [bound_rnap] has one entry per
    promoter, the number of its bound domains, and the RNAP of every bound
    domain is known under that domain. *)
Definition tracked (run : Run) : Prop :=
  length (bound_rnap run) = length (promoter_order (chromosome run))
  ∧ ∀ i promoter_key,
      promoter_order (chromosome run) !! i = Some promoter_key →
      ∃ bound rnaps,
        bound_domains run !! promoter_key = Some bound
        ∧ bound_rnap run !! i = Some (Z.of_nat (size bound))
        ∧ promoter_rnaps run !! promoter_key = Some rnaps
        ∧ ∀ domain, domain ∈ bound → is_Some (rnaps !! domain).

Lemma elongate_until_bound self now run :
  bound_domains (elongate_until self now run) = bound_domains run
  ∧ promoter_rnaps (elongate_until self now run) = promoter_rnaps run.
Proof.
  unfold elongate_until.
  by destruct (elongate _ _ _ _ _) as [[[terminations limits] body'] elongation'].
Qed.

Lemma elongate_until_tracked self now run :
  tracked run → tracked (elongate_until self now run).
Proof.
  unfold tracked.
  destruct (elongate_until_fields self now run) as (-> & -> & _).
  by destruct (elongate_until_bound self now run) as (-> & ->).
Qed.

Lemma bind_event_tracked copy_numbers event run run' :
  consistent copy_numbers run → tracked run →
  bind_event event run = inr run' →
  tracked run'.
Proof.
  intros [Hnodup Hcons] [Hlength Htracked]. unfold bind_event.
  destruct (promoter_order (chromosome run) !! event)
    as [promoter_key|] eqn:Hkey; simpl; [|done].
  destruct (open_domains run !! promoter_key) as [open|] eqn:Hopen; simpl; [|done].
  destruct (choose_element open (rng run)) as [[domain|] g'] eqn:Hchoose.
  2: { destruct (bound_rnap run !! event); simpl; [|done].
       by destruct (bound_domains run !! promoter_key). }
  apply choose_element_elem in Hchoose.
  destruct (bound_rnap run !! event) as [n|] eqn:Hn; simpl; [|done].
  destruct (bound_domains run !! promoter_key) as [bound|] eqn:Hbound; simpl; [|done].
  destruct (bind_rnap (chromosome run) promoter_key domain) as [body' new_rnap].
  destruct (promoter_rnaps run !! promoter_key) as [rnaps|] eqn:Hrnaps; simpl; [|done].
  intros [= <-]. split; simpl; [by rewrite length_insert|]. intros i key Hi.
  destruct (decide (i = event)) as [->|Hne_i].
  - assert (key = promoter_key) as -> by congruence.
    destruct (Hcons _ _ Hi) as (open' & bound' & n' & c & Hopen' & Hbound' & _
                                & _ & _ & Hdisj & _).
    destruct (Htracked _ _ Hi) as (bound'' & rnaps' & Hbound'' & Hn' & Hrnaps' & Hknown).
    rewrite Hopen in Hopen'. rewrite Hbound in Hbound', Hbound''. rewrite Hn in Hn'.
    rewrite Hrnaps in Hrnaps'.
    injection Hopen' as <-. injection Hbound' as <-. injection Hbound'' as <-.
    injection Hn' as ->. injection Hrnaps' as <-.
    exists (bound ∪ {[domain]}), (<[domain := new_rnap]> rnaps).
    rewrite !lookup_insert_eq.
    rewrite list_lookup_insert_eq by by eapply lookup_lt_Some.
    split; [done|]. split; [|split; [done|]].
    + rewrite size_union by set_solver. rewrite size_singleton. do 2 f_equal. lia.
    + intros d [Hd| ->%elem_of_singleton]%elem_of_union.
      * apply lookup_insert_is_Some'. right. by apply Hknown.
      * by rewrite lookup_insert_eq.
  - assert (key ≠ promoter_key).
    { intros ->. apply Hne_i. by eapply NoDup_lookup. }
    destruct (Htracked _ _ Hi) as (bound' & rnaps' & ? & ? & ? & ?).
    exists bound', rnaps'.
    rewrite !lookup_insert_ne by done.
    by rewrite list_lookup_insert_ne by done.
Qed.

Lemma commence_event_tracked self copy_numbers event run run' :
  consistent copy_numbers run → tracked run →
  commence_event self event run = inr run' →
  tracked run'.
Proof.
  intros [Hnodup Hcons] [Hlength Htracked]. unfold commence_event.
  set (promoter_index := (event - promoter_count self)%nat).
  destruct (promoter_order (chromosome run) !! promoter_index)
    as [promoter_key|] eqn:Hkey; simpl; [|done].
  destruct (bound_domains run !! promoter_key) as [bound|] eqn:Hbound; simpl; [|done].
  destruct (choose_element bound (rng run)) as [[domain|] g'] eqn:Hchoose.
  2: { by destruct (open_domains run !! promoter_key). }
  apply choose_element_elem in Hchoose.
  destruct (open_domains run !! promoter_key) as [open|] eqn:Hopen; simpl; [|done].
  destruct (bound_rnap run !! promoter_index) as [n|] eqn:Hn; simpl; [|done].
  destruct (promoter_rnaps run !! promoter_key) as [rnaps|] eqn:Hrnaps; simpl; [|done].
  destruct (rnaps !! domain) as [rnap|]; simpl; [|done].
  intros [= <-]. split; simpl; [by rewrite length_insert|]. intros i key Hi.
  destruct (decide (i = promoter_index)) as [->|Hne_i].
  - assert (key = promoter_key) as -> by congruence.
    destruct (Htracked _ _ Hi) as (bound' & rnaps' & Hbound' & Hn' & Hrnaps' & Hknown).
    rewrite Hbound in Hbound'. rewrite Hn in Hn'. rewrite Hrnaps in Hrnaps'.
    injection Hbound' as <-. injection Hn' as ->. injection Hrnaps' as <-.
    exists (bound ∖ {[domain]}), (delete domain rnaps).
    rewrite !lookup_insert_eq.
    rewrite list_lookup_insert_eq by by eapply lookup_lt_Some.
    split; [done|]. split; [|split; [done|]].
    + assert (Hpos : (size ({[domain]} : gset Z) ≤ size bound)%nat)
        by (apply subseteq_size; set_solver).
      rewrite size_singleton in Hpos.
      rewrite size_difference by set_solver. rewrite size_singleton.
      do 2 f_equal. lia.
    + intros d [Hd Hne]%elem_of_difference.
      rewrite lookup_delete_ne by set_solver. by apply Hknown.
  - assert (key ≠ promoter_key).
    { intros ->. apply Hne_i. by eapply NoDup_lookup. }
    destruct (Htracked _ _ Hi) as (bound' & rnaps' & ? & ? & ? & ?).
    exists bound', rnaps'.
    rewrite !lookup_insert_ne by done.
    by rewrite list_lookup_insert_ne by done.
Qed.

Lemma handle_event_tracked self copy_numbers time now event run run' :
  consistent copy_numbers run → tracked run →
  handle_event self time now event run = inr run' →
  tracked run'.
Proof.
  intros Hcons Htracked. unfold handle_event.
  apply (elongate_until_consistent self _ (time + now)%Q) in Hcons.
  apply (elongate_until_tracked self (time + now)%Q) in Htracked.
  destruct (event <? promoter_count self)%nat.
  - by eapply bind_event_tracked.
  - by eapply commence_event_tracked.
Qed.

Lemma reachable_tracked self copy_numbers start run :
  consistent copy_numbers start → tracked start →
  reachable self start run →
  tracked run.
Proof.
  intros Hcons Hstart.
  induction 1 as [|run time now event run' Hreach IH Hhandle|run now _ IH|run g' _ IH].
  - done.
  - eapply handle_event_tracked; [|done..].
    by eapply reachable_consistent.
  - by apply elongate_until_tracked.
  - done.
Qed.

(** The RNAPs of the chromosome are found under their own domain. *)
Definition rnaps_by_domain (initial : Chromosome) : Prop :=
  ∀ promoter_key rnaps domain rnap,
    promoter_rnaps_of initial !! promoter_key = Some rnaps →
    rnaps !! domain = Some rnap → rnap_domain rnap = domain.

Lemma start_run_tracked self initial original_unbound_rnaps limits g blocked_domains :
  rnaps_by_domain initial →
  (∀ key, key ∈ promoter_order initial → is_Some (promoter_rnaps_of initial !! key)) →
  blocked (promoter_rnaps_of initial) (promoter_domains_of initial)
          (promoter_order initial) ([], ∅, ∅) = inr blocked_domains →
  tracked (start_run self initial original_unbound_rnaps limits g blocked_domains).
Proof.
  intros Hby Hrnaps Hblocked.
  destruct blocked_domains as [[bound_rnap open] bound].
  apply blocked_spec in Hblocked as (Hb & Hin & _).
  split; simpl.
  { rewrite Hb. simpl. by rewrite length_fmap. }
  intros i key Hi.
  destruct (Hin key) as (all_here & _ & _ & Hbound); [by eapply list_elem_of_lookup_2|].
  destruct (Hrnaps key) as [rnaps Hkey]; [by eapply list_elem_of_lookup_2|].
  exists (bound_domains_of (promoter_rnaps_of initial) key), rnaps.
  split; [done|]. split; [rewrite Hb; simpl; by rewrite list_lookup_fmap, Hi|]. split; [done|].
  intros domain. unfold bound_domains_of. rewrite Hkey. simpl.
  rewrite elem_of_list_to_set, list_elem_of_fmap.
  intros (rnap & -> & [_ Hin']%list_elem_of_filter).
  apply list_elem_of_fmap in Hin' as ([domain rnap'] & -> & Hin'%elem_of_map_to_list).
  simpl. by rewrite (Hby _ _ _ _ Hkey Hin').
Qed.

(** A commencing event met with a positive count of bound RNAPs finds a
    bound domain and the RNAP on it, and is handled. *)
Lemma commence_event_returns self copy_numbers event run n :
  consistent copy_numbers run → tracked run →
  bound_rnap run !! (event - promoter_count self)%nat = Some n →
  0 < n →
  ∃ promoter_key bound domain g' run',
    promoter_order (chromosome run) !! (event - promoter_count self)%nat = Some promoter_key
    ∧ bound_domains run !! promoter_key = Some bound
    ∧ choose_element bound (rng run) = (Some domain, g')
    ∧ domain ∈ bound
    ∧ commence_event self event run = inr run'.
Proof.
  intros [Hnodup Hcons] [Hlength Htracked] Hn Hpos.
  destruct (lookup_lt_is_Some_2 (promoter_order (chromosome run))
              (event - promoter_count self)%nat) as [promoter_key Hkey].
  { rewrite <- Hlength. by eapply lookup_lt_Some. }
  destruct (Hcons _ _ Hkey) as (open & _ & _ & _ & Hopen & _).
  destruct (Htracked _ _ Hkey) as (bound & rnaps & Hbound & Hn' & Hrnaps & Hknown).
  rewrite Hn in Hn'. injection Hn' as ->.
  assert (Hne : bound ≠ ∅).
  { intros ->. rewrite size_empty in Hpos. lia. }
  destruct (choose_element_Some bound (rng run) Hne) as (domain & g' & Hchoose & Hin).
  destruct (Hknown domain Hin) as [rnap Hrnap].
  unfold commence_event. rewrite Hkey; simpl. rewrite Hbound; simpl.
  rewrite Hchoose, Hopen; simpl. rewrite Hn; simpl. rewrite Hrnaps; simpl.
  rewrite Hrnap; simpl.
  by eexists promoter_key, bound, domain, g', _.
Qed.

Lemma substrate_bound_entry copy_numbers run i :
  consistent copy_numbers run → tracked run →
  (i < length (promoter_order (chromosome run)))%nat →
  substrate copy_numbers run !! (length (promoter_order (chromosome run)) + i)%nat
  = bound_rnap run !! i.
Proof.
  intros [_ Hcons] [Hlength _] Hi. unfold substrate.
  assert (Hzip : length (zip_with Z.sub copy_numbers (bound_rnap run))
                 = length (promoter_order (chromosome run))).
  { rewrite length_zip_with, Hlength.
    destruct (decide (length (promoter_order (chromosome run)) = 0%nat)) as [->|Hne]; [lia|].
    assert (Hlast : (length (promoter_order (chromosome run)) - 1
                     < length (promoter_order (chromosome run)))%nat) by lia.
    destruct (lookup_lt_is_Some_2 _ _ Hlast) as [key Hkey].
    destruct (Hcons _ _ Hkey) as (_ & _ & _ & c & _ & _ & _ & Hc%lookup_lt_Some & _).
    lia. }
  rewrite lookup_app_r by lia. rewrite Hzip.
  replace (length (promoter_order (chromosome run)) + i
           - length (promoter_order (chromosome run)))%nat with i by lia.
  apply lookup_app_l. lia.
Qed.

(** [choose_element] returns [None] for the empty set only, without a
    draw; from any other set it returns one of its elements. *)
Theorem choose_element_member domains g :
  (domains = ∅ → choose_element domains g = (None, g))
  ∧ (domains ≠ ∅ →
     ∃ domain g', choose_element domains g = (Some domain, g') ∧ domain ∈ domains)
  ∧ (∀ domain g', choose_element domains g = (Some domain, g') → domain ∈ domains).
Proof.
  split; [|split].
  - intros ->. unfold choose_element. by rewrite decide_True.
  - apply choose_element_Some.
  - apply choose_element_elem.
Qed.

(** The counterpart of a binding event.  Let the chromosome list each
    promoter once, with a copy number that does not exceed the number of
    domains holding it, and keep its RNAPs under their domains.  At every
    point that the loop of [next_update] reaches, when the stochastic
    simulation reports that an RNAP commences transcription at a promoter
    ([promoter_count <= event < 2 * promoter_count]) while the substrate
    entry of that event (the count of bound RNAPs of the promoter) is
    positive, the set of bound domains of the promoter is not empty,
    [choose_element] returns one of its domains, the RNAP bound there is
    found, and the event is handled: nothing raises. *)
Theorem commencing_event_has_bound_rnap self initial original_unbound_rnaps limits g
    blocked_domains run time now event entry :
  NoDup (promoter_order initial) →
  (∀ i key, promoter_order initial !! i = Some key →
     ∃ c all_here,
       promoter_copy_numbers initial !! i = Some c
       ∧ promoter_domains_of initial !! key = Some all_here
       ∧ c ≤ Z.of_nat (size all_here)
       ∧ is_Some (promoter_rnaps_of initial !! key)) →
  rnaps_by_domain initial →
  promoter_count self = length (promoter_order initial) →
  blocked (promoter_rnaps_of initial) (promoter_domains_of initial)
          (promoter_order initial) ([], ∅, ∅) = inr blocked_domains →
  reachable self
    (start_run self initial original_unbound_rnaps limits g blocked_domains) run →
  (promoter_count self ≤ event < 2 * promoter_count self)%nat →
  substrate (promoter_copy_numbers initial) run !! event = Some entry →
  0 < entry →
  ∃ promoter_key bound domain g' run',
    promoter_order initial !! (event - promoter_count self)%nat = Some promoter_key
    ∧ bound_domains run !! promoter_key = Some bound
    ∧ bound ≠ ∅
    ∧ choose_element bound (rng run) = (Some domain, g')
    ∧ domain ∈ bound
    ∧ handle_event self time now event run = inr run'
    ∧ reachable self
        (start_run self initial original_unbound_rnaps limits g blocked_domains) run'.
Proof.
  intros Hnodup Hwf Hby Hcount Hblocked Hreach Hevent Hentry Hpos.
  pose proof (start_run_consistent self initial original_unbound_rnaps limits g
                blocked_domains Hnodup Hwf Hblocked) as Hstart.
  assert (Hstart' : tracked (start_run self initial original_unbound_rnaps limits g
                               blocked_domains)).
  { apply start_run_tracked; [done| |done].
    intros key [i Hi]%list_elem_of_lookup_1.
    by destruct (Hwf _ _ Hi) as (_ & _ & _ & _ & _ & ?). }
  destruct (reachable_consistent _ _ _ _ Hstart Hreach) as [Hcons Hsame].
  pose proof (reachable_tracked _ _ _ _ Hstart Hstart' Hreach) as Htracked.
  change (promoter_order (chromosome (start_run self initial original_unbound_rnaps
                                        limits g blocked_domains)))
    with (promoter_order initial) in Hsame.
  set (promoter_index := (event - promoter_count self)%nat).
  assert (Hbound : bound_rnap run !! promoter_index = Some entry).
  { rewrite <- (substrate_bound_entry (promoter_copy_numbers initial)) by
      (try done; rewrite Hsame; unfold promoter_index; lia).
    rewrite <- Hentry. f_equal. rewrite Hsame. unfold promoter_index. lia. }
  pose proof (elongate_until_consistent self _ (time + now)%Q _ Hcons) as Hcons'.
  pose proof (elongate_until_tracked self (time + now)%Q _ Htracked) as Htracked'.
  destruct (elongate_until_fields self (time + now)%Q run) as (Horder & Hbr & _ & Hrng).
  destruct (elongate_until_bound self (time + now)%Q run) as (Hbd & _).
  destruct (commence_event_returns self (promoter_copy_numbers initial) event
              (elongate_until self (time + now)%Q run) entry)
    as (promoter_key & bound & domain & g' & run' & Hk & Hb & Hchoose & Hin & Hcommence);
    [done|done|by rewrite Hbr|done|].
  exists promoter_key, bound, domain, g', run'.
  rewrite Horder, Hsame in Hk. rewrite Hbd in Hb. rewrite Hrng in Hchoose.
  split; [done|]. split; [done|]. split; [set_solver|]. split; [done|]. split; [done|].
  assert (Hhandle : handle_event self time now event run = inr run').
  { unfold handle_event.
    assert (Hge : (event <? promoter_count self)%nat = false) by (apply Nat.ltb_ge; lia).
    by rewrite Hge. }
  split; [done|]. by eapply reach_event.
Qed.

End Process.

(** ** A small instance: one promoter on one domain *)

(** A chromosome with the promoter [pA] on its single domain 0, no RNAP on
    it, and a terminator 5 monomers ahead; the stochastic simulation
    reports no event, elongation advances a quarter of a monomer per
    call, and RNAPs are identified with their domain. *)
Definition example_chromosome : Chromosome unit :=
  {| promoter_order := ["pA"%string]; body := tt |}.

Definition example_self : Transcription unit :=
  {| sequences := None; self_elongation := 0; elongation_rate := 10;
     promoter_count := 1; monomer_ids := [] |}.

Definition example_rnaps (_ : Chromosome unit) : gmap string (gmap Z Z) :=
  {[ "pA"%string := ∅ ]}.

Definition example_domains (_ : Chromosome unit) : gmap string (gset Z) :=
  {[ "pA"%string := {[ 0 ]} ]}.

Definition example_elongate (e : nat) (now rate : Q) (limits : unit)
    (_ : Chromosome unit) : Z * unit * unit * nat :=
  (0, limits, tt, S e).

Definition example_progress (e : nat) : Q := Z.of_nat e # 4.

Definition example_next_update (fuel : nat) :=
  next_update unit Z nat unit unit unit unit
    (λ _, tt) example_rnaps example_domains (λ _, [1]) (λ _, 5)
    (λ _ _ domain, (tt, domain)) (λ _ _, tt) (λ _, true) (λ domain, domain)
    (λ _ _ _ _, 0%nat) example_elongate example_progress (λ _, []) (λ _, tt)
    (λ g _ _, ([], g)) (λ g, (0%nat, g))
    fuel example_self 1 example_chromosome 10 tt tt.

Definition example_start : Run unit Z nat unit unit :=
  start_run unit Z nat unit unit unit (λ _, tt) example_rnaps (λ _ _ _ _, 0%nat)
    example_self example_chromosome 10 tt tt
    ([0], {[ "pA"%string := {[ 0 ]} ]}, {[ "pA"%string := ∅ ]}).


Lemma example_progress_nonnegative (e : nat) : (0 <= example_progress e)%Q.
Proof. unfold example_progress, Qle. simpl. lia. Qed.

Lemma elongation_carry_witness :
  match (example_next_update 11).2 with
  | Returned (_, self') =>
    (0 <= self_elongation unit self')%Q ∧ (self_elongation unit self' < 1)%Q
  | _ => False
  end.
Proof.
  destruct (example_next_update 11) as [turns [[result self']|e|]] eqn:Hcall;
    cbn [snd]; [|by vm_compute in Hcall..].
  unfold example_next_update in Hcall.
  destruct (elongation_carry unit Z nat unit unit unit unit _ _ _ _ _ _ _ _ _ _ _ _ _ _ _ _
              _ _ _ _ _ _ _ _ _ _
              example_progress_nonnegative Hcall)
    as (_ & _ & _ & _ & _ & Hlo & Hhi).
  done.
Defined.

Lemma binding_event_has_open_domain_witness :
  ∃ promoter_key open domain g' run',
    promoter_order unit example_chromosome !! 0%nat = Some promoter_key
    ∧ open_domains unit Z nat unit unit example_start !! promoter_key = Some open
    ∧ open ≠ ∅
    ∧ choose_element unit (λ g, (0%nat, g)) open (rng unit Z nat unit unit example_start)
      = (Some domain, g')
    ∧ domain ∈ open
    ∧ handle_event unit Z nat unit unit unit (λ _ _ domain, (tt, domain)) (λ _ _, tt)
        example_elongate (λ g, (0%nat, g)) example_self 0 0 0 example_start = inr run'
    ∧ reachable unit Z nat unit unit unit (λ _ _ domain, (tt, domain)) (λ _ _, tt)
        example_elongate (λ g, (0%nat, g)) example_self example_start run'.
Proof.
  apply (binding_event_has_open_domain unit Z nat unit unit unit
           (λ _, tt) example_rnaps example_domains (λ _, [1]) (λ _, 5)
           (λ _ _ domain, (tt, domain)) (λ _ _, tt) (λ _, true) (λ domain, domain)
           (λ _ _ _ _, 0%nat) example_elongate (λ g _ _, ([], g)) (λ g, (0%nat, g))
           example_self example_chromosome 10 tt tt
           ([0], {[ "pA"%string := {[ 0 ]} ]}, {[ "pA"%string := ∅ ]})
           example_start 0%Q 0%Q 0%nat 1).
  - apply NoDup_singleton.
  - intros [|i] key Hi; [|done]. injection Hi as <-.
    exists 1, {[ 0 ]}. split; [done|]. split; [done|].
    split; [by rewrite size_singleton|]. by eexists.
  - done.
  - by vm_compute.
  - apply reach_start.
  - simpl. lia.
  - by vm_compute.
  - lia.
Defined.

(** The same promoter with an RNAP bound on its domain. *)
Definition example_bound_rnaps (_ : Chromosome unit) : gmap string (gmap Z Z) :=
  {[ "pA"%string := {[ 0 := 0 ]} ]}.

Definition example_bound_start : Run unit Z nat unit unit :=
  start_run unit Z nat unit unit unit (λ _, tt) example_bound_rnaps (λ _ _ _ _, 0%nat)
    example_self example_chromosome 10 tt tt
    ([1], {[ "pA"%string := ∅ ]}, {[ "pA"%string := {[ 0 ]} ]}).

Lemma choose_element_member_witness :
  choose_element unit (λ g, (0%nat, g)) ∅ tt = (None, tt)
  ∧ ∃ domain g', choose_element unit (λ g, (0%nat, g)) {[ 5 ]} tt = (Some domain, g')
                 ∧ domain ∈ ({[ 5 ]} : gset Z).
Proof.
  split.
  - by apply (choose_element_member unit (λ g, (0%nat, g)) ∅ tt).
  - apply (choose_element_member unit (λ g, (0%nat, g)) {[ 5 ]} tt).
    apply non_empty_singleton_L.
Defined.

Lemma commencing_event_has_bound_rnap_witness :
  ∃ promoter_key bound domain g' run',
    promoter_order unit example_chromosome !! 0%nat = Some promoter_key
    ∧ bound_domains unit Z nat unit unit example_bound_start !! promoter_key = Some bound
    ∧ bound ≠ ∅
    ∧ choose_element unit (λ g, (0%nat, g)) bound
        (rng unit Z nat unit unit example_bound_start) = (Some domain, g')
    ∧ domain ∈ bound
    ∧ handle_event unit Z nat unit unit unit (λ _ _ domain, (tt, domain)) (λ _ _, tt)
        example_elongate (λ g, (0%nat, g)) example_self 0 0 1 example_bound_start
      = inr run'
    ∧ reachable unit Z nat unit unit unit (λ _ _ domain, (tt, domain)) (λ _ _, tt)
        example_elongate (λ g, (0%nat, g)) example_self example_bound_start run'.
Proof.
  apply (commencing_event_has_bound_rnap unit Z nat unit unit unit
           (λ _, tt) example_bound_rnaps example_domains (λ _, [1]) (λ _, 5)
           (λ _ _ domain, (tt, domain)) (λ _ _, tt) (λ _, true) (λ domain, domain)
           (λ _ _ _ _, 0%nat) example_elongate (λ g _ _, ([], g)) (λ g, (0%nat, g))
           example_self example_chromosome 10 tt tt
           ([1], {[ "pA"%string := ∅ ]}, {[ "pA"%string := {[ 0 ]} ]})
           example_bound_start 0%Q 0%Q 1%nat 1).
  - apply NoDup_singleton.
  - intros [|i] key Hi; [|done]. injection Hi as <-.
    exists 1, {[ 0 ]}. split; [done|]. split; [done|].
    split; [by rewrite size_singleton|]. by eexists.
  - intros promoter_key rnaps domain rnap. unfold example_bound_rnaps.
    intros [_ <-]%lookup_singleton_Some [<- <-]%lookup_singleton_Some. done.
  - done.
  - by vm_compute.
  - apply reach_start.
  - simpl. lia.
  - by vm_compute.
  - lia.
Defined.

End Transcription.

(* ===================================================================== *)
(** * The agent interface of the transport surrogate
      (environment/surrogates/transport_kinetics.py) *)
(* ===================================================================== *)

Module TransportAgent.
Import Num Results DictUtils TransportKinetics.

(** A [TransportKinetics] surrogate with the fields that the agent
    interface uses besides those of the run loop; [division] holds the
    times of its [{'time': ..}] dicts. *)
Record Surrogate := {
  kinetics : TransportKinetics;
  division_time : Q;
  division : list Q;
  external_concentrations : gmap string Q;
  external_to_molecule_map : gmap string string;
  motile_force : Q * Q
}.

(** The update sent by the environment; both keys may be absent. *)
Record outer_update := {
  update_concentrations : option (gmap string Q);
  update_boundary_view : option (gmap string Q)
}.

(** The update sent to the environment. *)
Record inner_update := {
  inner_volume : Q;
  inner_motile_force : Q * Q;
  inner_environment_change : gmap string Q;
  inner_division : list Q;
  inner_color : list Q;
  inner_transport_fluxes : gmap string Q
}.

(** [DEFAULT_COLOR = [color/255 for color in [255, 51, 51]]] *)
Definition DEFAULT_COLOR : list Q := (λ color, color / 255)%Q <$> [255; 51; 51]%Q.

(** [{self.external_to_molecule_map[mol_id]: conc for mol_id, conc in
      self.external_concentrations.iteritems()}] *)
Definition new_concentrations (external_to_molecule_map : gmap string string)
    (external_concentrations : gmap string Q) : error + gmap string Q :=
  map_fold (λ mol_id conc acc,
              new ← acc;
              key ← or_raise (KeyError mol_id) (external_to_molecule_map !! mol_id);
              inr (<[key := conc]> new))
           (inr ∅) external_concentrations.

(** [apply_outer_update(update)] *)
Definition apply_outer_update (update : outer_update) (self : Surrogate)
    : error + Surrogate :=
  let external_concentrations := default ∅ (update_concentrations update) in
  let boundary_concentrations := default ∅ (update_boundary_view update) in
  new_concentrations ←
    new_concentrations (external_to_molecule_map self) external_concentrations;
  let concentrations :=
    dict_update (dict_update (concentrations (kinetics self)) boundary_concentrations)
                new_concentrations in
  (* Reset environment change *)
  let environment_change :=
    map_fold (λ molecule _ environment_change, <[molecule := 0%Q]> environment_change)
             ∅ external_concentrations in
  inr {| kinetics :=
           {| initial_time := initial_time (kinetics self);
              local_time := local_time (kinetics self);
              timestep := timestep (kinetics self);
              environment_change := environment_change;
              volume := volume (kinetics self);
              nAvogadro := nAvogadro (kinetics self);
              all_transport_reactions := all_transport_reactions (kinetics self);
              molecule_to_external_map := molecule_to_external_map (kinetics self);
              concentrations := concentrations;
              transport_fluxes := transport_fluxes (kinetics self) |};
         division_time := division_time self;
         division := division self;
         external_concentrations := external_concentrations;
         external_to_molecule_map := external_to_molecule_map self;
         motile_force := motile_force self |}.

(** [generate_inner_update()]: the changes in counts are rounded off with
    [int], in the instance as well. *)
Definition generate_inner_update (self : Surrogate) : inner_update * Surrogate :=
  let environment_change :=
    (λ counts, inject_Z (Transcription.int counts))
      <$> environment_change (kinetics self) in
  let self :=
    {| kinetics := set_environment_change environment_change (kinetics self);
       division_time := division_time self;
       division := division self;
       external_concentrations := external_concentrations self;
       external_to_molecule_map := external_to_molecule_map self;
       motile_force := motile_force self |} in
  ({| inner_volume := volume (kinetics self);
      inner_motile_force := motile_force self;
      inner_environment_change := environment_change;
      inner_division := division self;
      inner_color := DEFAULT_COLOR;
      inner_transport_fluxes := transport_fluxes (kinetics self) |}, self).

(** ** Rounding off the changes *)

(** [int] truncates towards zero. *)
Lemma int_truncates (x : Q) :
  ((0 <= x)%Q → (0 <= inject_Z (Transcription.int x) <= x)%Q
                ∧ (x < inject_Z (Transcription.int x) + 1)%Q)
  ∧ ((x <= 0)%Q → (x <= inject_Z (Transcription.int x) <= 0)%Q
                  ∧ (inject_Z (Transcription.int x) - 1 < x)%Q).
Proof.
  unfold Transcription.int.
  pose proof (Qfloor_le x) as Hfloor. pose proof (Qlt_floor x) as Hfloor'.
  pose proof (Qle_ceiling x) as Hceiling. pose proof (Qceiling_lt x) as Hceiling'.
  rewrite inject_Z_plus in Hfloor'.
  unfold Z.sub in Hceiling'. rewrite inject_Z_plus, inject_Z_opp in Hceiling'.
  change (inject_Z 1) with 1%Q in *.
  destruct (Qle_bool 0 x) eqn:Hsign.
  - apply Qle_bool_iff in Hsign.
    assert (Hz : 0 <= Qfloor x).
    { change 0 with (Qfloor 0). by apply Qfloor_resp_le. }
    rewrite Zle_Qle in Hz. change (inject_Z 0) with 0%Q in Hz.
    split; [intros _; split; [split|]; lra|].
    intros Hneg. split; [split|]; lra.
  - assert (Hneg : (x < 0)%Q).
    { apply Qnot_le_lt. intros Hle. apply Qle_bool_iff in Hle. congruence. }
    assert (Hz : Qceiling x <= 0).
    { change 0 with (Qceiling 0). apply Qceiling_resp_le. lra. }
    rewrite Zle_Qle in Hz. change (inject_Z 0) with 0%Q in Hz.
    split; [intros Hpos; exfalso; lra|].
    intros _. split; [split|]; lra.
Qed.

Lemma int_inject_Z (z : Z) : Transcription.int (inject_Z z) = z.
Proof.
  unfold Transcription.int.
  destruct (Qle_bool 0 (inject_Z z)); [apply Qfloor_Z|apply Qceiling_Z].
Qed.

(** [generate_inner_update] reports every change in counts truncated
    towards zero, the part after the point being dropped, and stores the
    truncated changes in the instance, so that a second call reports the
    same; the other fields of the instance are as they were. *)
Theorem generate_inner_update_rounds self :
  let update := (generate_inner_update self).1 in
  let self' := (generate_inner_update self).2 in
  inner_environment_change update = environment_change (kinetics self')
  ∧ (∀ molecule_id,
       environment_change (kinetics self') !! molecule_id
       = (λ counts, inject_Z (Transcription.int counts))
           <$> environment_change (kinetics self) !! molecule_id)
  ∧ (∀ molecule_id counts,
       environment_change (kinetics self) !! molecule_id = Some counts →
       ((0 <= counts)%Q → (0 <= inject_Z (Transcription.int counts) <= counts)%Q
                          ∧ (counts < inject_Z (Transcription.int counts) + 1)%Q)
       ∧ ((counts <= 0)%Q → (counts <= inject_Z (Transcription.int counts) <= 0)%Q
                            ∧ (inject_Z (Transcription.int counts) - 1 < counts)%Q))
  ∧ same_but_environment_change (kinetics self) (kinetics self')
  ∧ generate_inner_update self' = (update, self').
Proof.
  cbv zeta. unfold generate_inner_update. simpl.
  split; [done|]. split; [intros m; apply lookup_fmap|].
  split; [intros m counts _; apply int_truncates|].
  split; [by repeat split|].
  assert (Hidem : (λ counts, inject_Z (Transcription.int counts))
                    <$> ((λ counts, inject_Z (Transcription.int counts))
                           <$> environment_change (kinetics self))
                  = (λ counts, inject_Z (Transcription.int counts))
                      <$> environment_change (kinetics self)).
  { rewrite <- map_fmap_compose. apply map_fmap_ext. intros m counts _. simpl.
    by rewrite int_inject_Z. }
  rewrite Hidem. done.
Qed.

(** ** The update of the environment *)

Lemma new_concentrations_returns external_to_molecule_map external_concentrations :
  (∀ mol_id, is_Some (external_concentrations !! mol_id) →
     is_Some (external_to_molecule_map !! mol_id)) →
  ∃ new, new_concentrations external_to_molecule_map external_concentrations = inr new.
Proof.
  unfold new_concentrations.
  apply (map_fold_weak_ind (λ (r : error + gmap string Q) (m : gmap string Q),
    (∀ mol_id, is_Some (m !! mol_id) → is_Some (external_to_molecule_map !! mol_id)) →
    ∃ new, r = inr new)).
  - intros _. by eexists.
  - intros mol_id conc m r Hfresh IH Hall.
    destruct IH as [new ->].
    { intros k Hk. apply Hall, lookup_insert_is_Some'. by right. }
    destruct (Hall mol_id) as [key Hkey]; [by rewrite lookup_insert_eq|].
    simpl. rewrite Hkey. simpl. by eexists.
Qed.

Lemma new_concentrations_raises external_to_molecule_map external_concentrations mol_id :
  is_Some (external_concentrations !! mol_id) →
  external_to_molecule_map !! mol_id = None →
  ∃ mol_id', new_concentrations external_to_molecule_map external_concentrations
             = inl (KeyError mol_id').
Proof.
  unfold new_concentrations.
  apply (map_fold_weak_ind (λ (r : error + gmap string Q) (m : gmap string Q),
    is_Some (m !! mol_id) → external_to_molecule_map !! mol_id = None →
    ∃ mol_id', r = inl (KeyError mol_id'))).
  - by intros [? ?].
  - intros k conc m r Hfresh IH Hin Hnone.
    destruct r as [[k']|new]; simpl; [by eexists|].
    apply lookup_insert_is_Some in Hin as [->|[_ Hin]].
    + rewrite Hnone. simpl. by eexists.
    + by destruct (IH Hin Hnone).
Qed.

Lemma reset_lookup (external_concentrations : gmap string Q) molecule :
  map_fold (λ molecule (_ : Q) environment_change,
              <[molecule := 0%Q]> environment_change)
           (∅ : gmap string Q) external_concentrations !! molecule
  = (λ _, 0%Q) <$> external_concentrations !! molecule.
Proof.
  apply (map_fold_weak_ind (λ (r : gmap string Q) (m : gmap string Q),
    r !! molecule = (λ _, 0%Q) <$> m !! molecule)).
  - by rewrite !lookup_empty.
  - intros k conc m r Hfresh IH.
    destruct (decide (k = molecule)) as [->|Hne].
    + by rewrite !lookup_insert_eq.
    + by rewrite !lookup_insert_ne.
Qed.

(** [apply_outer_update] returns when every molecule of the update's
    concentrations is in [external_to_molecule_map], and raises a
    [KeyError] when one is not.  When it returns, [environment_change]
    holds a zero for exactly the molecules of these concentrations, so
    that deltas for such molecules are then accumulated without error,
    each entry holding its delta. *)
Theorem apply_outer_update_resets update self :
  let external := default ∅ (update_concentrations update) in
  ((∀ mol_id, is_Some (external !! mol_id) →
      is_Some (external_to_molecule_map self !! mol_id)) →
   ∃ self',
     apply_outer_update update self = inr self'
     ∧ external_concentrations self' = external
     ∧ (∀ molecule, environment_change (kinetics self') !! molecule
                    = (λ _, 0%Q) <$> external !! molecule)
     ∧ ∀ environment_deltas,
         (∀ molecule, is_Some (environment_deltas !! molecule) →
            is_Some (external !! molecule)) →
         ∃ kinetics',
           accumulate_deltas environment_deltas (kinetics self') = inr kinetics'
           ∧ ∀ molecule count, environment_deltas !! molecule = Some count →
               environment_change kinetics' !! molecule = Some (0 + count)%Q)
  ∧ (∀ mol_id, is_Some (external !! mol_id) →
       external_to_molecule_map self !! mol_id = None →
       ∃ mol_id', apply_outer_update update self = inl (KeyError mol_id')).
Proof.
  cbv zeta. unfold apply_outer_update. split.
  - intros Hall.
    destruct (new_concentrations_returns _ _ Hall) as [new ->]. simpl.
    eexists. split; [done|]. simpl. split; [done|].
    split; [intros molecule; apply reset_lookup|].
    intros deltas Hdeltas.
    match goal with |- ∃ k', accumulate_deltas _ ?k = _ ∧ _ =>
      destruct (accumulate_deltas_outcome deltas k) as [Hreturns _] end.
    destruct Hreturns as (kinetics' & -> & _ & Hlookup).
    { simpl. intros molecule Hm. rewrite reset_lookup.
      by apply fmap_is_Some, Hdeltas. }
    exists kinetics'. split; [done|]. intros molecule count Hcount.
    rewrite Hlookup, Hcount. simpl. rewrite reset_lookup.
    destruct (Hdeltas molecule) as [conc ->]; [by rewrite Hcount|]. done.
  - intros mol_id Hin Hnone.
    destruct (new_concentrations_raises _ _ _ Hin Hnone) as [mol_id' ->].
    by exists mol_id'.
Qed.

(** The surrogate of one reaction after the environment has reported a
    glucose concentration. *)
Lemma apply_outer_update_resets_witness :
  let self := {| kinetics := example_surrogate; division_time := 100; division := [];
                 external_concentrations := ∅;
                 external_to_molecule_map := {[ "GLC"%string := "GLC[p]"%string ]};
                 motile_force := (1 # 100, 1 # 100)%Q |} in
  let update := {| update_concentrations := Some {[ "GLC"%string := 1%Q ]};
                   update_boundary_view := None |} in
  ∃ self',
    apply_outer_update update self = inr self'
    ∧ external_concentrations self' = {[ "GLC"%string := 1%Q ]}
    ∧ (∀ molecule, environment_change (kinetics self') !! molecule
                   = (λ _, 0%Q) <$> ({[ "GLC"%string := 1%Q ]} : gmap string Q) !! molecule)
    ∧ ∀ environment_deltas,
        (∀ molecule, is_Some (environment_deltas !! molecule) →
           is_Some (({[ "GLC"%string := 1%Q ]} : gmap string Q) !! molecule)) →
        ∃ kinetics',
          accumulate_deltas environment_deltas (kinetics self') = inr kinetics'
          ∧ ∀ molecule count, environment_deltas !! molecule = Some count →
              environment_change kinetics' !! molecule = Some (0 + count)%Q.
Proof.
  cbv zeta.
  destruct (apply_outer_update_resets
              {| update_concentrations := Some {[ "GLC"%string := 1%Q ]};
                 update_boundary_view := None |}
              {| kinetics := example_surrogate; division_time := 100; division := [];
                 external_concentrations := ∅;
                 external_to_molecule_map := {[ "GLC"%string := "GLC[p]"%string ]};
                 motile_force := (1 # 100, 1 # 100)%Q |}) as [Hreturns _].
  apply Hreturns.
  simpl. intros mol_id [conc [<- _]%lookup_singleton_Some]. by eexists.
Defined.

End TransportAgent.

(* ===================================================================== *)
(** * vivarium/processes/convenience_kinetics.py *)
(* ===================================================================== *)

Module ConvenienceKinetics.
Import Results DictUtils.

Inductive error := KeyError (key : string).

(** [dict[key]] on a dict that is otherwise traversed in order. *)
Definition item {V : Type} (key : string) (items : list (string * V)) : option V :=
  (λ found : nat * (string * V), found.2.2)
    <$> list_find (λ entry, entry.1 = key) items.

Section Process.
(** [scipy.constants.N_A] *)
Variable N_A : Q.
(** [self.kinetic_rate_laws.get_fluxes(flattened_states)], from
    [vivarium.utils.kinetic_rate_laws.KineticFluxModel]: the flux of each
    reaction, in the order of the dict. *)
Variable get_fluxes : gmap (string * string) Q → list (string * Q).

(** The fields of a [ConvenienceKinetics] instance that [next_update]
    uses: the stoichiometry of each reaction, its keys being
    [(role, state)] tuples, and the roles with their states. *)
Record ConvenienceKinetics := {
  reactions : gmap string (list ((string * string) * Q));
  roles : list (string * list string)
}.

(** [update[role_id][state_id] = value] *)
Definition assign (role_id state_id : string) (value : Q)
    (update : gmap string (gmap string Q)) : error + gmap string (gmap string Q) :=
  states ← or_raise (KeyError role_id) (update !! role_id);
  inr (<[role_id := <[state_id := value]> states]> update).

(** The body of the innermost loop, for a role of [self.roles], an item
    of the stoichiometry and the flux of its reaction. *)
Definition exchange (timestep mmol_to_count flux : Q)
    (role_state_id : string * string) (coeff : Q) (role_id : string)
    (update : gmap string (gmap string Q)) : error + gmap string (gmap string Q) :=
  (* separate the state_id and role_id *)
  if decide (role_id = role_state_id.1 ∨ role_id = role_state_id.2) then
    let state_id := role_state_id.2 in
    let state_flux := (coeff * flux * timestep)%Q in
    if decide (role_id = "external"%string) then
      (* convert exchange fluxes to counts with mmol_to_count *)
      let delta_counts := Transcription.int (state_flux * mmol_to_count)%Q in
      assign "exchange" state_id (inject_Z delta_counts) update
    else assign role_id state_id state_flux update
  else inr update.

(** [{role: {} for role in self.roles.keys()}], then
    [update.update({'fluxes': fluxes})]. *)
Definition initial_update (self : ConvenienceKinetics) (fluxes : list (string * Q))
    : gmap string (gmap string Q) :=
  <["fluxes"%string := foldl (λ d '(reaction_id, flux), <[reaction_id := flux]> d) ∅ fluxes]>
    (foldl (λ update '(role, _), <[role := ∅]> update) ∅ (roles self)).

(** The three loops of [next_update] over the fluxes, the stoichiometry
    of each reaction and the roles.  [fluxes.items()] is a list of its
    own, so the loop runs over the fluxes as they were returned whatever
    is assigned in [update] meanwhile. *)
Definition exchanges (self : ConvenienceKinetics) (timestep mmol_to_count : Q)
    (fluxes : list (string * Q)) (update : gmap string (gmap string Q))
    : error + gmap string (gmap string Q) :=
  foldl (λ acc '(reaction_id, flux),
           update ← acc;
           stoichiometry ← or_raise (KeyError reaction_id)
                              (reactions self !! reaction_id);
           foldl (λ acc '(role_state_id, coeff),
                    foldl (λ acc '(role_id, _),
                             update ← acc;
                             exchange timestep mmol_to_count flux
                                      role_state_id coeff role_id update)
                          acc (roles self))
                 (inr update) stoichiometry)
        (inr update) fluxes.

(** [ConvenienceKinetics.next_update(timestep, states)]; [states] is a
    dict of dicts that [tuplify_role_dicts] traverses. *)
Definition next_update (self : ConvenienceKinetics) (timestep : Q)
    (states : list (string * list (string * Q)))
    : error + gmap string (gmap string Q) :=
  (* get mmol_to_count for converting flux to exchange counts *)
  internal ← or_raise (KeyError "internal") (item "internal" states);
  volume ← or_raise (KeyError "volume") (item "volume" internal);
  let mmol_to_count := (N_A * (1 # 1000) * volume)%Q in
  (* kinetic rate law requires a flat dict with ('role', 'state') keys. *)
  let flattened_states := tuplify_role_dicts states in
  let fluxes := get_fluxes flattened_states in
  exchanges self timestep mmol_to_count fluxes (initial_update self fluxes).

(** ** The assignments of the loops *)

(** An assignment [update[role_id][state_id] = value]. *)
Definition assignment : Type := string * string * Q.

(** The assignment that the body of the innermost loop makes, if any. *)
Definition exchanged (timestep mmol_to_count flux : Q)
    (role_state_id : string * string) (coeff : Q) (role_id : string)
    : list assignment :=
  if decide (role_id = role_state_id.1 ∨ role_id = role_state_id.2) then
    if decide (role_id = "external"%string) then
      [("exchange"%string, role_state_id.2,
        inject_Z (Transcription.int (coeff * flux * timestep * mmol_to_count)%Q))]
    else [(role_id, role_state_id.2, (coeff * flux * timestep)%Q)]
  else [].

(** The assignments of the three loops, in the order in which they are
    made. *)
Definition assignments (self : ConvenienceKinetics) (timestep mmol_to_count : Q)
    (fluxes : list (string * Q)) : list assignment :=
  '(reaction_id, flux) ← fluxes;
  '(role_state_id, coeff) ← default [] (reactions self !! reaction_id);
  '(role_id, _) ← roles self;
  exchanged timestep mmol_to_count flux role_state_id coeff role_id.

Definition assign_all (ws : list assignment)
    (update : error + gmap string (gmap string Q)) : error + gmap string (gmap string Q) :=
  foldl (λ acc '(role_id, state_id, value), update ← acc; assign role_id state_id value update)
        update ws.

Lemma assign_all_app ws1 ws2 update :
  assign_all (ws1 ++ ws2) update = assign_all ws2 (assign_all ws1 update).
Proof. unfold assign_all. by rewrite foldl_app. Qed.

Lemma assign_all_raised ws e : assign_all ws (inl e) = inl e.
Proof. induction ws as [|[[r s] v] ws IH]; [done|]. simpl. apply IH. Qed.

Lemma exchange_assigns timestep mmol_to_count flux role_state_id coeff role_id update :
  exchange timestep mmol_to_count flux role_state_id coeff role_id update
  = assign_all (exchanged timestep mmol_to_count flux role_state_id coeff role_id)
               (inr update).
Proof.
  unfold exchange, exchanged. repeat case_decide; simpl; done.
Qed.

Lemma roles_loop_assigns timestep mmol_to_count flux role_state_id coeff
    (some_roles : list (string * list string)) acc :
  foldl (λ acc '(role_id, _),
           update ← acc;
           exchange timestep mmol_to_count flux role_state_id coeff role_id update)
        acc some_roles
  = assign_all ('(role_id, _) ← some_roles;
                 exchanged timestep mmol_to_count flux role_state_id coeff role_id) acc.
Proof.
  revert acc. induction some_roles as [|[role_id states] some_roles IH]; intros acc; [done|].
  simpl. rewrite IH, assign_all_app. f_equal.
  destruct acc as [e|update]; simpl.
  - by rewrite assign_all_raised.
  - apply exchange_assigns.
Qed.

Lemma stoichiometry_loop_assigns self timestep mmol_to_count flux
    (stoichiometry : list ((string * string) * Q)) acc :
  foldl (λ acc '(role_state_id, coeff),
           foldl (λ acc '(role_id, _),
                    update ← acc;
                    exchange timestep mmol_to_count flux role_state_id coeff role_id update)
                 acc (roles self))
        acc stoichiometry
  = assign_all ('(role_state_id, coeff) ← stoichiometry;
                 '(role_id, _) ← roles self;
                 exchanged timestep mmol_to_count flux role_state_id coeff role_id) acc.
Proof.
  revert acc. induction stoichiometry as [|[role_state_id coeff] stoichiometry IH];
    intros acc; [done|].
  simpl. by rewrite IH, assign_all_app, roles_loop_assigns.
Qed.

(** When the loops end without an exception they have made the
    assignments, one after the other. *)
Lemma exchanges_assigns self timestep mmol_to_count fluxes update update' :
  exchanges self timestep mmol_to_count fluxes update = inr update' →
  assign_all (assignments self timestep mmol_to_count fluxes) (inr update) = inr update'.
Proof.
  unfold exchanges, assignments.
  generalize (inr update : error + gmap string (gmap string Q)). clear update.
  intros acc. revert acc update'.
  induction fluxes as [|[reaction_id flux] fluxes IH] using rev_ind;
    intros acc update'; [done|].
  rewrite foldl_app, bind_app, assign_all_app. simpl.
  destruct (foldl _ acc fluxes) as [e|update1] eqn:Hfold; simpl; [done|].
  rewrite (IH _ _ Hfold).
  destruct (reactions self !! reaction_id) as [stoichiometry|]; simpl; [|done].
  by rewrite stoichiometry_loop_assigns, app_nil_r.
Qed.

(** [update[role_id][state_id]] *)
Definition entry (update : gmap string (gmap string Q)) (role_id state_id : string)
    : option Q :=
  update !! role_id ≫= (.!! state_id).

Lemma assign_entry role_id state_id value update update' role_id' state_id' :
  assign role_id state_id value update = inr update' →
  entry update' role_id' state_id'
  = if decide ((role_id, state_id) = (role_id', state_id')) then Some value
    else entry update role_id' state_id'.
Proof.
  unfold assign, entry.
  destruct (update !! role_id) as [states|] eqn:Hrole; simpl; [|done]. intros [= <-].
  case_decide as Heq.
  - injection Heq as <- <-. rewrite lookup_insert_eq. simpl. by rewrite lookup_insert_eq.
  - destruct (decide (role_id = role_id')) as [<-|Hne].
    + rewrite lookup_insert_eq, Hrole. simpl. rewrite lookup_insert_ne; [done|congruence].
    + by rewrite lookup_insert_ne.
Qed.

(** The assignment made last to an entry is the one that stays. *)
Lemma assign_all_last before role_id state_id value after update update' :
  assign_all (before ++ (role_id, state_id, value) :: after) (inr update) = inr update' →
  (∀ value', (role_id, state_id, value') ∉ after) →
  entry update' role_id state_id = Some value.
Proof.
  rewrite assign_all_app. simpl.
  destruct (assign_all before (inr update)) as [e|update1]; simpl.
  { by rewrite assign_all_raised. }
  destruct (assign role_id state_id value update1) as [e|update2] eqn:Hassign; simpl.
  { by rewrite assign_all_raised. }
  assert (Hentry : entry update2 role_id state_id = Some value).
  { rewrite (assign_entry _ _ _ _ _ _ _ Hassign). by rewrite decide_True. }
  clear Hassign. revert update2 Hentry.
  induction after as [|[[r s] v] after IH]; intros update2 Hentry; simpl.
  - by intros [= <-].
  - intros Hrest Hnot.
    destruct (assign r s v update2) as [e|update3] eqn:Hassign; simpl in Hrest.
    { by rewrite assign_all_raised in Hrest. }
    apply (IH update3); [|done|].
    + rewrite (assign_entry _ _ _ _ _ _ _ Hassign). rewrite decide_False; [done|].
      intros [= -> ->]. apply (Hnot v). left.
    + intros v' Hin. apply (Hnot v'). by right.
Qed.

(** An entry that no assignment addresses stays as it was. *)
Lemma assign_all_other ws role_id state_id update update' :
  assign_all ws (inr update) = inr update' →
  (∀ value, (role_id, state_id, value) ∉ ws) →
  entry update' role_id state_id = entry update role_id state_id.
Proof.
  revert update. induction ws as [|[[r s] v] ws IH]; intros update; simpl.
  - by intros [= <-].
  - intros Hrest Hnot.
    destruct (assign r s v update) as [e|update1] eqn:Hassign; simpl in Hrest.
    { by rewrite assign_all_raised in Hrest. }
    rewrite (IH update1); [| done |].
    + rewrite (assign_entry _ _ _ _ _ _ _ Hassign). rewrite decide_False; [done|].
      intros [= -> ->]. apply (Hnot v). left.
    + intros v' Hin. apply (Hnot v'). by right.
Qed.

Lemma exchanged_external timestep mmol_to_count flux role_state_id coeff role_id state_id value :
  ("external"%string, state_id, value)
    ∉ exchanged timestep mmol_to_count flux role_state_id coeff role_id.
Proof.
  unfold exchanged. repeat case_decide; try apply not_elem_of_nil;
    intros [=]%list_elem_of_singleton; congruence.
Qed.

Lemma assignments_external self timestep mmol_to_count fluxes state_id value :
  ("external"%string, state_id, value) ∉ assignments self timestep mmol_to_count fluxes.
Proof.
  unfold assignments.
  intros ([reaction_id flux] & Hin & _)%list_elem_of_bind.
  apply list_elem_of_bind in Hin as ([role_state_id coeff] & Hin & _).
  apply list_elem_of_bind in Hin as ([role_id states] & Hin & _).
  by apply exchanged_external in Hin.
Qed.

Lemma initial_update_entry self fluxes role_id state_id :
  role_id ≠ "fluxes"%string → entry (initial_update self fluxes) role_id state_id = None.
Proof.
  intros Hne. unfold entry, initial_update. rewrite lookup_insert_ne by done.
  generalize (roles self). intros some_roles.
  induction some_roles as [|[role states] some_roles IH] using rev_ind; [done|].
  rewrite foldl_app. simpl.
  destruct (decide (role = role_id)) as [->|Hr].
  - by rewrite lookup_insert_eq.
  - by rewrite lookup_insert_ne.
Qed.

(** What [next_update] makes of several contributions to one state.  The
    loops assign, they do not add: when [next_update] returns, the entry
    [update[role_id][state_id]] holds the value of the assignment made
    last to it -- [coeff * flux * timestep] for one coefficient of one
    reaction, or that value converted to a count with [int] under
    ['exchange'] for an ['external'] state -- and the contributions
    assigned before are lost.  Nothing is assigned under ['external']. *)
Theorem next_update_assigns_last self timestep states update internal volume :
  item "internal" states = Some internal →
  item "volume" internal = Some volume →
  next_update self timestep states = inr update →
  let fluxes := get_fluxes (tuplify_role_dicts states) in
  let made := assignments self timestep (N_A * (1 # 1000) * volume)%Q fluxes in
  (∀ before role_id state_id value after,
     made = before ++ (role_id, state_id, value) :: after →
     (∀ value', (role_id, state_id, value') ∉ after) →
     entry update role_id state_id = Some value)
  ∧ (∀ role_id state_id,
       role_id ≠ "fluxes"%string →
       (∀ value, (role_id, state_id, value) ∉ made) →
       entry update role_id state_id = None)
  ∧ ∀ state_id, entry update "external" state_id = None.
Proof.
  intros Hinternal Hvolume. unfold next_update. rewrite Hinternal. simpl.
  rewrite Hvolume. simpl. intros Hexchanges%exchanges_assigns. cbv zeta.
  split; [|split].
  - intros before role_id state_id value after Hmade Hlast.
    rewrite Hmade in Hexchanges. by eapply assign_all_last.
  - intros role_id state_id Hne Hnone.
    rewrite (assign_all_other _ _ _ _ _ Hexchanges Hnone).
    by apply initial_update_entry.
  - intros state_id.
    rewrite (assign_all_other _ _ _ _ _ Hexchanges).
    + by apply initial_update_entry.
    + intros value. apply assignments_external.
Qed.

End Process.

(** ** Two reactions that make the same molecule *)

(** Both reactions make the internal molecule [A], the first with a flux
    of 1 and the second with a flux of 2; the volume is 1 fL. *)
Definition example_self : ConvenienceKinetics := {|
  reactions := {[ "reaction1"%string := [(("internal", "A")%string, 1%Q)];
                  "reaction2"%string := [(("internal", "A")%string, 1%Q)] ]};
  roles := [("internal", ["A"; "volume"]); ("external", []);
            ("fluxes", ["reaction1"; "reaction2"]); ("exchange", [])]%string
|}.

Definition example_states : list (string * list (string * Q)) :=
  [("internal", [("A", 0%Q); ("volume", 1%Q)]); ("external", [])]%string.

Definition example_fluxes (_ : gmap (string * string) Q) : list (string * Q) :=
  [("reaction1", 1%Q); ("reaction2", 2%Q)]%string.

(** The update reports a change of 2 for [A], the contribution of the
    second reaction, where both together make 3. *)
Lemma next_update_assigns_last_witness :
  ∃ update,
    next_update 1 example_fluxes example_self 1 example_states = inr update
    ∧ entry update "internal" "A" = Some (1 * 2 * 1)%Q
    ∧ ∀ state_id, entry update "external" state_id = None.
Proof.
  destruct (next_update 1 example_fluxes example_self 1 example_states)
    as [e|update] eqn:Hupdate; [by vm_compute in Hupdate|].
  exists update. split; [done|].
  destruct (next_update_assigns_last 1 example_fluxes example_self 1 example_states
              update [("A"%string, 0%Q); ("volume"%string, 1%Q)] 1%Q
              eq_refl eq_refl Hupdate) as (Hlast & _ & Hexternal).
  split; [|exact Hexternal].
  apply (Hlast [("internal"%string, "A"%string, (1 * 1 * 1)%Q)] "internal"%string
           "A"%string (1 * 2 * 1)%Q []).
  - reflexivity.
  - intros value' Hin. by apply elem_of_nil in Hin.
Defined.

End ConvenienceKinetics.

(* ===================================================================== *)
(** * [tuple_key_to_string] of vivarium/utils/dict_utils.py *)
(* ===================================================================== *)

Module TupleKeys.

(** A key of a dict: a string or a tuple of strings. *)
Inductive key := StrKey (s : string) | TupleKey (parts : list string).

#[export] Instance key_eq_dec : EqDecision key.
Proof. solve_decision. Defined.

(** The values that [tuple_key_to_string] tells apart: dicts (their items
    in order), lists, tuples of strings, and the others, which it leaves
    alone. *)
Inductive value :=
| Other (repr : string)
| Str (s : string)
| Tuple (parts : list string)
| List (elements : list value)
| Dict (items : list (key * value)).

(** [tuple_separator = '___'] and [tuple_separator.join(parts)] *)
Definition tuple_separator : string := "___".

Fixpoint join (separator : string) (parts : list string) : string :=
  match parts with
  | [] => EmptyString
  | [part] => part
  | part :: parts => part +:+ separator +:+ join separator parts
  end.

(** [dictionary[k] = v]: an existing key keeps its place. *)
Fixpoint set_item (k : key) (v : value) (dictionary : list (key * value))
    : list (key * value) :=
  match dictionary with
  | [] => [(k, v)]
  | (k', v') :: dictionary =>
    if decide (k' = k) then (k, v) :: dictionary
    else (k', v') :: set_item k v dictionary
  end.

(** [dictionary[k]], for a key of the dict. *)
Definition get_item (k : key) (dictionary : list (key * value)) : option value :=
  (λ found : nat * (key * value), found.2.2)
    <$> list_find (λ entry, entry.1 = k) dictionary.

(** [del dictionary[k]] *)
Definition del_item (k : key) (dictionary : list (key * value)) : list (key * value) :=
  filter (λ entry, entry.1 ≠ k) dictionary.

(** The second loop: [for tuple_k in tuple_ks: ...]. *)
Definition string_key (dictionary : list (key * value)) (k : key)
    : list (key * value) :=
  match k with
  | TupleKey parts =>
    match get_item k dictionary with
    | Some v => del_item k (set_item (StrKey (join tuple_separator parts)) v dictionary)
    | None => dictionary
    end
  | StrKey _ => dictionary
  end.

Definition is_tuple (k : key) : bool :=
  match k with TupleKey _ => true | StrKey _ => false end.

Definition string_keys (dictionary : list (key * value)) : list (key * value) :=
  foldl string_key dictionary (filter (λ k, is_tuple k = true) dictionary.*1).

(** [tuple_key_to_string(dictionary)], on the value that holds the dict;
    the dict is changed in place, and so are the dicts and lists below
    it. *)
Fixpoint tuple_key_to_string (dictionary : value) : value :=
  match dictionary with
  | Dict items =>
    (* get down to the leaves first *)
    let items :=
      map (λ '(k, v),
             (k, match v with
                 | Dict _ => tuple_key_to_string v
                 | List elements =>
                   (* convert tuples in lists *)
                   List (map (λ var,
                                match var with
                                | Tuple parts => Str (join tuple_separator parts)
                                | Dict _ => tuple_key_to_string var
                                | _ => var
                                end) elements)
                 | _ => v
                 end)) items in
    (* which keys are tuples? *)
    Dict (string_keys items)
  | _ => dictionary
  end.

(** The first loop's work on one element of a list and on one value of the
    dict. *)
Definition element (var : value) : value :=
  match var with
  | Tuple parts => Str (join tuple_separator parts)
  | Dict _ => tuple_key_to_string var
  | _ => var
  end.

Definition leaves (v : value) : value :=
  match v with
  | Dict _ => tuple_key_to_string v
  | List elements => List (map element elements)
  | _ => v
  end.

Lemma tuple_key_to_string_Dict items :
  tuple_key_to_string (Dict items)
  = Dict (string_keys (map (λ '(k, v), (k, leaves v)) items)).
Proof. reflexivity. Qed.

(** No tuple is left where the function looks: the keys of the dict, of the
    dicts that are its values, of the dicts in the lists that are its
    values, and so on down; and the elements of those lists. *)
Fixpoint string_keyed (v : value) : bool :=
  match v with
  | Dict items =>
    forallb (λ '(k, v),
               negb (is_tuple k)
               && match v with
                  | Dict _ => string_keyed v
                  | List elements =>
                    forallb (λ var,
                               match var with
                               | Tuple _ => false
                               | Dict _ => string_keyed var
                               | _ => true
                               end) elements
                  | _ => true
                  end) items
  | _ => true
  end.

Definition element_ok (var : value) : bool :=
  match var with
  | Tuple _ => false
  | Dict _ => string_keyed var
  | _ => true
  end.

Definition leaves_ok (v : value) : bool :=
  match v with
  | Dict _ => string_keyed v
  | List elements => forallb element_ok elements
  | _ => true
  end.

Lemma string_keyed_Dict items :
  string_keyed (Dict items)
  = forallb (λ '(k, v), negb (is_tuple k) && leaves_ok v) items.
Proof. reflexivity. Qed.

(** Does the tuple key [k] join to the string [s]? *)
Definition joins_to (s : string) (k : key) : bool :=
  match k with
  | TupleKey parts => bool_decide (join tuple_separator parts = s)
  | StrKey _ => false
  end.

Section value_ind.
Variable P : value → Prop.
Hypothesis HOther : ∀ repr, P (Other repr).
Hypothesis HStr : ∀ s, P (Str s).
Hypothesis HTuple : ∀ parts, P (Tuple parts).
Hypothesis HList : ∀ elements, Forall P elements → P (List elements).
Hypothesis HDict : ∀ items, Forall (λ entry : key * value, P entry.2) items → P (Dict items).

Fixpoint value_nested_ind (v : value) : P v :=
  match v with
  | Other repr => HOther repr
  | Str s => HStr s
  | Tuple parts => HTuple parts
  | List elements =>
    HList elements
      ((fix go (l : list value) : Forall P l :=
          match l with
          | [] => @List.Forall_nil _ P
          | var :: l => @List.Forall_cons _ P var l (value_nested_ind var) (go l)
          end) elements)
  | Dict items =>
    HDict items
      ((fix go (l : list (key * value)) : Forall (λ entry : key * value, P entry.2) l :=
          match l with
          | [] => @List.Forall_nil _ _
          | entry :: l =>
            @List.Forall_cons _ (λ entry : key * value, P entry.2) entry l
              (value_nested_ind entry.2) (go l)
          end) items)
  end.
End value_ind.

(** ** The dict operations *)

Lemma get_item_cons k k' v' dictionary :
  get_item k ((k', v') :: dictionary)
  = if decide (k' = k) then Some v' else get_item k dictionary.
Proof.
  unfold get_item. simpl. destruct (decide (k' = k)) as [Heq|Hne]; [done|].
  by destruct (list_find _ dictionary) as [[index found]|].
Qed.

Lemma get_item_Some k v dictionary :
  get_item k dictionary = Some v → (k, v) ∈ dictionary.
Proof.
  induction dictionary as [|[k' v'] dictionary IH]; [done|].
  rewrite get_item_cons. destruct (decide (k' = k)) as [->|Hne].
  - intros [= ->]. left.
  - intros Hget. right. by apply IH.
Qed.

Lemma get_item_None k dictionary :
  get_item k dictionary = None ↔ k ∉ dictionary.*1.
Proof.
  induction dictionary as [|[k' v'] dictionary IH].
  - split; [intros _; apply not_elem_of_nil|done].
  - rewrite get_item_cons, fmap_cons, not_elem_of_cons. simpl.
    destruct (decide (k' = k)) as [->|Hne]; [split; [done|tauto]|].
    rewrite IH. split; [by split|tauto].
Qed.

Lemma get_item_NoDup k v dictionary :
  NoDup dictionary.*1 → (k, v) ∈ dictionary → get_item k dictionary = Some v.
Proof.
  induction dictionary as [|[k' v'] dictionary IH]; [by intros _ ?%elem_of_nil|].
  rewrite fmap_cons, NoDup_cons, get_item_cons. simpl. intros [Hfresh Hnodup] Hin.
  apply elem_of_cons in Hin as [[= <- <-]|Hin]; [by rewrite decide_True|].
  rewrite decide_False; [by apply IH|].
  intros ->. apply Hfresh. apply list_elem_of_fmap. by exists (k, v).
Qed.

Lemma set_item_elem k v dictionary entry :
  entry ∈ set_item k v dictionary → entry = (k, v) ∨ entry ∈ dictionary.
Proof.
  induction dictionary as [|[k' v'] dictionary IH]; simpl.
  - intros ->%list_elem_of_singleton. by left.
  - destruct (decide (k' = k)) as [->|Hne].
    + intros [->|Hin]%elem_of_cons; [by left|]. right. by right.
    + intros [->|Hin]%elem_of_cons; [right; left|].
      destruct (IH Hin) as [->|Hin']; [by left|]. right. by right.
Qed.

Lemma get_item_set_item k' k v dictionary :
  get_item k' (set_item k v dictionary)
  = if decide (k' = k) then Some v else get_item k' dictionary.
Proof.
  induction dictionary as [|[k0 v0] dictionary IH]; simpl.
  - rewrite get_item_cons. by repeat case_decide; subst.
  - destruct (decide (k0 = k)) as [->|Hne0]; rewrite !get_item_cons.
    + by repeat case_decide; subst.
    + rewrite IH. by repeat case_decide; subst.
Qed.

Lemma get_item_del_item k' k dictionary :
  get_item k' (del_item k dictionary)
  = if decide (k' = k) then None else get_item k' dictionary.
Proof.
  unfold del_item. induction dictionary as [|[k0 v0] dictionary IH].
  - by destruct (decide (k' = k)).
  - rewrite filter_cons. simpl. destruct (decide (k0 ≠ k)) as [Hne0|Heq0].
    + rewrite !get_item_cons, IH. by repeat case_decide; subst.
    + apply dec_stable in Heq0 as ->. rewrite IH, get_item_cons.
      by repeat case_decide; subst.
Qed.

(** ** The second loop *)

Lemma string_key_elem dictionary k entry :
  entry ∈ string_key dictionary k →
  entry.2 ∈ dictionary.*2
  ∧ (is_tuple entry.1 = true →
     entry.1 ∈ dictionary.*1 ∧ (is_tuple k = true → entry.1 ≠ k)).
Proof.
  assert (Hold : entry ∈ dictionary → entry.2 ∈ dictionary.*2 ∧ entry.1 ∈ dictionary.*1).
  { intros Hin. split; apply list_elem_of_fmap; by exists entry. }
  destruct k as [s|parts]; simpl.
  { intros Hin. destruct (Hold Hin). by repeat split. }
  destruct (get_item (TupleKey parts) dictionary) as [v|] eqn:Hget.
  - unfold del_item. intros [Hne Hin]%list_elem_of_filter.
    apply set_item_elem in Hin as [->|Hin].
    + split; [|done]. apply get_item_Some in Hget.
      apply list_elem_of_fmap. by exists (TupleKey parts, v).
    + destruct (Hold Hin). by repeat split.
  - intros Hin. destruct (Hold Hin) as [Hvalue Hkey]. repeat split; [done..|].
    intros _ Heq. apply get_item_None in Hget. apply Hget. by rewrite <- Heq.
Qed.

Lemma string_key_loop_elem ks dictionary entry :
  entry ∈ foldl string_key dictionary ks →
  entry.2 ∈ dictionary.*2
  ∧ (is_tuple entry.1 = true →
     entry.1 ∈ dictionary.*1 ∧ ∀ k, k ∈ ks → is_tuple k = true → entry.1 ≠ k).
Proof.
  revert dictionary. induction ks as [|k ks IH]; intros dictionary; simpl.
  - intros Hin. split; [|split; [|by intros k ?%elem_of_nil]];
      apply list_elem_of_fmap; by exists entry.
  - intros Hin. destruct (IH _ Hin) as [Hvalue Hkey].
    apply list_elem_of_fmap in Hvalue as (entry1 & Hvalue & Hin1).
    destruct (string_key_elem _ _ _ Hin1) as [Hvalue1 _].
    split; [by rewrite Hvalue|]. intros Htuple.
    destruct (Hkey Htuple) as [Hkey2 Hfresh].
    apply list_elem_of_fmap in Hkey2 as (entry2 & Hkey2 & Hin2).
    destruct (string_key_elem _ _ _ Hin2) as [_ Hkey3].
    rewrite Hkey2 in *. destruct (Hkey3 Htuple) as [Hkey4 Hne]. split; [done|].
    intros k' [->|Hin']%elem_of_cons; [done|by apply Hfresh].
Qed.

Lemma string_keys_elem dictionary entry :
  entry ∈ string_keys dictionary →
  is_tuple entry.1 = false ∧ entry.2 ∈ dictionary.*2.
Proof.
  intros Hin. destruct (string_key_loop_elem _ _ _ Hin) as [Hvalue Hkey].
  split; [|done]. destruct (is_tuple entry.1) eqn:Htuple; [|done].
  destruct (Hkey eq_refl) as [Hin' Hfresh].
  destruct (Hfresh entry.1); [|done..]. by apply list_elem_of_filter.
Qed.

Lemma string_keys_id dictionary :
  Forall (λ entry : key * value, is_tuple entry.1 = false) dictionary →
  string_keys dictionary = dictionary.
Proof.
  intros Hkeys. unfold string_keys.
  replace (filter _ dictionary.*1) with (@nil key); [done|].
  symmetry. induction Hkeys as [|entry dictionary Hkey Hkeys IH]; [done|].
  rewrite fmap_cons, filter_cons, decide_False; [done|by rewrite Hkey].
Qed.

Lemma string_key_lookup dictionary k k' :
  get_item k' (string_key dictionary k)
  = match k, get_item k dictionary with
    | TupleKey parts, Some v =>
      if decide (k' = k) then None
      else if decide (k' = StrKey (join tuple_separator parts)) then Some v
      else get_item k' dictionary
    | _, _ => get_item k' dictionary
    end.
Proof.
  destruct k as [s|parts]; [done|]. simpl.
  destruct (get_item (TupleKey parts) dictionary) as [v|]; [|done].
  by rewrite get_item_del_item, get_item_set_item.
Qed.

Lemma string_key_loop_tuple ks dictionary k :
  is_tuple k = true → k ∉ ks →
  get_item k (foldl string_key dictionary ks) = get_item k dictionary.
Proof.
  intros Htuple. revert dictionary.
  induction ks as [|k0 ks IH]; intros dictionary Hfresh; [done|].
  apply not_elem_of_cons in Hfresh as [Hne Hfresh]. simpl.
  rewrite IH by done. rewrite string_key_lookup.
  destruct k0 as [s|parts]; [done|].
  destruct (get_item (TupleKey parts) dictionary) as [v|]; [|done].
  rewrite decide_False by done. rewrite decide_False; [done|].
  intros ->. done.
Qed.

Lemma string_key_loop_string ks dictionary s :
  NoDup ks → (∀ k, k ∈ ks → is_tuple k = true ∧ is_Some (get_item k dictionary)) →
  get_item (StrKey s) (foldl string_key dictionary ks)
  = match last (filter (λ k, joins_to s k = true) ks) with
    | Some k => get_item k dictionary
    | None => get_item (StrKey s) dictionary
    end.
Proof.
  induction ks as [|k0 ks IH] using rev_ind; [done|].
  intros (Hnodup & Hfresh & _)%NoDup_app Hks.
  destruct (Hks k0) as [Htuple [v Hget]]; [set_solver|].
  assert (Hnew : k0 ∉ ks).
  { intros Hin. apply (Hfresh _ Hin). left. }
  pose proof (string_key_loop_tuple ks dictionary k0 Htuple Hnew) as Hsame.
  destruct k0 as [s0|parts]; [done|].
  rewrite foldl_snoc, filter_app, string_key_lookup, Hsame, Hget.
  rewrite decide_False by done.
  rewrite filter_cons, filter_nil. simpl.
  destruct (decide (StrKey s = StrKey (join tuple_separator parts))) as [[= ->]|Hne].
  - rewrite bool_decide_eq_true_2 by done. rewrite decide_True by done.
    by rewrite last_snoc.
  - rewrite bool_decide_eq_false_2 by congruence. rewrite decide_False by done.
    rewrite app_nil_r. apply IH; [done|].
    intros k Hin. apply Hks. set_solver.
Qed.

(** ** The first loop *)

Lemma leaves_keys (items : list (key * value)) :
  (map (λ '(k, v), (k, leaves v)) items).*1 = items.*1.
Proof.
  induction items as [|[k v] items IH]; [done|].
  simpl map. rewrite !fmap_cons. by rewrite IH.
Qed.

Lemma leaves_lookup k (items : list (key * value)) :
  get_item k (map (λ '(k, v), (k, leaves v)) items) = leaves <$> get_item k items.
Proof.
  induction items as [|[k' v'] items IH]; [done|]. simpl map.
  rewrite !get_item_cons. by destruct (decide (k' = k)).
Qed.

Lemma leaves_string_keyed v :
  leaves_ok (leaves v) = true ∧ element_ok (element v) = true
  ∧ (leaves_ok v = true → leaves v = v) ∧ (element_ok v = true → element v = v).
Proof.
  induction v as [repr|s|parts|elements IH|items IH] using value_nested_ind;
    try done.
  - assert (Hok : forallb element_ok (map element elements) = true).
    { apply forallb_forall. intros var (var' & <- & Hin)%in_map_iff.
      rewrite Forall_forall in IH. apply (IH var'). by apply list_elem_of_In. }
    assert (Hid : forallb element_ok elements = true → map element elements = elements).
    { clear Hok. intros Hall. rewrite forallb_forall in Hall.
      induction IH as [|var elements' Hvar IH IH']; [done|]. simpl. f_equal.
      - apply Hvar, Hall. by left.
      - apply IH'. intros var' Hin. apply Hall. by right. }
    split; [exact Hok|]. split; [done|]. split; [|done].
    simpl. intros Hall. by rewrite Hid.
  - assert (Hok : string_keyed (tuple_key_to_string (Dict items)) = true).
    { rewrite tuple_key_to_string_Dict, string_keyed_Dict. apply forallb_forall.
      intros [k v] Hin%list_elem_of_In.
      apply string_keys_elem in Hin as [Hkey Hvalue]. simpl in Hkey, Hvalue.
      rewrite Hkey. simpl.
      apply list_elem_of_fmap in Hvalue as ([k1 v1] & -> & Hin1). simpl.
      apply list_elem_of_In, in_map_iff in Hin1 as ([k2 v2] & [= <- <-] & Hin2).
      rewrite Forall_forall in IH. apply (IH (k2, v2)). by apply list_elem_of_In. }
    assert (Hid : string_keyed (Dict items) = true →
                  tuple_key_to_string (Dict items) = Dict items).
    { rewrite tuple_key_to_string_Dict, string_keyed_Dict. intros Hall.
      rewrite forallb_forall in Hall.
      assert (Hsame : map (λ '(k, v), (k, leaves v)) items = items).
      { clear Hok. induction IH as [|[k v] items' Hentry IH IH']; [done|]. simpl. f_equal.
        - f_equal. apply Hentry.
          specialize (Hall (k, v) ltac:(by left)). simpl in Hall.
          by apply andb_true_iff in Hall as [_ Hall].
        - apply IH'. intros entry Hin. apply Hall. by right. }
      rewrite Hsame. f_equal. apply string_keys_id. apply Forall_forall.
      intros [k v] Hin%list_elem_of_In. specialize (Hall _ Hin). simpl in *.
      apply andb_true_iff in Hall as [Hkey _]. by apply negb_true_iff. }
    done.
Qed.

Lemma tuple_keys_joining s (items : list (key * value)) :
  filter (λ k, joins_to s k = true) (filter (λ k, is_tuple k = true) items.*1)
  = (filter (λ entry : key * value, joins_to s entry.1 = true) items).*1.
Proof.
  induction items as [|[[s'|parts] v] items IH]; [done|..].
  - rewrite fmap_cons, !filter_cons. simpl. exact IH.
  - rewrite fmap_cons, (filter_cons _ (TupleKey parts, v)). simpl.
    rewrite (filter_cons _ (TupleKey parts)), decide_True by done.
    rewrite filter_cons, IH. by destruct (decide _).
Qed.

(** ** What the conversion leaves *)

(** dict_utils.py, tuple_key_to_string: after the call no key of the dict
    is a tuple, and the same holds for the dicts among its values and among
    the elements of the lists among its values, to any depth; no such list
    holds a tuple any more.  A second call changes nothing. *)
Theorem tuple_key_to_string_string_keyed items :
  string_keyed (tuple_key_to_string (Dict items)) = true
  ∧ tuple_key_to_string (tuple_key_to_string (Dict items))
    = tuple_key_to_string (Dict items).
Proof.
  destruct (leaves_string_keyed (Dict items)) as (Hok & _ & _ & _).
  change (string_keyed (tuple_key_to_string (Dict items)) = true) in Hok.
  split; [exact Hok|].
  rewrite tuple_key_to_string_Dict in Hok |- *.
  destruct (leaves_string_keyed
              (Dict (string_keys (map (λ '(k, v), (k, leaves v)) items))))
    as (_ & _ & Hid & _).
  exact (Hid Hok).
Qed.

(** dict_utils.py, tuple_key_to_string: the entry found afterwards under a
    string is the converted value of the last tuple key that joins to this
    string, whatever was stored under the string itself or under an earlier
    such tuple key; where no tuple key joins to the string, it is the
    converted value that the string had. *)
Theorem tuple_key_to_string_lookup items result s :
  NoDup items.*1 →
  tuple_key_to_string (Dict items) = Dict result →
  get_item (StrKey s) result
  = match last (filter (λ entry : key * value, joins_to s entry.1 = true) items) with
    | Some entry => Some (leaves entry.2)
    | None => leaves <$> get_item (StrKey s) items
    end.
Proof.
  intros Hnodup. rewrite tuple_key_to_string_Dict. intros [= <-].
  unfold string_keys. rewrite string_key_loop_string.
  - rewrite leaves_keys, tuple_keys_joining, fmap_last.
    destruct (last _) as [[k v]|] eqn:Hlast; simpl; [|apply leaves_lookup].
    rewrite leaves_lookup.
    apply last_Some in Hlast as [before Hlast].
    assert (Hin : (k, v) ∈ items).
    { assert (Hlast' : (k, v) ∈ filter (λ entry : key * value, joins_to s entry.1 = true) items).
      { rewrite Hlast. apply elem_of_app. right. left. }
      by apply list_elem_of_filter in Hlast' as [_ Hlast']. }
    by rewrite (get_item_NoDup k v items Hnodup Hin).
  - apply NoDup_filter. by rewrite leaves_keys.
  - intros k [Htuple Hin]%list_elem_of_filter. split; [done|].
    destruct (get_item k _) eqn:Hget; [done|]. by apply get_item_None in Hget.
Qed.

(** Three keys that all end as ['a___b']. *)
Definition example_dictionary : list (key * value) :=
  [ (TupleKey ["a"; "b"], Other "1");
    (StrKey "a___b", Other "2");
    (TupleKey ["a___b"], List [Tuple ["x"; "y"]; Other "3"]) ].

Lemma tuple_key_to_string_lookup_witness :
  NoDup example_dictionary.*1
  ∧ tuple_key_to_string (Dict example_dictionary)
    = Dict [(StrKey "a___b", List [Str "x___y"; Other "3"])]
  ∧ get_item (StrKey "a___b") [(StrKey "a___b", List [Str "x___y"; Other "3"])]
    = Some (List [Str "x___y"; Other "3"]).
Proof.
  assert (Hnodup : NoDup example_dictionary.*1).
  { by apply (bool_decide_unpack _). }
  split; [exact Hnodup|]. split; [reflexivity|].
  exact (tuple_key_to_string_lookup example_dictionary _ "a___b" Hnodup eq_refl).
Defined.

End TupleKeys.
